(** * Encrypted logistic regression over CKKS: a shallow embedding

    The development follows [logistic_regression_ckks.cpp]:
    - [get_diagonal] (diagonal packing);
    - the power tree of [compute_all_powers];
    - the homomorphic backend the program calls into, as an exact
      (error-free) model of the evaluator, encoder, encryptor and decryptor;
    - [cipher_dot_product], [Horner_sigmoid_approx],
      [predict_cipher_weights], [update_weights] and [train_cipher].

    C++ [int]s are integers of [Z]; where the source mixes [int] and
    [size_t] in one expression the conversions are written out with their
    wrap-around.  A [std::vector] is a list read and written by index; an
    index outside the vector is undefined behaviour in C++ and the
    [OutOfRange] failure here.  A [throw] is a [Fail] result.  A [double]
    is an exact rational of [Qc]. *)

From Stdlib Require Import ZArith QArith Qcanon Lia String.
From stdpp Require Import base list numbers.

Local Open Scope Z_scope.

(** ** Results of fallible code *)

Inductive failure : Type :=
| OutOfRange                       (* operator[] outside the vector *)
| OutOfFuel                        (* a loop model ran out of iterations *)
| RuntimeError (msg : string)      (* throw runtime_error(msg) *)
| InvalidArgument (msg : string)   (* thrown by the backend *)
| ProcessExit.                     (* exit(...) *)

Inductive result (A : Type) : Type :=
| OK (a : A)
| Fail (e : failure).
Arguments OK {A} a.
Arguments Fail {A} e.

Global Instance result_ret : MRet result := fun A a => OK a.
Global Instance result_bind : MBind result := fun A B f m =>
  match m with
  | OK a => f a
  | Fail e => Fail e
  end.

Fixpoint foldM {A S : Type} (f : A -> S -> result S) (l : list A) (s : S)
  : result S :=
  match l with
  | [] => OK s
  | x :: l' => s' ← f x s; foldM f l' s'
  end.

(** [for (int i = lo; i <= hi; i++) body], the body not assigning [i]. *)
Definition for_range {S : Type} (lo hi : Z) (body : Z -> S -> result S)
  (s : S) : result S :=
  foldM body (seqZ lo (hi - lo + 1)) s.

(** [for (int i = hi; i >= lo; i--) body]. *)
Definition for_range_down {S : Type} (hi lo : Z) (body : Z -> S -> result S)
  (s : S) : result S :=
  foldM body (reverse (seqZ lo (hi - lo + 1))) s.

(** ** Machine integers *)

Definition size_t_of (z : Z) : Z := z mod 18446744073709551616.
Definition int_of (z : Z) : Z := (z + 2147483648) mod 4294967296 - 2147483648.
Definition INT_MAX : Z := 2147483647.

(** ** Vectors *)

(** [v[i]] read.  A negative [int] index converts to a [size_t] beyond any
    vector, so it is out of range like one that is too large. *)
Definition vec_get {A : Type} (v : list A) (i : Z) : result A :=
  if bool_decide (0 <= i) then
    match v !! Z.to_nat i with
    | Some x => OK x
    | None => Fail OutOfRange
    end
  else Fail OutOfRange.

(** [v[i] = x]. *)
Definition vec_set {A : Type} (v : list A) (i : Z) (x : A) : result (list A) :=
  if bool_decide (0 <= i < Z.of_nat (length v))
  then OK (<[Z.to_nat i := x]> v)
  else Fail OutOfRange.

Definition vec_size {A : Type} (v : list A) : Z := Z.of_nat (length v).

(** [v.resize(n)], [d] the value-initialised element. *)
Definition vec_resize {A : Type} (d : A) (v : list A) (n : Z) : list A :=
  take (Z.to_nat n) v ++ replicate (Z.to_nat n - length v) d.

(** ** Diagonal packing: [get_diagonal] *)

(** Both loops of [get_diagonal] have the body [diagonal[k] = U[i][j]; k++]
    and the step [i++, j++]; they differ in their condition [cond i j]. *)
Fixpoint copy_loop {T : Type} (cond : Z -> Z -> bool) (fuel : nat)
  (U : list (list T)) (i j k : Z) (diagonal : list T) : result (list T * Z) :=
  match fuel with
  | O => Fail OutOfFuel
  | S fuel' =>
      if cond i j then
        row ← vec_get U i;
        x ← vec_get row j;
        diagonal' ← vec_set diagonal k x;
        copy_loop cond fuel' U (i + 1) (j + 1) (k + 1) diagonal'
      else OK (diagonal, k)
  end.

(** [T0] is the value-initialised [T()] that fills [diagonal(U.size())]. *)
Definition get_diagonal {T : Type} (T0 : T) (position : Z) (U : list (list T))
  : result (list T) :=
  let diagonal := replicate (length U) T0 in
  let k := 0 in
  (* (i < U.size() - position) && (j < U.size()), all compared as size_t *)
  let cond1 i j :=
    (size_t_of i <? size_t_of (vec_size U - size_t_of position))
    && (size_t_of j <? vec_size U) in
  '(diagonal, k) ← copy_loop cond1 (S (length U)) U 0 position k diagonal;
  (* (i < U.size()) && (j < position), the second compared as int *)
  let cond2 i j := (size_t_of i <? vec_size U) && (j <? position) in
  let i0 := int_of (size_t_of (vec_size U - size_t_of position)) in
  '(diagonal, _) ← copy_loop cond2 (S (length U)) U i0 0 k diagonal;
  OK diagonal.

(** An [n] x [n] matrix. *)
Definition square {T : Type} (n : nat) (U : list (list T)) : Prop :=
  length U = n /\ Forall (fun row => length row = n) U.

(** Entry [U[i][j]] of a matrix, when it exists. *)
Definition entry {T : Type} (U : list (list T)) (i j : nat) : option T :=
  row ← U !! i; row !! j.

(** ** The power tree of [compute_all_powers]: levels *)

(** The body of the inner loop, at [j], on [(minlevel, cand)]. *)
Definition split_body (levels : list Z) (i : Z) (j : Z) (st : Z * Z)
  : result (Z * Z) :=
  let '(minlevel, cand) := st in
  let k := i - j in
  lj ← vec_get levels j;
  lk ← vec_get levels k;
  let newlevel := Z.max lj lk + 1 in
  if newlevel <? minlevel then OK (newlevel, j) else OK (minlevel, cand).

(** The inner loop over [j], from [minlevel = i], [cand = -1]; it returns
    [(minlevel, cand)]. *)
Definition split_search (levels : list Z) (i : Z) : result (Z * Z) :=
  for_range 1 (Z.quot i 2) (split_body levels i) (i, -1).

(** [vector<int> levels(degree + 1, 0); levels[1] = 0; levels[0] = 0;] *)
Definition init_levels (degree : Z) : result (list Z) :=
  let levels := replicate (Z.to_nat (degree + 1)) 0 in
  levels ← vec_set levels 1 0;
  vec_set levels 0 0.

(** One round of the outer loop, restricted to what it does to [levels]. *)
Definition level_step (i : Z) (levels : list Z) : result (list Z) :=
  '(minlevel, cand) ← split_search levels i;
  levels ← vec_set levels i minlevel;
  if cand <? 0 then Fail (RuntimeError "error") else OK levels.

(** The dynamic program of [compute_all_powers] on its own. *)
Definition power_levels (degree : Z) : result (list Z) :=
  levels ← init_levels degree;
  for_range 2 degree level_step levels.

(** The level repeated multiplication by [x] needs for [x^d]. *)
Definition horner_power_level (d : Z) : Z := d - 1.

(** ** The homomorphic backend *)

(** Modelled from the spec: the encryption backend (SEAL's [CKKSEncoder],
    [Encryptor], [Decryptor] and [Evaluator]) is an external library whose
    code is not in the repository.  The model follows its interface in
    sections 3 and 6 of the specification and the checks the library
    documents: a ciphertext or plaintext carries its slots, its level (the
    chain index of its [parms_id]) and its scale; binary operations throw on
    operands of different levels, additions on operands of different
    scales, a rescale at level 0 throws, and a modulus switch only goes
    down.  The model is exact: slots hold the encoded rationals themselves,
    there is no noise, and every rescaling prime is the base scale [2^40]
    of [main] (coefficient moduli [{60, 40, ..., 40, 60}]), so that scales
    stay powers of two.  The library's bounds on the bit size of a scale
    and its refusal of transparent ciphertexts are left out. *)
Record SEALContext : Type := {
  slot_count : nat;    (* poly_modulus_degree / 2 *)
  first_level : nat    (* chain index of the first data level *)
}.

(** Modelled from the spec: a [Plaintext] of the absent library, with its
    encoded slots, the chain index of its [parms_id] and its scale. *)
Record Plaintext : Type := {
  pt_slots : list Qc;
  pt_level : nat;
  pt_scale : Qc
}.

(** Modelled from the spec: a [Ciphertext] of the absent library, with the
    slots it encrypts, the chain index of its [parms_id], its scale and its
    number of polynomials. *)
Record Ciphertext : Type := {
  ct_slots : list Qc;
  ct_level : nat;
  ct_scale : Qc;
  ct_size : nat        (* number of polynomials: 2, or 3 after a multiply *)
}.

Definition Qc_of (n : Z) (d : positive) : Qc := Q2Qc (n # d).

(** [pow(2.0, e)] for an integer [e]. *)
Definition pow2 (e : Z) : Qc :=
  if 0 <=? e then Qc_of (2 ^ e) 1 else Qc_of 1 (Z.to_pos (2 ^ (- e))).

(** [(int)log2(s)] for a positive [s]: the logarithm truncated towards 0. *)
Definition trunc_log2 (s : Qc) : Z :=
  let n := Qnum s in
  let d := Zpos (Qden s) in
  if d <=? n then Z.log2 (n / d) else - Z.log2 (d / n).

(** [double scale = pow(2.0, 40)] of [main]. *)
Definition base_scale : Qc := pow2 40.

(** Modelled from the spec: the prime a rescale divides by, each of the
    40-bit primes of [main] idealised to the base scale. *)
Definition rescale_prime : Qc := pow2 40.

(** Modelled from the spec: a default-constructed [Plaintext] and
    [Ciphertext], of the absent library. *)
Definition Plaintext0 : Plaintext :=
  {| pt_slots := []; pt_level := 0; pt_scale := 1%Qc |}.
Definition Ciphertext0 : Ciphertext :=
  {| ct_slots := []; ct_level := 0; ct_scale := 1%Qc; ct_size := 0 |}.

(** Modelled from the spec: [CKKSEncoder::encode(vector<double>, scale, pt)]. *)
Definition encode (context : SEALContext) (values : list Qc) (scale : Qc)
  : result Plaintext :=
  if bool_decide (length values <= slot_count context)%nat then
    OK {| pt_slots := values ++ replicate (slot_count context - length values) 0%Qc;
          pt_level := first_level context;
          pt_scale := scale |}
  else Fail (InvalidArgument "values_size is too large").

(** Modelled from the spec: [CKKSEncoder::encode(double, scale, pt)], the
    value in every slot. *)
Definition encode_value (context : SEALContext) (value : Qc) (scale : Qc)
  : Plaintext :=
  {| pt_slots := replicate (slot_count context) value;
     pt_level := first_level context;
     pt_scale := scale |}.

(** Modelled from the spec: [CKKSEncoder::encode(int64_t, pt)], the only
    two-argument overload: the integer in every slot, at scale 1. *)
Definition encode_int64 (context : SEALContext) (value : Z) : Plaintext :=
  {| pt_slots := replicate (slot_count context) (Qc_of value 1);
     pt_level := first_level context;
     pt_scale := 1%Qc |}.

(** Modelled from the spec: [CKKSEncoder::decode]. *)
Definition decode (pt : Plaintext) : list Qc := pt_slots pt.

(** Modelled from the spec: [Encryptor::encrypt]; in CKKS the ciphertext
    takes the plaintext's [parms_id] and scale. *)
Definition encrypt (pt : Plaintext) : Ciphertext :=
  {| ct_slots := pt_slots pt; ct_level := pt_level pt;
     ct_scale := pt_scale pt; ct_size := 2 |}.

(** Modelled from the spec: [Decryptor::decrypt]; the plaintext takes the
    ciphertext's [parms_id] and scale. *)
Definition decrypt (ct : Ciphertext) : Plaintext :=
  {| pt_slots := ct_slots ct; pt_level := ct_level ct; pt_scale := ct_scale ct |}.

(** Modelled from the spec: the two exceptions of the library's checks. *)
Definition parameter_mismatch {A : Type} : result A :=
  Fail (InvalidArgument "parameter mismatch").
Definition scale_mismatch {A : Type} : result A :=
  Fail (InvalidArgument "scale mismatch").

(** Modelled from the spec: [Evaluator::add], [sub], [negate]. *)
Definition add (a b : Ciphertext) : result Ciphertext :=
  if bool_decide (ct_level a = ct_level b) then
    if bool_decide (ct_scale a = ct_scale b) then
      OK {| ct_slots := zip_with Qcplus (ct_slots a) (ct_slots b);
            ct_level := ct_level a; ct_scale := ct_scale a;
            ct_size := Nat.max (ct_size a) (ct_size b) |}
    else scale_mismatch
  else parameter_mismatch.

Definition sub (a b : Ciphertext) : result Ciphertext :=
  if bool_decide (ct_level a = ct_level b) then
    if bool_decide (ct_scale a = ct_scale b) then
      OK {| ct_slots := zip_with Qcminus (ct_slots a) (ct_slots b);
            ct_level := ct_level a; ct_scale := ct_scale a;
            ct_size := Nat.max (ct_size a) (ct_size b) |}
    else scale_mismatch
  else parameter_mismatch.

Definition negate (a : Ciphertext) : Ciphertext :=
  {| ct_slots := Qcopp <$> ct_slots a; ct_level := ct_level a;
     ct_scale := ct_scale a; ct_size := ct_size a |}.

(** Modelled from the spec: [Evaluator::add_many]. *)
Definition add_many (encrypteds : list Ciphertext) : result Ciphertext :=
  match encrypteds with
  | [] => Fail (InvalidArgument "encrypteds cannot be empty")
  | c :: rest => foldM (fun x destination => add destination x) rest c
  end.

(** Modelled from the spec: [Evaluator::multiply], [multiply_plain],
    [add_plain]. *)
Definition multiply (a b : Ciphertext) : result Ciphertext :=
  if bool_decide (ct_level a = ct_level b) then
    OK {| ct_slots := zip_with Qcmult (ct_slots a) (ct_slots b);
          ct_level := ct_level a; ct_scale := (ct_scale a * ct_scale b)%Qc;
          ct_size := ct_size a + ct_size b - 1 |}
  else parameter_mismatch.

Definition multiply_plain (a : Ciphertext) (p : Plaintext) : result Ciphertext :=
  if bool_decide (ct_level a = pt_level p) then
    OK {| ct_slots := zip_with Qcmult (ct_slots a) (pt_slots p);
          ct_level := ct_level a; ct_scale := (ct_scale a * pt_scale p)%Qc;
          ct_size := ct_size a |}
  else parameter_mismatch.

Definition add_plain (a : Ciphertext) (p : Plaintext) : result Ciphertext :=
  if bool_decide (ct_level a = pt_level p) then
    if bool_decide (ct_scale a = pt_scale p) then
      OK {| ct_slots := zip_with Qcplus (ct_slots a) (pt_slots p);
            ct_level := ct_level a; ct_scale := ct_scale a;
            ct_size := ct_size a |}
    else scale_mismatch
  else parameter_mismatch.

(** Modelled from the spec: [Evaluator::relinearize]. *)
Definition relinearize (a : Ciphertext) : result Ciphertext :=
  if bool_decide (2 <= ct_size a)%nat then
    OK {| ct_slots := ct_slots a; ct_level := ct_level a;
          ct_scale := ct_scale a; ct_size := 2 |}
  else Fail (InvalidArgument "encrypted is not valid for encryption parameters").

(** Modelled from the spec: [Evaluator::rescale_to_next], one level down,
    the scale divided by the prime that is dropped. *)
Definition rescale_to_next (a : Ciphertext) : result Ciphertext :=
  match ct_level a with
  | O => Fail (InvalidArgument "end of modulus switching chain reached")
  | S l =>
      OK {| ct_slots := ct_slots a; ct_level := l;
            ct_scale := (ct_scale a / rescale_prime)%Qc; ct_size := ct_size a |}
  end.

(** Modelled from the spec: [Evaluator::mod_switch_to] on a ciphertext and
    on a plaintext, and [mod_switch_to_next] on a plaintext. *)
Definition mod_switch_to (a : Ciphertext) (level : nat) : result Ciphertext :=
  if bool_decide (level <= ct_level a)%nat then
    OK {| ct_slots := ct_slots a; ct_level := level;
          ct_scale := ct_scale a; ct_size := ct_size a |}
  else Fail (InvalidArgument "cannot switch to higher level modulus").

Definition mod_switch_to_plain (p : Plaintext) (level : nat) : result Plaintext :=
  if bool_decide (level <= pt_level p)%nat then
    OK {| pt_slots := pt_slots p; pt_level := level; pt_scale := pt_scale p |}
  else Fail (InvalidArgument "cannot switch to higher level modulus").

Definition mod_switch_to_next_plain (p : Plaintext) : result Plaintext :=
  match pt_level p with
  | O => Fail (InvalidArgument "end of modulus switching chain reached")
  | S l => OK {| pt_slots := pt_slots p; pt_level := l; pt_scale := pt_scale p |}
  end.

(** Modelled from the spec: [Evaluator::rotate_vector]; slot [i] of the
    result is slot [(i + steps) mod slot_count] of the argument, positive
    steps rotating to the left. *)
Definition rotate_vector (context : SEALContext) (a : Ciphertext) (steps : Z)
  : result Ciphertext :=
  if bool_decide (2 < ct_size a)%nat then
    Fail (InvalidArgument "encrypted size must be 2")
  else if bool_decide (steps = 0) then OK a
  else if bool_decide (Z.of_nat (slot_count context) <= Z.abs steps) then
    Fail (InvalidArgument "step count too large")
  else
    OK {| ct_slots :=
            rotate (Z.to_nat (steps mod Z.of_nat (slot_count context))) (ct_slots a);
          ct_level := ct_level a; ct_scale := ct_scale a; ct_size := ct_size a |}.

(** Modelled from the spec: the assignment [c.scale() = s] through the
    library's accessor; the payload is untouched, so the values it stands
    for change by the ratio of the two scales. *)
Definition assign_scale (a : Ciphertext) (s : Qc) : Ciphertext :=
  {| ct_slots := (fun x => x * (ct_scale a / s))%Qc <$> ct_slots a;
     ct_level := ct_level a; ct_scale := s; ct_size := ct_size a |}.

(** ** [compute_all_powers] with its ciphertexts *)

(** One round of the outer loop on [(powers, levels)]. *)
Definition power_step (i : Z) (st : list Ciphertext * list Z)
  : result (list Ciphertext * list Z) :=
  let '(powers, levels) := st in
  '(minlevel, cand) ← split_search levels i;
  levels ← vec_set levels i minlevel;
  if cand <? 0 then Fail (RuntimeError "error") else
  temp ← vec_get powers cand;
  other ← vec_get powers (i - cand);
  temp ← mod_switch_to temp (ct_level other);
  p ← multiply temp other;
  p ← relinearize p;
  p ← rescale_to_next p;
  powers ← vec_set powers i p;
  OK (powers, levels).

(** [compute_all_powers(ctx, degree, ..., powers)]; the result is the final
    [powers] together with the local [levels]. *)
Definition compute_all_powers (ctx : Ciphertext) (degree : Z)
  (powers : list Ciphertext) : result (list Ciphertext * list Z) :=
  let powers := vec_resize Ciphertext0 powers (degree + 1) in
  powers ← vec_set powers 1 ctx;
  levels ← init_levels degree;
  for_range 2 degree power_step (powers, levels).

(** ** [cipher_dot_product] *)

(** The body of the loop, on [(mult, dup)]. *)
Definition dot_body (context : SEALContext) (_ : Z) (st : Ciphertext * Ciphertext)
  : result (Ciphertext * Ciphertext) :=
  let '(mult, dup) := st in
  dup ← rotate_vector context dup 1;
  mult ← add mult dup;
  OK (mult, dup).

Definition cipher_dot_product (context : SEALContext) (ctA ctB : Ciphertext)
  (size : Z) : result Ciphertext :=
  (* Component-wise multiplication *)
  mult ← multiply ctA ctB;
  mult ← relinearize mult;
  mult ← rescale_to_next mult;
  (* Fill with duplicate *)
  zero_filled ← rotate_vector context mult (- size);
  dup ← add mult zero_filled;
  '(mult, dup) ← for_range 1 (size - 1) (dot_body context) (mult, dup);
  (* Manual Rescale *)
  OK (assign_scale mult (pow2 (trunc_log2 (ct_scale mult)))).

(** ** [Horner_sigmoid_approx] *)

(** One round of the loop on [(ctx, temp, plain_coeffs)], at index [i]. *)
Definition horner_step (i : Z) (st : Ciphertext * Ciphertext * list Plaintext)
  : result (Ciphertext * Ciphertext * list Plaintext) :=
  let '(ctx, temp, plain_coeffs) := st in
  let ctx_level := ct_level ctx in
  let temp_level := ct_level temp in
  '(ctx, temp) ←
    (if bool_decide (temp_level < ctx_level)%nat then
       ctx ← mod_switch_to ctx (ct_level temp); OK (ctx, temp)
     else if bool_decide (ctx_level < temp_level)%nat then
       temp ← mod_switch_to temp (ct_level ctx); OK (ctx, temp)
     else OK (ctx, temp));
  temp ← multiply temp ctx;
  temp ← relinearize temp;
  temp ← rescale_to_next temp;
  coeff ← vec_get plain_coeffs i;
  coeff ← mod_switch_to_plain coeff (ct_level temp);
  plain_coeffs ← vec_set plain_coeffs i coeff;
  (* Manual rescale *)
  let temp := assign_scale temp (pow2 40) in
  temp ← add_plain temp coeff;
  OK (ctx, temp, plain_coeffs).

(** The body of the first loop, which encodes [coeffs[i]]. *)
Definition encode_body (context : SEALContext) (coeffs : list Qc) (scale : Qc)
  (i : Z) (plain_coeffs : list Plaintext) : result (list Plaintext) :=
  c ← vec_get coeffs i;
  vec_set plain_coeffs i (encode_value context c scale).

Definition Horner_sigmoid_approx (context : SEALContext) (ctx : Ciphertext)
  (degree : Z) (coeffs : list Qc) (scale : Qc) : result Ciphertext :=
  plain_coeffs ←
    for_range 0 degree (encode_body context coeffs scale)
      (replicate (Z.to_nat (degree + 1)) Plaintext0);
  top ← vec_get plain_coeffs degree;
  let temp := encrypt top in
  '(_, temp, _) ←
    for_range_down (degree - 1) 0 horner_step (ctx, temp, plain_coeffs);
  OK temp.

(** ** [predict_cipher_weights] *)

Definition DEGREE : Z := 3.

(** The degree-3 table [{0.5, 1.20069, 0.00001, -0.81562}]. *)
Definition table3 : list Qc :=
  [Qc_of 5 10; Qc_of 120069 100000; Qc_of 1 100000; Qc_of (-81562) 100000].

(** The coefficient table chosen by [DEGREE]. *)
Definition sigmoid_coeffs : result (list Qc) :=
  if bool_decide (DEGREE = 3) then OK table3
  else if bool_decide (DEGREE = 5) then
    OK [Qc_of 5 10; Qc_of 153048 100000; Qc_of 1 100000;
        Qc_of (-23533056) 10000000; Qc_of 1 100000; Qc_of 13511295 10000000]
  else if bool_decide (DEGREE = 7) then
    OK [Qc_of 5 10; Qc_of 173496 100000; Qc_of 1 100000;
        Qc_of (-419407) 100000; Qc_of 1 100000; Qc_of 543402 100000;
        Qc_of 1 100000; Qc_of (-250739) 100000]
  else Fail ProcessExit.

(** The first half of [predict_cipher_weights], up to the manual rescale of
    [lintransf_vec]: the linear transformation over the rows. *)
Definition linear_transform (context : SEALContext) (features : list Ciphertext)
  (weights : Ciphertext) (num_weights : Z) (scale : Qc) : result Ciphertext :=
  let num_rows := vec_size features in
  results ←
    for_range 0 (num_rows - 1)
      (fun i results =>
         (* Dot Product *)
         row ← vec_get features i;
         r ← cipher_dot_product context row weights num_weights;
         (* Create mask *)
         mask_vec ← vec_set (replicate (Z.to_nat num_rows) 0%Qc) i 1%Qc;
         mask_pt ← encode context mask_vec scale;
         (* Bring down mask by 1 level since dot product consumed 1 level *)
         mask_pt ← mod_switch_to_next_plain mask_pt;
         (* Multiply result with mask *)
         r ← multiply_plain r mask_pt;
         vec_set results i r)
      (replicate (Z.to_nat num_rows) Ciphertext0);
  (* Add all results to ciphertext vec *)
  lintransf_vec ← add_many results;
  lintransf_vec ← relinearize lintransf_vec;
  lintransf_vec ← rescale_to_next lintransf_vec;
  (* Manual Rescale *)
  OK (assign_scale lintransf_vec (pow2 (trunc_log2 (ct_scale lintransf_vec)))).

Definition predict_cipher_weights (context : SEALContext)
  (features : list Ciphertext) (weights : Ciphertext) (num_weights : Z)
  (scale : Qc) : result Ciphertext :=
  lintransf_vec ← linear_transform context features weights num_weights scale;
  (* Sigmoid over result *)
  coeffs ← sigmoid_coeffs;
  Horner_sigmoid_approx context lintransf_vec (vec_size coeffs - 1) coeffs scale.

(** ** [update_weights] *)

(** A [double] converted to [int64_t]: truncation towards zero. *)
Definition int64_of_double (x : Qc) : Z := Z.quot (Qnum x) (Zpos (Qden x)).

(** The body of the gradient loop, on [(features_T, gradient_results)]. *)
Definition gradient_body (context : SEALContext) (pred_labels : Ciphertext)
  (num_observations num_weights : Z) (scale : Qc) (i : Z)
  (st : list Ciphertext * list Ciphertext)
  : result (list Ciphertext * list Ciphertext) :=
  let '(features_T, gradient_results) := st in
  (* Mod switch features T [i] *)
  col ← vec_get features_T i;
  col ← mod_switch_to col (ct_level pred_labels);
  features_T ← vec_set features_T i col;
  g ← cipher_dot_product context col pred_labels num_observations;
  (* Create mask *)
  mask_vec ← vec_set (replicate (Z.to_nat num_weights) 0%Qc) i 1%Qc;
  mask_pt ← encode context mask_vec scale;
  (* Multiply result with mask *)
  g ← multiply_plain g mask_pt;
  gradient_results ← vec_set gradient_results i g;
  OK (features_T, gradient_results).

Definition update_weights (context : SEALContext)
  (features features_T : list Ciphertext) (labels weights : Ciphertext)
  (learning_rate : Qc) (scale : Qc) : result Ciphertext :=
  let num_observations := vec_size features in
  let num_weights := vec_size features_T in
  (* Get predictions *)
  predictions ← predict_cipher_weights context features weights num_weights scale;
  (* Calculate Predictions - Labels *)
  labels ← mod_switch_to labels (ct_level predictions);
  pred_labels ← sub predictions labels;
  (* Calculate Gradient vector (loop over rows and dot product) *)
  '(_, gradient_results) ←
    for_range 0 (num_weights - 1)
      (gradient_body context pred_labels num_observations num_weights scale)
      (features_T, replicate (Z.to_nat num_weights) Ciphertext0);
  (* Add all gradient results to gradient *)
  gradient ← add_many gradient_results;
  gradient ← relinearize gradient;
  gradient ← rescale_to_next gradient;
  let gradient := assign_scale gradient (pow2 (trunc_log2 (ct_scale gradient))) in
  (* Multiply by learning_rate/observations; encode(N, N_pt) has no scale
     argument and is the int64_t overload *)
  let N := (learning_rate / Qc_of num_observations 1)%Qc in
  let N_pt := encode_int64 context (int64_of_double N) in
  N_pt ← mod_switch_to_plain N_pt (ct_level gradient);
  gradient ← multiply_plain gradient N_pt;
  (* Subtract from weights *)
  new_weights ← sub gradient weights;
  OK (negate new_weights).

(** ** [train_cipher] *)

(** The refresh of the loop body: decrypt, decode (for the log), and
    encrypt the decrypted plaintext again. *)
Definition refresh (new_weights : Ciphertext) : Ciphertext :=
  let new_weights_pt := decrypt new_weights in
  let new_weights_decoded := decode new_weights_pt in
  encrypt new_weights_pt.

(** The variables of [train_cipher] that hold ciphertexts. *)
Record train_state : Type := {
  ts_features : list Ciphertext;
  ts_features_T : list Ciphertext;
  ts_labels : Ciphertext;
  ts_new_weights : Ciphertext
}.

(** One round of the loop: [update_weights] is called by value, only
    [new_weights] is assigned. *)
Definition train_round (context : SEALContext) (learning_rate scale : Qc)
  (st : train_state) : result train_state :=
  new_weights ←
    update_weights context (ts_features st) (ts_features_T st) (ts_labels st)
      (ts_new_weights st) learning_rate scale;
  OK {| ts_features := ts_features st; ts_features_T := ts_features_T st;
        ts_labels := ts_labels st; ts_new_weights := refresh new_weights |}.

(** The state after [iters] rounds. *)
Definition train_rounds (context : SEALContext) (learning_rate scale : Qc)
  (iters : Z) (st : train_state) : result train_state :=
  for_range 0 (iters - 1) (fun _ => train_round context learning_rate scale) st.



(** [train_cipher]; its arguments [observations] and [num_weights] only
    serve the log. *)
Definition train_cipher (context : SEALContext)
  (features features_T : list Ciphertext) (labels weights : Ciphertext)
  (learning_rate : Qc) (iters : Z) (scale : Qc) : result Ciphertext :=
  (* Copy weights to new_weights *)
  st ← train_rounds context learning_rate scale iters
         {| ts_features := features; ts_features_T := features_T;
            ts_labels := labels; ts_new_weights := weights |};
  OK (ts_new_weights st).

(** ** What the specification compares the program with *)

(** [sum_{i < n} f i]. *)
Fixpoint Qc_sum (f : nat -> Qc) (n : nat) : Qc :=
  match n with
  | O => 0%Qc
  | S n' => (Qc_sum f n' + f n')%Qc
  end.

(** Slot [i] of a slot vector, 0 beyond its end. *)
Definition slot (v : list Qc) (i : nat) : Qc := default 0%Qc (v !! i).

(** The inner product [sum_{i < size} a_i * b_i]. *)
Definition inner_product (a b : list Qc) (size : nat) : Qc :=
  Qc_sum (fun i => slot a i * slot b i)%Qc size.

(** [p(x) = sum_i c_i * x^i]. *)
Definition poly_eval (coeffs : list Qc) (x : Qc) : Qc :=
  Qc_sum (fun i => slot coeffs i * x ^ i)%Qc (length coeffs).

(** One plaintext gradient-descent step: predictions by the sigmoid
    polynomial of the rows' inner products with the weights, the residual,
    the gradient [features^T . residual], and the update. *)
Definition reference_step (coeffs : list Qc) (features : list (list Qc))
  (labels weights : list Qc) (learning_rate : Qc) : list Qc :=
  let num_observations := length features in
  let num_weights := length weights in
  let prediction i :=
    poly_eval coeffs (inner_product (default [] (features !! i)) weights num_weights) in
  let residual i := (prediction i - slot labels i)%Qc in
  let gradient j :=
    Qc_sum (fun i => slot (default [] (features !! i)) j * residual i)%Qc
      num_observations in
  (fun j => slot weights j
            - learning_rate / Qc_of (Z.of_nat num_observations) 1 * gradient j)%Qc
    <$> seq 0 num_weights.

(** ** Well-formed operands *)

(** A ciphertext of the size of a fresh one, with all its slots, at the
    base scale. *)
Definition well_formed (context : SEALContext) (c : Ciphertext) : Prop :=
  length (ct_slots c) = slot_count context
  /\ ct_scale c = base_scale
  /\ ct_size c = 2%nat.

(** The slots from [size] on are zero. *)
Definition zero_beyond (size : nat) (v : list Qc) : Prop :=
  forall i : nat, (size <= i)%nat -> slot v i = 0%Qc.

(** The value the loop of [Horner_sigmoid_approx] folds in one slot: from
    the accumulator [acc], the rounds at the indices [k - 1] down to [0]. *)
Fixpoint horner_fold (coeffs : list Qc) (k : nat) (acc x : Qc) : Qc :=
  match k with
  | O => acc
  | S k' => horner_fold coeffs k' (acc * x + slot coeffs k')%Qc x
  end.

(** ** Concrete inputs *)

(** What [encode] at the base scale followed by [encrypt] gives: the values,
    zero-padded, at the first level. *)
Definition fresh (context : SEALContext) (values : list Qc) : Ciphertext :=
  {| ct_slots := values ++ replicate (slot_count context - length values) 0%Qc;
     ct_level := first_level context;
     ct_scale := base_scale;
     ct_size := 2 |}.

Definition ints (l : list Z) : list Qc := (fun z => Qc_of z 1) <$> l.

(** Contexts with the modulus chain of [main] (first level 7) and few
    slots. *)
Definition context8 : SEALContext := {| slot_count := 8; first_level := 7 |}.
Definition context4 : SEALContext := {| slot_count := 4; first_level := 7 |}.

(** Three observations of two features, and weights [1, 1]. *)
Definition rows3x2 : list Ciphertext :=
  [fresh context8 (ints [1; 2]); fresh context8 (ints [3; 4]);
   fresh context8 (ints [5; 6])].
Definition weights11 : Ciphertext := fresh context8 (ints [1; 1]).

(** Four observations of two features, their transpose and labels. *)
Definition rows4x2 : list Ciphertext :=
  [fresh context8 (ints [1; 2]); fresh context8 (ints [3; 4]);
   fresh context8 (ints [5; 6]); fresh context8 (ints [7; 8])].
Definition cols4x2 : list Ciphertext :=
  [fresh context8 (ints [1; 3; 5; 7]); fresh context8 (ints [2; 4; 6; 8])].
Definition labels4 : Ciphertext := fresh context8 (ints [0; 1; 0; 1]).


(** A 3 x 3 matrix. *)
Definition matrix3 : list (list Z) := [[1; 2; 3]; [4; 5; 6]; [7; 8; 9]].

(** ** Auxiliary notions of the proofs *)

(** Entries [0..t] of [levels] hold the ceilings of the logarithms. *)
Definition levels_ok (t : Z) (levels : list Z) : Prop :=
  forall k : nat, Z.of_nat k <= t -> (k < length levels)%nat ->
    levels !! k = Some (Z.log2_up (Z.of_nat k)).

(** A result that is not the [runtime_error] of the program. *)
Definition not_runtime {A : Type} (r : result A) : Prop :=
  forall msg, r <> Fail (RuntimeError msg).

(** [pk] is [x^k] for the input [ctx] of [compute_all_powers]: all its
    slots, [ceil(log2 k)] levels below [ctx]. *)
Definition power_ok (context : SEALContext) (ctx : Ciphertext) (k : nat)
  (pk : Ciphertext) : Prop :=
  well_formed context pk
  /\ Z.of_nat (ct_level pk) = Z.of_nat (ct_level ctx) - Z.log2_up (Z.of_nat k)
  /\ forall j, (j < slot_count context)%nat ->
       slot (ct_slots pk) j = (slot (ct_slots ctx) j ^ k)%Qc.

(** The entries [1..t] of [powers] are the powers of [ctx]. *)
Definition powers_ok (context : SEALContext) (ctx : Ciphertext) (t : Z)
  (powers : list Ciphertext) : Prop :=
  forall k : nat, (1 <= k)%nat -> Z.of_nat k <= t ->
    exists pk, powers !! k = Some pk /\ power_ok context ctx k pk.

(** ** The other functions of the program *)

(** [get_all_diagonals]: the diagonal at every offset. *)
Definition get_all_diagonals {T : Type} (T0 : T) (U : list (list T))
  : result (list (list T)) :=
  for_range 0 (vec_size U - 1)
    (fun i diagonal_matrix =>
       d ← get_diagonal T0 i U;
       vec_set diagonal_matrix i d)
    (replicate (length U) []).

(** [rotate_vec]; [num_rotations > input_vec.size()] compares as [size_t],
    and so does the index [(i + num_rotations) % input_vec.size()]. *)
Definition rotate_vec {T : Type} (T0 : T) (input_vec : list T)
  (num_rotations : Z) : result (list T) :=
  if vec_size input_vec <? size_t_of num_rotations then Fail ProcessExit
  else
    for_range 0 (vec_size input_vec - 1)
      (fun i rotated_res =>
         x ← vec_get input_vec
               (size_t_of (i + num_rotations) mod vec_size input_vec);
         vec_set rotated_res i x)
      (replicate (length input_vec) T0).

(** [vector<T> v(n)] with an [int] length: a negative [n] converts to a
    [size_t] beyond [max_size()] and the constructor throws. *)
Definition vec_make {A : Type} (n : Z) (x : A) : result (list A) :=
  if n <? 0 then Fail (InvalidArgument "length_error")
  else OK (replicate (Z.to_nat n) x).

(** [transpose_matrix]; the column count is that of [input_matrix[0]]. *)
Definition transpose_body {T : Type} (input_matrix : list (list T)) (i j : Z)
  (transposed : list (list T)) : result (list (list T)) :=
  row ← vec_get input_matrix i;
  x ← vec_get row j;
  trow ← vec_get transposed j;
  trow' ← vec_set trow i x;
  vec_set transposed j trow'.

Definition transpose_matrix {T : Type} (T0 : T) (input_matrix : list (list T))
  : result (list (list T)) :=
  let rowSize := int_of (vec_size input_matrix) in
  first ← vec_get input_matrix 0;
  let colSize := int_of (vec_size first) in
  trow0 ← vec_make rowSize T0;
  transposed ← vec_make colSize trow0;
  for_range 0 (rowSize - 1)
    (fun i transposed =>
       for_range 0 (colSize - 1) (transpose_body input_matrix i) transposed)
    transposed.

(** A matrix of [r] rows and [c] columns. *)
Definition rect {T : Type} (r c : nat) (U : list (list T)) : Prop :=
  length U = r /\ Forall (fun row => length row = c) U.

(** What [transposed] holds when the loops are at row [i], column [j]. *)
Definition transposed_upto {T : Type} (r c : nat) (M : list (list T)) (i j : nat)
  (t : list (list T)) : Prop :=
  length t = c
  /\ forall j', (j' < c)%nat ->
       exists trow, t !! j' = Some trow /\ length trow = r
         /\ forall i', (i' < r)%nat ->
              (i' < i)%nat \/ (i' = i /\ (j' < j)%nat) ->
              trow !! i' = entry M i' j'.

(** A ciphertext with [N] slots, at level [l], scale [s] and size [z]. *)
Definition uniform (N l : nat) (s : Qc) (z : nat) (c : Ciphertext) : Prop :=
  length (ct_slots c) = N /\ ct_level c = l /\ ct_scale c = s /\ ct_size c = z.

(** Slot [j] of entry [k] of a vector of ciphertexts. *)
Definition slot_of (cs : list Ciphertext) (k j : nat) : Qc :=
  slot (ct_slots (default Ciphertext0 (cs !! k))) j.

(** An operand of the linear transformation: well formed, at the first
    level, with nothing beyond its first [n] slots. *)
Definition operand (context : SEALContext) (n : nat) (c : Ciphertext) : Prop :=
  well_formed context c /\ ct_level c = first_level context
  /\ zero_beyond n (ct_slots c).

(** ** [Tree_sigmoid_approx] *)

(** The body of the first loop: a zero coefficient is skipped and its
    plaintext stays a default-constructed one. *)
Definition tree_encode_body (context : SEALContext) (coeffs : list Qc)
  (scale : Qc) (i : Z) (plain_coeffs : list Plaintext) : result (list Plaintext) :=
  c ← vec_get coeffs i;
  if bool_decide (c = 0%Qc) then OK plain_coeffs
  else vec_set plain_coeffs i (encode_value context c scale).

(** One round of the summation loop on [(enc_result, plain_coeffs)]. *)
Definition tree_sum_body (powers : list Ciphertext) (i : Z)
  (st : Ciphertext * list Plaintext) : result (Ciphertext * list Plaintext) :=
  let '(enc_result, plain_coeffs) := st in
  power ← vec_get powers i;
  coeff ← vec_get plain_coeffs i;
  coeff ← mod_switch_to_plain coeff (ct_level power);
  plain_coeffs ← vec_set plain_coeffs i coeff;
  temp ← multiply_plain power coeff;
  temp ← rescale_to_next temp;
  enc_result ← mod_switch_to enc_result (ct_level temp);
  (* Manual Rescale *)
  let enc_result :=
    assign_scale enc_result (pow2 (trunc_log2 (ct_scale enc_result))) in
  let temp := assign_scale temp (pow2 (trunc_log2 (ct_scale enc_result))) in
  enc_result ← add enc_result temp;
  OK (enc_result, plain_coeffs).

Definition Tree_sigmoid_approx (context : SEALContext) (ctx : Ciphertext)
  (degree : Z) (scale : Qc) (coeffs : list Qc) : result Ciphertext :=
  plain_coeffs ← vec_make (degree + 1) Plaintext0;
  plain_coeffs ←
    for_range 0 degree (tree_encode_body context coeffs scale) plain_coeffs;
  expected_result ← vec_get coeffs degree;
  (* Compute all powers *)
  powers ← vec_make (degree + 1) Ciphertext0;
  '(powers, _) ← compute_all_powers ctx degree powers;
  first ← vec_get plain_coeffs 0;
  let enc_result := encrypt first in
  '(enc_result, _) ←
    for_range 1 degree (tree_sum_body powers) (enc_result, plain_coeffs);
  OK enc_result.

(** ** Matrix by vector through the diagonals *)

(** The body of the loop of [Linear_Transform_Cipher]. *)
Definition lt_body (context : SEALContext) (ct_new : Ciphertext)
  (U_diagonals : list Ciphertext) (l : Z) (ct_result : list Ciphertext)
  : result (list Ciphertext) :=
  temp_rot ← rotate_vector context ct_new l;
  d ← vec_get U_diagonals l;
  r ← multiply temp_rot d;
  vec_set ct_result l r.

(** [Linear_Transform_Cipher]; [-U_diagonals.size()] is negated as a
    [size_t] and converted to the [int] that [rotate_vector] takes. *)
Definition Linear_Transform_Cipher (context : SEALContext) (ct : Ciphertext)
  (U_diagonals : list Ciphertext) : result Ciphertext :=
  (* Fill ct with duplicate *)
  ct_rot ← rotate_vector context ct (int_of (size_t_of (- vec_size U_diagonals)));
  ct_new ← add ct ct_rot;
  let ct_result := replicate (length U_diagonals) Ciphertext0 in
  d0 ← vec_get U_diagonals 0;
  r0 ← multiply ct_new d0;
  ct_result ← vec_set ct_result 0 r0;
  ct_result ←
    for_range 1 (vec_size U_diagonals - 1) (lt_body context ct_new U_diagonals)
      ct_result;
  add_many ct_result.

(** The body of the loop of [Linear_Transform_CipherMatrix_PlainVector]. *)
Definition lt_plain_body (pt_rotations : list Plaintext)
  (U_diagonals : list Ciphertext) (i : Z) (ct_result : list Ciphertext)
  : result (list Ciphertext) :=
  d ← vec_get U_diagonals i;
  p ← vec_get pt_rotations i;
  r ← multiply_plain d p;
  vec_set ct_result i r.

Definition Linear_Transform_CipherMatrix_PlainVector
  (pt_rotations : list Plaintext) (U_diagonals : list Ciphertext)
  : result Ciphertext :=
  ct_result ←
    for_range 0 (vec_size pt_rotations - 1)
      (lt_plain_body pt_rotations U_diagonals)
      (replicate (length pt_rotations) Ciphertext0);
  add_many ct_result.

(** A plaintext with [N] slots, at level [l] and scale [s]. *)
Definition uniform_plain (N l : nat) (s : Qc) (p : Plaintext) : Prop :=
  length (pt_slots p) = N /\ pt_level p = l /\ pt_scale p = s.

(** Slot [j] of entry [k] of a vector of plaintexts. *)
Definition plain_slot_of (ps : list Plaintext) (k j : nat) : Qc :=
  slot (pt_slots (default Plaintext0 (ps !! k))) j.

(** Entry [(i, j)] of a matrix of numbers, 0 outside it. *)
Definition mat (M : list (list Qc)) (i j : nat) : Qc :=
  slot (default [] (M !! i)) j.

(** Entry [i] of the product of an [n] x [n] matrix with a vector. *)
Definition mat_vec (M : list (list Qc)) (v : list Qc) (n i : nat) : Qc :=
  Qc_sum (fun j => mat M i j * slot v j)%Qc n.

(** ** A matrix of ciphertexts packed into one: [C_Matrix_Encode], [C_Matrix_Decode] *)

(** The body of the loop of [C_Matrix_Encode]. *)
Definition encode_rot_body (context : SEALContext) (matrix : list Ciphertext)
  (dimension : Z) (i : Z) (ct_rots : list Ciphertext) : result (list Ciphertext) :=
  m ← vec_get matrix i;
  r ← rotate_vector context m (i * - dimension);
  vec_set ct_rots i r.

Definition C_Matrix_Encode (context : SEALContext) (matrix : list Ciphertext)
  : result Ciphertext :=
  let dimension := int_of (vec_size matrix) in
  ct_rots ← vec_make dimension Ciphertext0;
  m0 ← vec_get matrix 0;
  ct_rots ← vec_set ct_rots 0 m0;
  ct_rots ←
    for_range 1 (dimension - 1) (encode_rot_body context matrix dimension) ct_rots;
  add_many ct_rots.

(** The mask of row [i]: [dimension^2] entries, the ones at
    [j + i * dimension]. *)
Definition decode_mask (dimension i : Z) : result (list Qc) :=
  for_range 0 (dimension - 1)
    (fun j mask_vec => vec_set mask_vec (j + i * dimension) 1%Qc)
    (replicate (Z.to_nat (dimension * dimension)) 0%Qc).

(** The body of the loop of [C_Matrix_Decode]. *)
Definition decode_body (context : SEALContext) (matrix : Ciphertext)
  (dimension : Z) (scale : Qc) (i : Z) (ct_result : list Ciphertext)
  : result (list Ciphertext) :=
  mask_vec ← decode_mask dimension i;
  mask_pt ← encode context mask_vec scale;
  (* multiply matrix with mask *)
  ct_row ← multiply_plain matrix mask_pt;
  (* rotate row (not the first one) *)
  ct_row ←
    (if bool_decide (i <> 0) then rotate_vector context ct_row (i * dimension)
     else OK ct_row);
  vec_set ct_result i ct_row.

Definition C_Matrix_Decode (context : SEALContext) (matrix : Ciphertext)
  (dimension : Z) (scale : Qc) : result (list Ciphertext) :=
  ct_result ← vec_make dimension Ciphertext0;
  for_range 0 (dimension - 1) (decode_body context matrix dimension scale)
    ct_result.

(** ** [sigmoid_approx_three] *)

(** The expected value that [main] prints beside the decrypted one; the
    [double]s are taken as exact rationals. *)
Definition sigmoid_approx_three (x : Qc) : result Qc :=
  let eighth := (x / Qc_of 8 1)%Qc in
  if bool_decide (DEGREE = 3) then
    OK (Qc_of 5 10 + Qc_of 120096 100000 * eighth
        - Qc_of 81562 100000 * eighth ^ 3)%Qc
  else if bool_decide (DEGREE = 5) then
    OK (Qc_of 5 10 + Qc_of 153048 100000 * eighth
        - Qc_of 23533056 10000000 * eighth ^ 3
        + Qc_of 13511295 10000000 * eighth ^ 5)%Qc
  else if bool_decide (DEGREE = 7) then
    OK (Qc_of 5 10 + Qc_of 173496 100000 * eighth
        - Qc_of 419407 100000 * eighth ^ 3
        + Qc_of 543402 100000 * eighth ^ 5
        - Qc_of 250739 100000 * eighth ^ 3)%Qc
  else Fail ProcessExit.

(** ** [pad_zero] *)

(** [pad_zero]; the third loop starts at [offset + U_vec.size()] converted
    to [int] and compares [i < result_vec.size()] as [size_t], so it does
    not run from a negative start. *)
Definition pad_zero (offset : Z) (U_vec : list Qc) : result (list Qc) :=
  let result_vec :=
    replicate (Z.to_nat (vec_size U_vec * vec_size U_vec)) 0%Qc in
  (* Fill before U_vec *)
  result_vec ←
    for_range 0 (offset - 1) (fun i result_vec => vec_set result_vec i 0%Qc)
      result_vec;
  (* Fill U_vec *)
  result_vec ←
    for_range 0 (vec_size U_vec - 1)
      (fun i result_vec => x ← vec_get U_vec i; vec_set result_vec (i + offset) x)
      result_vec;
  (* Fill after U_vec *)
  let start := int_of (size_t_of (offset + vec_size U_vec)) in
  if start <? 0 then OK result_vec
  else
    for_range start (vec_size result_vec - 1)
      (fun i result_vec => vec_set result_vec i 0%Qc) result_vec.

(** ** [get_matrix_of_ones] and [get_U_transpose] *)

(** The body of the inner loop of [get_matrix_of_ones]: the entry is
    compared with the entry [k] of the diagonal by [==]. *)
Definition ones_body {T : Type} `{EqDecision T} (U : list (list T))
  (U_diag : list T) (i k j : Z) (diagonal_of_ones : list (list Qc))
  : result (list (list Qc)) :=
  row ← vec_get U i;
  x ← vec_get row j;
  d ← vec_get U_diag k;
  orow ← vec_get diagonal_of_ones i;
  orow ← vec_set orow j (if decide (x = d) then 1%Qc else 0%Qc);
  vec_set diagonal_of_ones i orow.

(** One round of the outer loop on [(diagonal_of_ones, k)]. *)
Definition ones_row {T : Type} `{EqDecision T} (U : list (list T))
  (U_diag : list T) (i : Z) (st : list (list Qc) * Z)
  : result (list (list Qc) * Z) :=
  let '(diagonal_of_ones, k) := st in
  diagonal_of_ones ←
    for_range 0 (vec_size U - 1) (ones_body U U_diag i k) diagonal_of_ones;
  OK (diagonal_of_ones, k + 1).

Definition get_matrix_of_ones {T : Type} `{EqDecision T} (T0 : T)
  (position : Z) (U : list (list T)) : result (list (list Qc)) :=
  let diagonal_of_ones := replicate (length U) (replicate (length U) 0%Qc) in
  U_diag ← get_diagonal T0 position U;
  '(diagonal_of_ones, _) ←
    for_range 0 (vec_size U - 1) (ones_row U U_diag) (diagonal_of_ones, 0);
  OK diagonal_of_ones.

(** What [diagonal_of_ones] holds when the loops are at row [i], column
    [j]: [ind i' j'] in the entries already written. *)
Definition ones_upto (n : nat) (ind : nat -> nat -> Qc) (i j : nat)
  (t : list (list Qc)) : Prop :=
  length t = n
  /\ forall i', (i' < n)%nat ->
       exists orow, t !! i' = Some orow /\ length orow = n
         /\ forall j', (j' < n)%nat ->
              (i' < i)%nat \/ (i' = i /\ (j' < j)%nat) ->
              orow !! j' = Some (ind i' j').

(** One round of the inner loop of [get_U_transpose] on
    [(U_transpose, tranposed_row)]; only row 0 of [one_matrix] is used. *)
Definition transpose_fill (one_matrix : list (list Qc)) (dimension : Z)
  (offset : Z) (st : list (list Qc) * Z) : result (list (list Qc) * Z) :=
  let '(U_transpose, tranposed_row) := st in
  first ← vec_get one_matrix 0;
  temp_fill ← pad_zero (offset * dimension) first;
  U_transpose ← vec_set U_transpose tranposed_row temp_fill;
  OK (U_transpose, tranposed_row + 1).

(** One round of the outer loop of [get_U_transpose]; the matrix of ones
    is printed, which the model leaves out. *)
Definition transpose_block {T : Type} `{EqDecision T} (T0 : T)
  (U : list (list T)) (dimension : Z) (i : Z) (st : list (list Qc) * Z)
  : result (list (list Qc) * Z) :=
  (* Get matrix of ones at position k *)
  one_matrix ← get_matrix_of_ones T0 i U;
  (* Loop over matrix of ones *)
  for_range 0 (dimension - 1) (transpose_fill one_matrix dimension) st.

Definition get_U_transpose {T : Type} `{EqDecision T} (T0 : T)
  (U : list (list T)) : result (list (list Qc)) :=
  let dimension := int_of (vec_size U) in
  let dimensionSq := dimension * dimension in
  row ← vec_make dimensionSq 0%Qc;
  U_transpose ← vec_make dimensionSq row;
  '(U_transpose, _) ←
    for_range 0 (dimension - 1) (transpose_block T0 U dimension) (U_transpose, 0);
  OK U_transpose.

(** What [U_transpose] holds when the loops of [get_U_transpose] are at
    the matrix of ones [i] and the offset [k]: the rows written so far are
    rows of the permutation matrix of the transposition. *)
Definition transpose_upto (n i k : nat) (st : list (list Qc) * Z) : Prop :=
  snd st = Z.of_nat (i * n + k)
  /\ length (fst st) = (n * n)%nat
  /\ forall a b, (b < n)%nat -> (a < i)%nat \/ (a = i /\ (b < k)%nat) ->
       exists row, fst st !! (a * n + b)%nat = Some row
         /\ length row = (n * n)%nat
         /\ forall c, (c < n * n)%nat ->
              row !! c = Some (if decide (c = b * n + a)%nat then 1%Qc else 0%Qc).

(** ** More concrete inputs *)

Definition matrix2x3 : list (list Z) := [[1; 2; 3]; [4; 5; 6]].
Definition matrix2 : list (list Z) := [[1; 2]; [3; 4]].

(** Two observations of two features. *)
Definition rows2x2 : list Ciphertext :=
  [fresh context8 (ints [1; 2]); fresh context8 (ints [3; 4])].

(** The matrix [[1, 2], [3, 4]] with its two diagonals encrypted, and the
    vector [5, 6], encrypted and as the plaintexts of its two rotations. *)
Definition matrix2q : list (list Qc) := [ints [1; 2]; ints [3; 4]].
Definition diagonals2 : list Ciphertext :=
  [fresh context8 (ints [1; 4]); fresh context8 (ints [2; 3])].
Definition vector56 : Ciphertext := fresh context8 (ints [5; 6]).
Definition rotations2 : list Plaintext :=
  [decrypt (fresh context8 (ints [5; 6])); decrypt (fresh context8 (ints [6; 5]))].

(** An input of the sigmoid with two levels left. *)
Definition low_input : Ciphertext :=
  {| ct_slots := replicate 8 (Qc_of 1 10); ct_level := 2;
     ct_scale := base_scale; ct_size := 2 |}.

(** The vector [1, 2]. *)
Definition vector12 : list Qc := ints [1; 2].

(** * Properties *)

(** ** The result monad *)

Lemma bind_OK {A B : Type} (a : A) (f : A -> result B) : (OK a ≫= f) = f a.
Proof. reflexivity. Qed.

Lemma bind_Fail {A B : Type} (e : failure) (f : A -> result B) :
  (Fail e ≫= f) = Fail e.
Proof. reflexivity. Qed.

(** ** Vectors *)

Lemma vec_get_lookup {A : Type} (v : list A) (i : nat) (x : A) :
  v !! i = Some x -> vec_get v (Z.of_nat i) = OK x.
Proof.
  intros H. unfold vec_get.
  rewrite bool_decide_eq_true_2 by lia.
  rewrite Nat2Z.id, H. reflexivity.
Qed.

Lemma vec_set_insert {A : Type} (v : list A) (i : nat) (x : A) :
  (i < length v)%nat -> vec_set v (Z.of_nat i) x = OK (<[i := x]> v).
Proof.
  intros H. unfold vec_set.
  rewrite bool_decide_eq_true_2 by lia.
  rewrite Nat2Z.id. reflexivity.
Qed.

Lemma vec_set_run {A : Type} (v : list A) (i : Z) (x : A) :
  0 <= i < Z.of_nat (length v) -> vec_set v i x = OK (<[Z.to_nat i := x]> v).
Proof. intros H. unfold vec_set. rewrite bool_decide_eq_true_2 by lia. reflexivity. Qed.

Lemma vec_get_run {A : Type} (v : list A) (i : Z) (x : A) :
  0 <= i -> v !! Z.to_nat i = Some x -> vec_get v i = OK x.
Proof.
  intros Hi H. unfold vec_get. rewrite bool_decide_eq_true_2 by lia.
  rewrite H. reflexivity.
Qed.

(** ** [get_diagonal] *)

Section DiagonalFacts.
Context {T : Type}.
Implicit Types (U : list (list T)) (d : list T).

Lemma entry_square n U (i j : nat) :
  square n U -> (i < n)%nat -> (j < n)%nat ->
  exists row x, U !! i = Some row /\ row !! j = Some x /\ entry U i j = Some x.
Proof.
  intros [Hlen Hrows] Hi Hj.
  destruct (lookup_lt_is_Some_2 U i) as [row Hrow]; [lia|].
  assert (length row = n) as Hr.
  { rewrite Forall_forall in Hrows. apply Hrows.
    apply list_elem_of_In. eapply list_elem_of_lookup_2; eauto. }
  destruct (lookup_lt_is_Some_2 row j) as [x Hx]; [lia|].
  exists row, x. unfold entry. rewrite Hrow. simpl. auto.
Qed.

(** [m] rounds of the copying loop, started at row [a], column [b] and
    position [c] of the diagonal. *)
Lemma copy_loop_rounds (cond : Z -> Z -> bool) n U (m : nat) :
  square n U ->
  forall (fuel a b c : nat) d,
    (m < fuel)%nat ->
    (forall t : nat, (t < m)%nat ->
       cond (Z.of_nat (a + t)) (Z.of_nat (b + t)) = true) ->
    cond (Z.of_nat (a + m)) (Z.of_nat (b + m)) = false ->
    (a + m <= n)%nat -> (b + m <= n)%nat -> (c + m <= length d)%nat ->
    exists d',
      copy_loop cond fuel U (Z.of_nat a) (Z.of_nat b) (Z.of_nat c) d
        = OK (d', Z.of_nat (c + m))
      /\ length d' = length d
      /\ (forall t : nat, (t < m)%nat -> d' !! (c + t)%nat = entry U (a + t) (b + t))
      /\ (forall x : nat, (x < c \/ c + m <= x)%nat -> d' !! x = d !! x).
Proof.
  intros Hsq. induction m as [|m IH]; intros fuel a b c d Hfuel Htrue Hfalse Ha Hb Hc.
  - destruct fuel as [|fuel]; [lia|]. simpl.
    rewrite !Nat.add_0_r in Hfalse. rewrite Hfalse.
    exists d. rewrite Nat.add_0_r. repeat split; auto. intros t Ht; lia.
  - destruct fuel as [|fuel]; [lia|]. simpl.
    pose proof (Htrue 0%nat ltac:(lia)) as H0. rewrite !Nat.add_0_r in H0.
    rewrite H0.
    destruct (entry_square n U a b Hsq) as (row & x & Hrow & Hx & Hent); [lia..|].
    rewrite (vec_get_lookup _ _ _ Hrow). cbn.
    rewrite (vec_get_lookup _ _ _ Hx). cbn.
    rewrite vec_set_insert by lia. cbn.
    replace (Z.of_nat a + 1) with (Z.of_nat (S a)) by lia.
    replace (Z.of_nat b + 1) with (Z.of_nat (S b)) by lia.
    replace (Z.of_nat c + 1) with (Z.of_nat (S c)) by lia.
    destruct (IH fuel (S a) (S b) (S c) (<[c := x]> d)) as (d' & Hrun & Hlen & Hin & Hout).
    + lia.
    + intros t Ht. replace (S a + t)%nat with (a + S t)%nat by lia.
      replace (S b + t)%nat with (b + S t)%nat by lia. apply Htrue. lia.
    + replace (S a + m)%nat with (a + S m)%nat by lia.
      replace (S b + m)%nat with (b + S m)%nat by lia. exact Hfalse.
    + lia.
    + lia.
    + rewrite length_insert. lia.
    + exists d'. rewrite Hrun. replace (S c + m)%nat with (c + S m)%nat by lia.
      split; [reflexivity|]. split; [rewrite Hlen; apply length_insert|]. split.
      * intros [|t] Ht.
        -- rewrite !Nat.add_0_r. rewrite Hout by lia.
           rewrite list_lookup_insert_eq by lia. symmetry. exact Hent.
        -- replace (c + S t)%nat with (S c + t)%nat by lia.
           replace (a + S t)%nat with (S a + t)%nat by lia.
           replace (b + S t)%nat with (S b + t)%nat by lia.
           apply Hin. lia.
      * intros y Hy. rewrite Hout by lia. apply list_lookup_insert_ne. lia.
Qed.

Lemma size_t_of_small (z : Z) : 0 <= z <= INT_MAX -> size_t_of z = z.
Proof. unfold size_t_of, INT_MAX. intros H. apply Z.mod_small. lia. Qed.

Lemma int_of_small (z : Z) : 0 <= z <= INT_MAX -> int_of z = z.
Proof.
  unfold int_of, INT_MAX. intros H. rewrite Z.mod_small; lia.
Qed.

(** C8: for an [n] x [n] matrix [M] and an offset [0 <= p < n],
    [get_diagonal p M] returns a vector of length [n] whose entry [i] is
    [M[i][(i + p) mod n]], for every [i < n].  ([n] fits an [int], as the
    size of any matrix that fits memory does.) *)
Theorem get_diagonal_entries (T0 : T) (n : nat) (p : Z) (M : list (list T)) :
  square n M -> Z.of_nat n <= INT_MAX -> 0 <= p < Z.of_nat n ->
  exists d,
    get_diagonal T0 p M = OK d
    /\ length d = n
    /\ forall i : nat, (i < n)%nat ->
         is_Some (d !! i)
         /\ d !! i = entry M i (Z.to_nat ((Z.of_nat i + p) mod Z.of_nat n)).
Proof.
  intros Hsq Hn Hp. pose proof Hsq as [Hlen _].
  assert (exists q : nat, p = Z.of_nat q) as [q ->]
    by (exists (Z.to_nat p); lia).
  unfold get_diagonal, vec_size. rewrite Hlen.
  rewrite (size_t_of_small (Z.of_nat q)) by lia.
  rewrite (size_t_of_small (Z.of_nat n - Z.of_nat q)) by lia.
  rewrite (int_of_small (Z.of_nat n - Z.of_nat q)) by lia.
  destruct (copy_loop_rounds
              (fun i j => (size_t_of i <? Z.of_nat n - Z.of_nat q)
                          && (size_t_of j <? Z.of_nat n))
              n M (n - q)%nat Hsq (S n) 0%nat q 0%nat (replicate n T0))
    as (d1 & Hrun1 & Hlen1 & Hin1 & Hout1).
  - lia.
  - intros t Ht. rewrite !size_t_of_small by lia.
    apply andb_true_intro. split; apply Z.ltb_lt; lia.
  - rewrite !size_t_of_small by lia.
    apply andb_false_intro1. apply Z.ltb_ge. lia.
  - lia.
  - lia.
  - rewrite length_replicate. lia.
  - change 0 with (Z.of_nat 0). rewrite Hrun1, bind_OK.
    replace (Z.of_nat n - Z.of_nat q) with (Z.of_nat (n - q)) by lia.
    destruct (copy_loop_rounds
                (fun i j => (size_t_of i <? Z.of_nat n) && (j <? Z.of_nat q))
                n M q Hsq (S n) (n - q)%nat 0%nat (n - q)%nat d1)
      as (d2 & Hrun2 & Hlen2 & Hin2 & Hout2).
    + lia.
    + intros t Ht. rewrite !size_t_of_small by lia.
      apply andb_true_intro. split; apply Z.ltb_lt; lia.
    + apply andb_false_intro2. apply Z.ltb_ge. lia.
    + lia.
    + lia.
    + rewrite Hlen1, length_replicate. lia.
    + change (0 + (n - q))%nat with (n - q)%nat.
      change (Z.of_nat 0) with 0 in *.
      rewrite Hrun2, bind_OK. exists d2.
      assert (length d2 = n) as Hl2 by (rewrite Hlen2, Hlen1; apply length_replicate).
      split; [reflexivity|]. split; [exact Hl2|].
      intros i Hi. split; [apply lookup_lt_is_Some_2; lia|].
      destruct (decide (i < n - q)%nat) as [Hlt|Hge].
      * rewrite Hout2 by lia.
        specialize (Hin1 i Hlt). simpl in Hin1. rewrite Hin1.
        f_equal. rewrite Z.mod_small by lia. lia.
      * specialize (Hin2 (i - (n - q))%nat ltac:(lia)).
        replace (n - q + (i - (n - q)))%nat with i in Hin2 by lia.
        rewrite Hin2. f_equal.
        replace (Z.of_nat i + Z.of_nat q)
          with (Z.of_nat (i - (n - q)) + 1 * Z.of_nat n) by lia.
        rewrite Z.mod_add by lia. rewrite Z.mod_small by lia. lia.
Qed.

End DiagonalFacts.

(** ** Loops *)

Lemma foldM_cons {A St : Type} (f : A -> St -> result St) x l s :
  foldM f (x :: l) s = (s' ← f x s; foldM f l s').
Proof. reflexivity. Qed.

Lemma foldM_app {A St : Type} (f : A -> St -> result St) (l1 l2 : list A) (s : St) :
  foldM f (l1 ++ l2) s = (s' ← foldM f l1 s; foldM f l2 s').
Proof.
  revert s. induction l1 as [|x l1 IH]; intros s; simpl; [reflexivity|].
  destruct (f x s) as [s'|e]; simpl; [apply IH | reflexivity].
Qed.

Lemma for_range_empty {St : Type} lo hi (body : Z -> St -> result St) s :
  hi < lo -> for_range lo hi body s = OK s.
Proof. intros H. unfold for_range. rewrite seqZ_nil by lia. reflexivity. Qed.

Lemma for_range_snoc {St : Type} lo hi (body : Z -> St -> result St) s :
  lo <= hi ->
  for_range lo hi body s = (s' ← for_range lo (hi - 1) body s; body hi s').
Proof.
  intros H. unfold for_range.
  replace (hi - lo + 1) with (Z.of_nat (S (Z.to_nat (hi - lo)))) by lia.
  rewrite seqZ_S, foldM_app.
  replace (hi - 1 - lo + 1) with (Z.of_nat (Z.to_nat (hi - lo))) by lia.
  destruct (foldM body (seqZ lo (Z.of_nat (Z.to_nat (hi - lo)))) s) as [s'|e];
    [|reflexivity].
  rewrite !bind_OK. simpl. replace (lo + Z.of_nat (Z.to_nat (hi - lo))) with hi by lia.
  destruct (body hi s'); reflexivity.
Qed.

Lemma for_range_cons {St : Type} lo hi (body : Z -> St -> result St) s :
  lo <= hi ->
  for_range lo hi body s = (s' ← body lo s; for_range (lo + 1) hi body s').
Proof.
  intros H. unfold for_range. rewrite seqZ_cons by lia. simpl.
  replace (Z.pred (hi - lo + 1)) with (hi - (lo + 1) + 1) by lia.
  replace (Z.succ lo) with (lo + 1) by lia. reflexivity.
Qed.

(** ** The power tree *)

Lemma log2_up_half (i : Z) :
  2 <= i -> Z.log2_up (i - i / 2) + 1 = Z.log2_up i.
Proof.
  intros Hi. symmetry.
  pose proof (Z.div_mod i 2 ltac:(lia)) as Hdm.
  pose proof (Z.mod_pos_bound i 2 ltac:(lia)) as Hmod.
  set (h := i - i / 2) in *.
  destruct (decide (h = 1)) as [Hh|Hh].
  - assert (i = 2) as -> by lia. rewrite Hh. reflexivity.
  - assert (1 < h) as Hh1 by lia.
    pose proof (Z.log2_up_spec h Hh1) as [Hlo Hup].
    pose proof (Z.log2_up_pos h Hh1) as Hpos.
    apply Z.log2_up_unique; [lia|].
    set (e := Z.pred (Z.log2_up h)) in *.
    replace (Z.log2_up h) with (e + 1) in * by lia.
    replace (Z.pred (e + 1 + 1)) with (e + 1) by lia.
    rewrite !Z.pow_add_r in * by lia. change (2 ^ 1) with 2 in *.
    lia.
Qed.

Lemma levels_ok_get t levels (j : Z) :
  levels_ok t levels -> 0 <= j <= t -> j < Z.of_nat (length levels) ->
  vec_get levels j = OK (Z.log2_up j).
Proof.
  intros Hok Hj Hlen.
  replace j with (Z.of_nat (Z.to_nat j)) by lia.
  apply vec_get_lookup. apply Hok; lia.
Qed.

Lemma split_search_unfold levels i :
  split_search levels i = for_range 1 (Z.quot i 2) (split_body levels i) (i, -1).
Proof.
  unfold split_search, for_range. f_equal.
Qed.

Lemma split_body_run levels i j minlevel cand :
  levels_ok (i - 1) levels -> i < Z.of_nat (length levels) ->
  1 <= j -> j <= i / 2 ->
  split_body levels i j (minlevel, cand)
  = if Z.log2_up (i - j) + 1 <? minlevel
    then OK (Z.log2_up (i - j) + 1, j) else OK (minlevel, cand).
Proof.
  intros Hok Hlen Hj1 Hj2.
  pose proof (Z.div_mod i 2 ltac:(lia)) as Hdm.
  pose proof (Z.mod_pos_bound i 2 ltac:(lia)) as Hmod.
  unfold split_body.
  rewrite (levels_ok_get (i - 1) levels j) by (auto; lia). rewrite bind_OK.
  rewrite (levels_ok_get (i - 1) levels (i - j)) by (auto; lia). rewrite bind_OK.
  pose proof (Z.log2_up_le_mono j (i - j) ltac:(lia)).
  rewrite Z.max_r by lia. reflexivity.
Qed.

Lemma split_search_prefix levels i :
  levels_ok (i - 1) levels -> i < Z.of_nat (length levels) -> 2 <= i ->
  forall s : nat, Z.of_nat (S s) <= i / 2 ->
    exists cand,
      for_range 1 (Z.of_nat (S s)) (split_body levels i) (i, -1)
        = OK (Z.log2_up (i - Z.of_nat (S s)) + 1, cand)
      /\ 1 <= cand <= Z.of_nat (S s)
      /\ Z.log2_up (i - cand) = Z.log2_up (i - Z.of_nat (S s))
      /\ forall j, 1 <= j < cand ->
           Z.log2_up (i - Z.of_nat (S s)) < Z.log2_up (i - j).
Proof.
  intros Hok Hlen Hi. induction s as [|s IH]; intros Hs.
  - rewrite for_range_snoc by lia. rewrite for_range_empty by lia. rewrite bind_OK.
    rewrite split_body_run by (auto; lia).
    pose proof (Z.log2_up_lt_lin (i - 1) ltac:(lia)).
    change (Z.of_nat 1) with 1.
    destruct (Z.ltb_spec (Z.log2_up (i - 1) + 1) i); [|lia].
    exists 1. split; [reflexivity|]. split; [lia|]. split; [reflexivity|].
    intros j Hj. lia.
  - destruct IH as (cand & Hrun & Hc & Heq & Hfirst); [lia|].
    rewrite for_range_snoc by lia.
    replace (Z.of_nat (S (S s)) - 1) with (Z.of_nat (S s)) by lia.
    rewrite Hrun, bind_OK.
    rewrite split_body_run by (auto; lia).
    pose proof (Z.log2_up_le_mono (i - Z.of_nat (S (S s))) (i - Z.of_nat (S s))
                  ltac:(lia)).
    destruct (Z.ltb_spec (Z.log2_up (i - Z.of_nat (S (S s))) + 1)
                (Z.log2_up (i - Z.of_nat (S s)) + 1)).
    + exists (Z.of_nat (S (S s))). split; [reflexivity|]. split; [lia|].
      split; [reflexivity|]. intros j Hj.
      pose proof (Z.log2_up_le_mono (i - Z.of_nat (S s)) (i - j) ltac:(lia)). lia.
    + exists cand. split; [f_equal; f_equal; lia|]. split; [lia|].
      split; [lia|]. intros j Hj. specialize (Hfirst j Hj). lia.
Qed.

(** The split search at [i], on levels that are right below [i]: the level
    found is [ceil(log2 i)], the candidate the first [j] that reaches it. *)
Lemma split_search_found levels i :
  levels_ok (i - 1) levels -> i < Z.of_nat (length levels) -> 2 <= i ->
  exists cand,
    split_search levels i = OK (Z.log2_up i, cand) /\ 1 <= cand <= i / 2
    /\ Z.max (Z.log2_up cand) (Z.log2_up (i - cand)) + 1 = Z.log2_up i
    /\ forall j, 1 <= j < cand ->
         Z.log2_up i < Z.max (Z.log2_up j) (Z.log2_up (i - j)) + 1.
Proof.
  intros Hok Hlen Hi.
  pose proof (Z.div_mod i 2 ltac:(lia)) as Hdm.
  pose proof (Z.mod_pos_bound i 2 ltac:(lia)) as Hmod.
  rewrite split_search_unfold, Z.quot_div_nonneg by lia.
  destruct (split_search_prefix levels i Hok Hlen Hi (Z.to_nat (i / 2) - 1))
    as (cand & Hrun & Hc & Heq & Hfirst); [lia|].
  replace (Z.of_nat (S (Z.to_nat (i / 2) - 1))) with (i / 2) in * by lia.
  pose proof (log2_up_half i Hi) as Hhalf.
  exists cand. rewrite Hrun, Hhalf. split; [reflexivity|]. split; [lia|]. split.
  - pose proof (Z.log2_up_le_mono cand (i - cand) ltac:(lia)).
    rewrite Z.max_r by lia. lia.
  - intros j Hj. specialize (Hfirst j Hj).
    pose proof (Z.log2_up_le_mono j (i - j) ltac:(lia)).
    rewrite Z.max_r by lia. lia.
Qed.

Lemma level_step_run levels i :
  levels_ok (i - 1) levels -> i < Z.of_nat (length levels) -> 2 <= i ->
  level_step i levels = OK (<[Z.to_nat i := Z.log2_up i]> levels).
Proof.
  intros Hok Hlen Hi. unfold level_step.
  destruct (split_search_found levels i Hok Hlen Hi) as (cand & -> & Hc & _).
  rewrite bind_OK.
  rewrite vec_set_run by lia. rewrite bind_OK.
  destruct (Z.ltb_spec cand 0); [lia | reflexivity].
Qed.

Lemma levels_ok_insert levels i :
  levels_ok (i - 1) levels -> 0 <= i ->
  levels_ok i (<[Z.to_nat i := Z.log2_up i]> levels).
Proof.
  intros Hok Hi k Hk Hlen. rewrite length_insert in Hlen.
  destruct (decide (k = Z.to_nat i)) as [->|Hne].
  - rewrite list_lookup_insert_eq by lia. f_equal. f_equal. lia.
  - rewrite list_lookup_insert_ne by lia. apply Hok; lia.
Qed.

Lemma init_levels_run (d : Z) :
  1 <= d ->
  exists levels, init_levels d = OK levels
    /\ length levels = Z.to_nat (d + 1) /\ levels_ok 1 levels.
Proof.
  intros Hd. unfold init_levels.
  rewrite vec_set_run by (rewrite length_replicate; lia).
  rewrite bind_OK.
  rewrite vec_set_run by (rewrite length_insert, length_replicate; lia).
  change (Z.to_nat 1) with 1%nat. change (Z.to_nat 0) with 0%nat.
  eexists. split; [reflexivity|]. split.
  - rewrite !length_insert, length_replicate. reflexivity.
  - intros k Hk Hlen. rewrite !length_insert, length_replicate in Hlen.
    destruct k as [|[|k]]; [| |lia].
    + rewrite list_lookup_insert_eq
        by (rewrite length_insert, length_replicate; lia). reflexivity.
    + rewrite list_lookup_insert_ne by lia.
      rewrite list_lookup_insert_eq by (rewrite length_replicate; lia). reflexivity.
Qed.

(** The levels after the rounds [2..t] of the dynamic program. *)
Lemma power_levels_prefix (d : Z) (levels0 : list Z) :
  init_levels d = OK levels0 -> 1 <= d ->
  forall t : nat, 1 <= Z.of_nat t <= d ->
    exists levels,
      for_range 2 (Z.of_nat t) level_step levels0 = OK levels
      /\ length levels = Z.to_nat (d + 1) /\ levels_ok (Z.of_nat t) levels.
Proof.
  intros Hinit Hd.
  destruct (init_levels_run d Hd) as (l0 & Hinit' & Hlen0 & Hok0).
  rewrite Hinit in Hinit'. injection Hinit' as <-.
  induction t as [|t IH]; intros Ht; [lia|].
  destruct (decide (t = 0%nat)) as [->|Hne].
  - exists levels0. rewrite for_range_empty by lia. auto.
  - destruct IH as (levels & Hrun & Hlen & Hok); [lia|].
    rewrite for_range_snoc by lia.
    replace (Z.of_nat (S t) - 1) with (Z.of_nat t) by lia.
    rewrite Hrun, bind_OK.
    rewrite level_step_run; [| |lia|lia].
    + eexists. split; [reflexivity|]. split; [rewrite length_insert; exact Hlen|].
      apply levels_ok_insert; [|lia].
      replace (Z.of_nat (S t) - 1) with (Z.of_nat t) by lia. exact Hok.
    + replace (Z.of_nat (S t) - 1) with (Z.of_nat t) by lia. exact Hok.
Qed.


(** *** The dynamic program inside [compute_all_powers] *)

Lemma not_runtime_bind {A B : Type} (m : result A) (f : A -> result B) :
  not_runtime m -> (forall a, not_runtime (f a)) -> not_runtime (m ≫= f).
Proof.
  intros Hm Hf msg. destruct m as [a|e]; [apply Hf|].
  rewrite bind_Fail. intros [= ->]. exact (Hm msg eq_refl).
Qed.

Lemma not_runtime_OK {A : Type} (a : A) : not_runtime (OK a).
Proof. intros msg; discriminate. Qed.

Lemma not_runtime_vec_get {A : Type} (v : list A) i : not_runtime (vec_get v i).
Proof.
  intros msg. unfold vec_get. case_bool_decide; [|discriminate].
  destruct (v !! Z.to_nat i); discriminate.
Qed.

Lemma not_runtime_vec_set {A : Type} (v : list A) i x : not_runtime (vec_set v i x).
Proof. intros msg. unfold vec_set. case_bool_decide; discriminate. Qed.

Lemma not_runtime_mod_switch_to a l : not_runtime (mod_switch_to a l).
Proof. intros msg. unfold mod_switch_to. case_bool_decide; discriminate. Qed.

Lemma not_runtime_multiply a b : not_runtime (multiply a b).
Proof.
  intros msg. unfold multiply, parameter_mismatch. case_bool_decide; discriminate.
Qed.

Lemma not_runtime_relinearize a : not_runtime (relinearize a).
Proof. intros msg. unfold relinearize. case_bool_decide; discriminate. Qed.

Lemma not_runtime_rescale_to_next a : not_runtime (rescale_to_next a).
Proof. intros msg. unfold rescale_to_next. destruct (ct_level a); discriminate. Qed.

(** What a round of [compute_all_powers] does to [levels] is [level_step]. *)
Lemma power_step_levels i powers levels :
  match power_step i (powers, levels) with
  | OK (_, levels') => level_step i levels = OK levels'
  | Fail (RuntimeError msg) => level_step i levels = Fail (RuntimeError msg)
  | Fail _ => True
  end.
Proof.
  unfold power_step, level_step.
  destruct (split_search levels i) as [[minlevel cand]|e].
  2:{ rewrite !bind_Fail. destruct e; auto. }
  rewrite !bind_OK.
  destruct (vec_set levels i minlevel) as [levels'|e].
  2:{ rewrite !bind_Fail. destruct e; auto. }
  rewrite !bind_OK.
  destruct (cand <? 0); [reflexivity|].
  match goal with
  | |- match ?r with _ => _ end =>
      assert (not_runtime r \/ True) as Hnr by (right; exact I);
      destruct r as [[p l]|e] eqn:Hr
  end.
  - clear Hnr. revert Hr.
    destruct (vec_get powers cand) as [temp|?]; [rewrite bind_OK|discriminate].
    destruct (vec_get powers (i - cand)) as [other|?]; [rewrite bind_OK|discriminate].
    destruct (mod_switch_to temp (ct_level other)) as [temp'|?];
      [rewrite bind_OK|discriminate].
    destruct (multiply temp' other) as [p1|?]; [rewrite bind_OK|discriminate].
    destruct (relinearize p1) as [p2|?]; [rewrite bind_OK|discriminate].
    destruct (rescale_to_next p2) as [p3|?]; [rewrite bind_OK|discriminate].
    destruct (vec_set powers i p3) as [powers'|?]; [rewrite bind_OK|discriminate].
    intros [= <- <-]. reflexivity.
  - destruct e; auto. exfalso. revert Hr.
    repeat (apply not_runtime_bind;
            [first [apply not_runtime_vec_get | apply not_runtime_vec_set
                   | apply not_runtime_mod_switch_to | apply not_runtime_multiply
                   | apply not_runtime_relinearize | apply not_runtime_rescale_to_next]
            | intros ?]).
    apply not_runtime_OK.
Qed.

Lemma foldM_power_levels (l : list Z) : forall powers levels,
  match foldM power_step l (powers, levels) with
  | OK (_, levels') => foldM level_step l levels = OK levels'
  | Fail (RuntimeError msg) => foldM level_step l levels = Fail (RuntimeError msg)
  | Fail _ => True
  end.
Proof.
  induction l as [|i l IH]; intros powers levels; [reflexivity|].
  rewrite !foldM_cons.
  pose proof (power_step_levels i powers levels) as Hstep.
  destruct (power_step i (powers, levels)) as [[p lv]|e].
  - rewrite Hstep, !bind_OK. apply IH.
  - rewrite bind_Fail. destruct e; auto. rewrite Hstep. reflexivity.
Qed.

(** The [levels] at the end of [compute_all_powers] are those of the
    dynamic program run on its own. *)
Lemma compute_all_powers_levels ctx d powers ps ls :
  compute_all_powers ctx d powers = OK (ps, ls) -> power_levels d = OK ls.
Proof.
  unfold compute_all_powers, power_levels.
  destruct (vec_set _ 1 ctx) as [p1|?]; [rewrite bind_OK|discriminate].
  destruct (init_levels d) as [l0|?]; [rewrite !bind_OK|discriminate].
  unfold for_range. intros Hrun.
  pose proof (foldM_power_levels (seqZ 2 (d - 2 + 1)) p1 l0) as H.
  rewrite Hrun in H. exact H.
Qed.


(** ** Slots and sums *)

Lemma slot_lookup (v : list Qc) i x : v !! i = Some x -> slot v i = x.
Proof. intros H. unfold slot. rewrite H. reflexivity. Qed.

Lemma slot_ge (v : list Qc) i : (length v <= i)%nat -> slot v i = 0%Qc.
Proof. intros H. unfold slot. rewrite lookup_ge_None_2 by lia. reflexivity. Qed.

Lemma slot_zip_with (f : Qc -> Qc -> Qc) (a b : list Qc) i :
  length a = length b -> f 0%Qc 0%Qc = 0%Qc ->
  slot (zip_with f a b) i = f (slot a i) (slot b i).
Proof.
  intros Hlen Hf. unfold slot. rewrite lookup_zip_with.
  destruct (a !! i) as [x|] eqn:Ha.
  - destruct (b !! i) as [y|] eqn:Hb; [reflexivity|].
    apply lookup_ge_None in Hb. apply lookup_lt_Some in Ha. lia.
  - apply lookup_ge_None in Ha. rewrite (lookup_ge_None_2 b) by lia.
    simpl. symmetry. exact Hf.
Qed.

Lemma slot_rotate (l : list Qc) k i :
  (i < length l)%nat -> slot (rotate k l) i = slot l ((k + i) mod length l)%nat.
Proof.
  intros H. unfold slot. rewrite lookup_rotate_r by exact H.
  unfold rotate_nat_add.
  rewrite <- Nat2Z.inj_add, <- Nat2Z.inj_mod, Nat2Z.id. reflexivity.
Qed.

Lemma slot_fmap (f : Qc -> Qc) (l : list Qc) i :
  f 0%Qc = 0%Qc -> slot (f <$> l) i = f (slot l i).
Proof.
  intros Hf. unfold slot. rewrite list_lookup_fmap.
  destruct (l !! i); simpl; auto.
Qed.

Lemma slot_replicate n (x : Qc) i : (i < n)%nat -> slot (replicate n x) i = x.
Proof. intros H. apply slot_lookup. apply lookup_replicate_2. exact H. Qed.

Lemma Qc_sum_ext (f g : nat -> Qc) n :
  (forall i, (i < n)%nat -> f i = g i) -> Qc_sum f n = Qc_sum g n.
Proof.
  induction n as [|n IH]; intros H; simpl; [reflexivity|].
  rewrite IH by (intros i Hi; apply H; lia). rewrite H by lia. reflexivity.
Qed.

Lemma Qc_sum_shift (f : nat -> Qc) n :
  (Qc_sum (fun s => f (S s)) n + f 0%nat)%Qc = Qc_sum f (S n).
Proof.
  induction n as [|n IH]; simpl in *; [ring|].
  rewrite <- IH. ring.
Qed.

(** A sum over a window of [n] consecutive indices of an [n]-periodic
    sequence does not depend on where the window starts. *)
Lemma Qc_sum_window (m : nat -> Qc) (n j : nat) :
  (j <= n)%nat ->
  Qc_sum (fun s => if (j + s <? n)%nat then m (j + s)%nat else m (j + s - n)%nat) n
  = Qc_sum m n.
Proof.
  induction j as [|j IH]; intros Hj.
  - apply Qc_sum_ext. intros i Hi. simpl.
    destruct (Nat.ltb_spec i n); [reflexivity | lia].
  - rewrite <- IH by lia.
    set (f := fun s => if (j + s <? n)%nat then m (j + s)%nat else m (j + s - n)%nat).
    pose proof (Qc_sum_shift f n) as Hs. simpl in Hs.
    assert (f n = f 0%nat) as Hfn.
    { unfold f. destruct (Nat.ltb_spec (j + n) n); [lia|].
      destruct (Nat.ltb_spec (j + 0) n); [|lia]. f_equal. lia. }
    rewrite Hfn in Hs.
    assert (Qc_sum (fun s => f (S s)) n = Qc_sum f n) as Heq.
    { apply (Qcplus_inj_l (f 0%nat)). simpl. exact Hs. }
    rewrite <- Heq. apply Qc_sum_ext. intros i Hi. unfold f.
    replace (S j + i)%nat with (j + S i)%nat by lia. reflexivity.
Qed.

(** ** Scales *)

Lemma rescaled_square_scale :
  (base_scale * base_scale / rescale_prime)%Qc = base_scale.
Proof. apply Qc_is_canon. reflexivity. Qed.

Lemma manual_rescale_base : pow2 (trunc_log2 base_scale) = base_scale.
Proof. apply Qc_is_canon. reflexivity. Qed.

Lemma base_scale_ratio : (base_scale / base_scale)%Qc = 1%Qc.
Proof. apply Qc_is_canon. reflexivity. Qed.

Lemma pow2_40_base : pow2 40 = base_scale.
Proof. reflexivity. Qed.

Lemma assign_scale_base (c : Ciphertext) :
  ct_scale c = base_scale ->
  assign_scale c base_scale
  = {| ct_slots := ct_slots c; ct_level := ct_level c;
       ct_scale := base_scale; ct_size := ct_size c |}.
Proof.
  intros Hs. unfold assign_scale. rewrite Hs, base_scale_ratio. f_equal.
  rewrite <- (list_fmap_id (ct_slots c)) at 2.
  apply list_fmap_ext. intros i x _. simpl. ring.
Qed.

(** ** The backend operations when their checks pass *)

Ltac proj_simpl :=
  cbn [ct_slots ct_level ct_scale ct_size pt_slots pt_level pt_scale] in *.

Lemma multiply_run (a b : Ciphertext) :
  ct_level a = ct_level b ->
  multiply a b
  = OK {| ct_slots := zip_with Qcmult (ct_slots a) (ct_slots b);
          ct_level := ct_level a; ct_scale := (ct_scale a * ct_scale b)%Qc;
          ct_size := ct_size a + ct_size b - 1 |}.
Proof. intros H. unfold multiply. rewrite bool_decide_eq_true_2 by exact H. reflexivity. Qed.

Lemma multiply_plain_run (a : Ciphertext) (p : Plaintext) :
  ct_level a = pt_level p ->
  multiply_plain a p
  = OK {| ct_slots := zip_with Qcmult (ct_slots a) (pt_slots p);
          ct_level := ct_level a; ct_scale := (ct_scale a * pt_scale p)%Qc;
          ct_size := ct_size a |}.
Proof.
  intros H. unfold multiply_plain. rewrite bool_decide_eq_true_2 by exact H.
  reflexivity.
Qed.

Lemma add_plain_run (a : Ciphertext) (p : Plaintext) :
  ct_level a = pt_level p -> ct_scale a = pt_scale p ->
  add_plain a p
  = OK {| ct_slots := zip_with Qcplus (ct_slots a) (pt_slots p);
          ct_level := ct_level a; ct_scale := ct_scale a; ct_size := ct_size a |}.
Proof.
  intros Hl Hs. unfold add_plain.
  rewrite bool_decide_eq_true_2 by exact Hl.
  rewrite bool_decide_eq_true_2 by exact Hs. reflexivity.
Qed.

Lemma relinearize_run (a : Ciphertext) :
  (2 <= ct_size a)%nat ->
  relinearize a
  = OK {| ct_slots := ct_slots a; ct_level := ct_level a;
          ct_scale := ct_scale a; ct_size := 2 |}.
Proof. intros H. unfold relinearize. rewrite bool_decide_eq_true_2 by exact H. reflexivity. Qed.

Lemma rescale_to_next_run (a : Ciphertext) (l : nat) :
  ct_level a = S l ->
  rescale_to_next a
  = OK {| ct_slots := ct_slots a; ct_level := l;
          ct_scale := (ct_scale a / rescale_prime)%Qc; ct_size := ct_size a |}.
Proof. intros H. unfold rescale_to_next. rewrite H. reflexivity. Qed.

Lemma mod_switch_to_run (a : Ciphertext) (level : nat) :
  (level <= ct_level a)%nat ->
  mod_switch_to a level
  = OK {| ct_slots := ct_slots a; ct_level := level;
          ct_scale := ct_scale a; ct_size := ct_size a |}.
Proof. intros H. unfold mod_switch_to. rewrite bool_decide_eq_true_2 by exact H. reflexivity. Qed.

Lemma mod_switch_to_plain_run (p : Plaintext) (level : nat) :
  (level <= pt_level p)%nat ->
  mod_switch_to_plain p level
  = OK {| pt_slots := pt_slots p; pt_level := level; pt_scale := pt_scale p |}.
Proof.
  intros H. unfold mod_switch_to_plain. rewrite bool_decide_eq_true_2 by exact H.
  reflexivity.
Qed.

Lemma add_run (a b : Ciphertext) :
  ct_level a = ct_level b -> ct_scale a = ct_scale b ->
  add a b
  = OK {| ct_slots := zip_with Qcplus (ct_slots a) (ct_slots b);
          ct_level := ct_level a; ct_scale := ct_scale a;
          ct_size := Nat.max (ct_size a) (ct_size b) |}.
Proof.
  intros Hl Hs. unfold add.
  rewrite bool_decide_eq_true_2 by exact Hl.
  rewrite bool_decide_eq_true_2 by exact Hs. reflexivity.
Qed.


(** *** The powers [compute_all_powers] produces *)

Lemma Qcpower_add (x : Qc) (a b : nat) : (x ^ a * x ^ b = x ^ (a + b))%Qc.
Proof. induction a as [|a IH]; simpl; [ring|]. rewrite <- IH. ring. Qed.

Lemma length_vec_resize {A : Type} (d : A) (v : list A) (n : Z) :
  length (vec_resize d v n) = Z.to_nat n.
Proof.
  unfold vec_resize. rewrite length_app, length_take, length_replicate. lia.
Qed.

Section PowerTree.
Variable context : SEALContext.
Variable ctx : Ciphertext.
Hypothesis ctx_well_formed : well_formed context ctx.

(** A round of [compute_all_powers] at [i], on powers and levels that are
    right below [i], with enough levels left for [x^i]. *)
Lemma power_step_run (i : Z) (powers : list Ciphertext) (levels : list Z) :
  2 <= i -> i < Z.of_nat (length levels) -> i < Z.of_nat (length powers) ->
  levels_ok (i - 1) levels -> powers_ok context ctx (i - 1) powers ->
  Z.log2_up i <= Z.of_nat (ct_level ctx) ->
  exists p,
    power_step i (powers, levels)
      = OK (<[Z.to_nat i := p]> powers, <[Z.to_nat i := Z.log2_up i]> levels)
    /\ power_ok context ctx (Z.to_nat i) p.
Proof.
  intros Hi Hll Hlp Hok Hpow Hdepth.
  pose proof (Z.div_mod i 2 ltac:(lia)) as Hdm.
  pose proof (Z.mod_pos_bound i 2 ltac:(lia)) as Hmod.
  unfold power_step.
  destruct (split_search_found levels i Hok Hll Hi) as (cand & -> & Hc & Hmax & _).
  rewrite bind_OK. rewrite vec_set_run by lia. rewrite bind_OK.
  destruct (Z.ltb_spec cand 0); [lia|].
  destruct (Hpow (Z.to_nat cand) ltac:(lia) ltac:(lia))
    as (pc & Hpc & (Hlc & Hsc & Hzc) & Hlevc & Hslc).
  destruct (Hpow (Z.to_nat (i - cand)) ltac:(lia) ltac:(lia))
    as (po & Hpo & (Hlo & Hso & Hzo) & Hlevo & Hslo).
  rewrite !Z2Nat.id in * by lia.
  rewrite (vec_get_run powers cand pc) by (auto; lia). rewrite bind_OK.
  rewrite (vec_get_run powers (i - cand) po) by (auto; lia). rewrite bind_OK.
  pose proof (Z.log2_up_le_mono cand (i - cand) ltac:(lia)) as Hmono.
  rewrite Z.max_r in Hmax by lia.
  rewrite mod_switch_to_run by lia. rewrite bind_OK.
  rewrite multiply_run by reflexivity. rewrite bind_OK.
  rewrite relinearize_run by (proj_simpl; lia). rewrite bind_OK.
  destruct (ct_level po) as [|l] eqn:Hpl; [lia|].
  rewrite (rescale_to_next_run _ l) by reflexivity. rewrite bind_OK.
  rewrite vec_set_run by lia. rewrite bind_OK.
  eexists. split; [reflexivity|]. proj_simpl.
  split; [split; [proj_simpl; rewrite length_zip_with; lia|split]|split].
  - proj_simpl. rewrite Hsc, Hso. apply rescaled_square_scale.
  - reflexivity.
  - proj_simpl. rewrite Z2Nat.id by lia. lia.
  - intros j Hj. proj_simpl.
    rewrite slot_zip_with; [|lia|ring].
    rewrite Hslc, Hslo by exact Hj. rewrite Qcpower_add. f_equal. lia.
Qed.

Lemma powers_ok_insert (i : Z) (powers : list Ciphertext) (p : Ciphertext) :
  1 <= i -> i < Z.of_nat (length powers) ->
  powers_ok context ctx (i - 1) powers -> power_ok context ctx (Z.to_nat i) p ->
  powers_ok context ctx i (<[Z.to_nat i := p]> powers).
Proof.
  intros Hi Hlen Hpow Hp k Hk1 Hk.
  destruct (decide (k = Z.to_nat i)) as [->|Hne].
  - exists p. rewrite list_lookup_insert_eq by lia. auto.
  - rewrite list_lookup_insert_ne by lia. apply Hpow; lia.
Qed.

(** The rounds [2..t] of [compute_all_powers]. *)
Lemma compute_all_powers_prefix (d : Z) (powers0 : list Ciphertext)
  (levels0 : list Z) :
  1 <= d -> init_levels d = OK levels0 ->
  length powers0 = Z.to_nat (d + 1) -> powers_ok context ctx 1 powers0 ->
  forall t : nat, 1 <= Z.of_nat t <= d ->
    Z.log2_up (Z.of_nat t) <= Z.of_nat (ct_level ctx) ->
    exists powers levels,
      for_range 2 (Z.of_nat t) power_step (powers0, levels0) = OK (powers, levels)
      /\ length powers = Z.to_nat (d + 1) /\ length levels = Z.to_nat (d + 1)
      /\ levels_ok (Z.of_nat t) levels
      /\ powers_ok context ctx (Z.of_nat t) powers.
Proof.
  intros Hd Hinit Hlp0 Hpow0.
  destruct (init_levels_run d Hd) as (l0 & Hinit' & Hlen0 & Hok0).
  rewrite Hinit in Hinit'. injection Hinit' as <-.
  induction t as [|t IH]; intros Ht Hdepth; [lia|].
  destruct (decide (t = 0%nat)) as [->|Hne].
  - exists powers0, levels0. rewrite for_range_empty by lia. auto.
  - destruct IH as (powers & levels & Hrun & Hlp & Hll & Hok & Hpow); [lia| |].
    { pose proof (Z.log2_up_le_mono (Z.of_nat t) (Z.of_nat (S t)) ltac:(lia)). lia. }
    rewrite for_range_snoc by lia.
    replace (Z.of_nat (S t) - 1) with (Z.of_nat t) by lia.
    rewrite Hrun, bind_OK.
    destruct (power_step_run (Z.of_nat (S t)) powers levels) as (p & -> & Hp);
      [lia | lia | lia | | | exact Hdepth |].
    + replace (Z.of_nat (S t) - 1) with (Z.of_nat t) by lia. exact Hok.
    + replace (Z.of_nat (S t) - 1) with (Z.of_nat t) by lia. exact Hpow.
    + eexists _, _. split; [reflexivity|].
      split; [rewrite length_insert; exact Hlp|].
      split; [rewrite length_insert; exact Hll|]. split.
      * apply levels_ok_insert; [|lia].
        replace (Z.of_nat (S t) - 1) with (Z.of_nat t) by lia. exact Hok.
      * apply powers_ok_insert; [lia | lia | | exact Hp].
        replace (Z.of_nat (S t) - 1) with (Z.of_nat t) by lia. exact Hpow.
Qed.

(** [compute_all_powers] on a well-formed input with [ceil(log2 d)] levels
    left: [powers[d]] is [x^d], [ceil(log2 d)] levels below the input. *)
Lemma compute_all_powers_run (d : Z) (powers : list Ciphertext) :
  1 <= d -> Z.log2_up d <= Z.of_nat (ct_level ctx) ->
  exists ps ls pd,
    compute_all_powers ctx d powers = OK (ps, ls)
    /\ vec_get ps d = OK pd
    /\ power_ok context ctx (Z.to_nat d) pd.
Proof.
  intros Hd Hdepth. unfold compute_all_powers.
  rewrite vec_set_run by (rewrite length_vec_resize; lia). rewrite bind_OK.
  destruct (init_levels_run d Hd) as (l0 & Hinit & Hlen0 & Hok0).
  rewrite Hinit, bind_OK.
  destruct (compute_all_powers_prefix d
              (<[Z.to_nat 1 := ctx]> (vec_resize Ciphertext0 powers (d + 1))) l0
              Hd Hinit) with (t := Z.to_nat d)
    as (ps & ls & Hrun & Hlp & Hll & Hok & Hpow).
  - rewrite length_insert. apply length_vec_resize.
  - intros k Hk1 Hk. assert (k = 1%nat) as -> by lia. exists ctx. split.
    + apply list_lookup_insert_eq. rewrite length_vec_resize. lia.
    + split; [exact ctx_well_formed|].
      split; [change (Z.log2_up (Z.of_nat 1)) with 0; lia|].
      intros j Hj. simpl. ring.
  - lia.
  - rewrite Z2Nat.id by lia. exact Hdepth.
  - rewrite Z2Nat.id in * by lia.
    destruct (Hpow (Z.to_nat d) ltac:(lia) ltac:(lia)) as (pd & Hpd & Hp).
    exists ps, ls, pd. split; [exact Hrun|]. split; [|exact Hp].
    apply vec_get_run; [lia | exact Hpd].
Qed.

End PowerTree.

(** C6: for every degree [d >= 2] the dynamic program of
    [compute_all_powers] gives [x^d] the level [ceil(log2 d)], which is at
    most the level [d - 1] of repeated multiplication when [d > 2]; the
    split it records is the first [j] in [1..d/2] whose
    [max(levels[j], levels[d-j]) + 1] is that minimum; the [levels] that
    [compute_all_powers] ends with are those of the dynamic program; and
    on a well-formed input with that many levels left, [powers[d]] holds
    [x^d] in every slot, [ceil(log2 d)] levels below the input. *)
Theorem power_levels_log2_up (d : Z) :
  2 <= d ->
  exists levels,
    power_levels d = OK levels
    /\ vec_get levels d = OK (Z.log2_up d)
    /\ (2 < d -> Z.log2_up d <= horner_power_level d)
    /\ (exists cand,
          split_search levels d = OK (Z.log2_up d, cand)
          /\ 1 <= cand <= d / 2
          /\ Z.max (Z.log2_up cand) (Z.log2_up (d - cand)) + 1 = Z.log2_up d
          /\ forall j, 1 <= j < cand ->
               Z.log2_up d < Z.max (Z.log2_up j) (Z.log2_up (d - j)) + 1)
    /\ (forall ctx powers ps ls,
          compute_all_powers ctx d powers = OK (ps, ls) -> ls = levels)
    /\ (forall context ctx powers,
          well_formed context ctx -> Z.log2_up d <= Z.of_nat (ct_level ctx) ->
          exists ps pd,
            compute_all_powers ctx d powers = OK (ps, levels)
            /\ vec_get ps d = OK pd
            /\ Z.of_nat (ct_level pd) = Z.of_nat (ct_level ctx) - Z.log2_up d
            /\ forall j, (j < slot_count context)%nat ->
                 slot (ct_slots pd) j = (slot (ct_slots ctx) j ^ Z.to_nat d)%Qc).
Proof.
  intros Hd. unfold power_levels.
  destruct (init_levels_run d ltac:(lia)) as (l0 & Hinit & Hlen0 & Hok0).
  rewrite Hinit, bind_OK.
  destruct (power_levels_prefix d l0 Hinit ltac:(lia) (Z.to_nat d) ltac:(lia))
    as (levels & Hrun & Hlen & Hok).
  replace (Z.of_nat (Z.to_nat d)) with d in * by lia.
  assert (forall ctx powers ps ls,
            compute_all_powers ctx d powers = OK (ps, ls) -> ls = levels) as Hlink.
  { intros ctx powers ps ls Hall.
    apply compute_all_powers_levels in Hall. unfold power_levels in Hall.
    rewrite Hinit, bind_OK, Hrun in Hall. congruence. }
  exists levels. split; [exact Hrun|]. split; [|split; [|split; [|split]]].
  - apply (levels_ok_get d); [exact Hok | lia | lia].
  - intros _. unfold horner_power_level.
    pose proof (Z.log2_up_lt_lin d ltac:(lia)). lia.
  - apply split_search_found; [|lia|lia].
    intros k Hk Hlk. apply Hok; lia.
  - exact Hlink.
  - intros context ctx powers Hwf Hdepth.
    destruct (compute_all_powers_run context ctx Hwf d powers ltac:(lia) Hdepth)
      as (ps & ls & pd & Hall & Hget & _ & Hlev & Hslots).
    rewrite Z2Nat.id in Hlev by lia.
    exists ps, pd. rewrite Hall. rewrite (Hlink _ _ _ _ Hall). auto.
Qed.

(** C9: for every degree [d >= 2] the branch that throws [runtime_error]
    in [compute_all_powers] is never taken: at every exponent [i] in
    [2..d] the search over [j] in [1..i/2] ends with a candidate
    [cand >= 1] and a level below the initial bound [i], and
    [compute_all_powers] never fails with the [runtime_error]. *)
Theorem split_always_found (d : Z) :
  2 <= d ->
  (forall i, 2 <= i <= d ->
     exists levels minlevel cand,
       (l0 ← init_levels d; for_range 2 (i - 1) level_step l0) = OK levels
       /\ split_search levels i = OK (minlevel, cand)
       /\ 1 <= cand /\ minlevel < i)
  /\ (forall ctx powers, not_runtime (compute_all_powers ctx d powers)).
Proof.
  intros Hd.
  destruct (init_levels_run d ltac:(lia)) as (l0 & Hinit & Hlen0 & Hok0).
  split.
  - intros i Hi. rewrite Hinit, bind_OK.
    destruct (power_levels_prefix d l0 Hinit ltac:(lia) (Z.to_nat (i - 1)) ltac:(lia))
      as (levels & Hrun & Hlen & Hok).
    replace (Z.of_nat (Z.to_nat (i - 1))) with (i - 1) in * by lia.
    destruct (split_search_found levels i Hok ltac:(lia) ltac:(lia))
      as (cand & Hs & Hc & _).
    exists levels, (Z.log2_up i), cand.
    pose proof (Z.log2_up_lt_lin i ltac:(lia)). repeat split; auto; lia.
  - intros ctx powers msg. unfold compute_all_powers.
    destruct (vec_set _ 1 ctx) as [p1|?] eqn:Hp1.
    2:{ rewrite bind_Fail. intros [= ->]. revert Hp1. apply not_runtime_vec_set. }
    rewrite bind_OK, Hinit, bind_OK. unfold for_range. intros Hrun.
    pose proof (foldM_power_levels (seqZ 2 (d - 2 + 1)) p1 l0) as H.
    rewrite Hrun in H.
    destruct (power_levels_prefix d l0 Hinit ltac:(lia) (Z.to_nat d) ltac:(lia))
      as (levels & Hrun' & _).
    replace (Z.of_nat (Z.to_nat d)) with d in * by lia.
    unfold for_range in Hrun'. rewrite Hrun' in H. discriminate.
Qed.

(** ** [cipher_dot_product] *)

Section DotProduct.
Variable context : SEALContext.
Local Abbreviation N := (slot_count context).

Lemma rotate_vector_run (a : Ciphertext) (steps : Z) :
  (ct_size a <= 2)%nat -> steps <> 0 -> Z.abs steps < Z.of_nat N ->
  rotate_vector context a steps
  = OK {| ct_slots := rotate (Z.to_nat (steps mod Z.of_nat N)) (ct_slots a);
          ct_level := ct_level a; ct_scale := ct_scale a; ct_size := ct_size a |}.
Proof.
  intros Hsz Hne Habs. unfold rotate_vector.
  rewrite bool_decide_eq_false_2 by lia.
  rewrite bool_decide_eq_false_2 by lia.
  rewrite bool_decide_eq_false_2 by lia. reflexivity.
Qed.

Lemma cipher_dot_product_unfold ctA ctB size :
  cipher_dot_product context ctA ctB size
  = (mult ← multiply ctA ctB;
     mult ← relinearize mult;
     mult ← rescale_to_next mult;
     zero_filled ← rotate_vector context mult (- size);
     dup ← add mult zero_filled;
     '(mult, dup) ← for_range 1 (size - 1) (dot_body context) (mult, dup);
     OK (assign_scale mult (pow2 (trunc_log2 (ct_scale mult))))).
Proof. reflexivity. Qed.

(** [t] rounds of the rotate-and-add loop. *)
Lemma dot_loop_rounds (M D : Ciphertext) :
  length (ct_slots M) = N -> length (ct_slots D) = N ->
  ct_level D = ct_level M -> ct_scale D = ct_scale M ->
  ct_size M = 2%nat -> ct_size D = 2%nat -> (2 <= N)%nat ->
  forall t : nat,
    exists Mt Dt,
      for_range 1 (Z.of_nat t) (dot_body context) (M, D) = OK (Mt, Dt)
      /\ length (ct_slots Mt) = N /\ length (ct_slots Dt) = N
      /\ ct_level Mt = ct_level M /\ ct_level Dt = ct_level M
      /\ ct_scale Mt = ct_scale M /\ ct_scale Dt = ct_scale M
      /\ ct_size Mt = 2%nat /\ ct_size Dt = 2%nat
      /\ (forall i, (i < N)%nat ->
            slot (ct_slots Dt) i = slot (ct_slots D) ((i + t) mod N)%nat)
      /\ (forall i, (i < N)%nat ->
            slot (ct_slots Mt) i
            = (slot (ct_slots M) i
               + Qc_sum (fun s => slot (ct_slots D) ((i + S s) mod N)%nat) t)%Qc).
Proof.
  intros HlM HlD Hlev Hsc HsM HsD HN. induction t as [|t IH].
  - exists M, D. rewrite for_range_empty by lia.
    repeat split; auto.
    + intros i Hi. rewrite Nat.add_0_r, Nat.mod_small by lia. reflexivity.
    + intros i Hi. simpl. ring.
  - destruct IH as (Mt & Dt & Hrun & HlMt & HlDt & HvM & HvD & HcM & HcD
                    & HzM & HzD & HD & HM).
    rewrite for_range_snoc by lia.
    replace (Z.of_nat (S t) - 1) with (Z.of_nat t) by lia.
    rewrite Hrun, bind_OK. unfold dot_body.
    rewrite rotate_vector_run by lia. rewrite bind_OK.
    rewrite add_run by (simpl; congruence). rewrite bind_OK.
    eexists _, _. split; [reflexivity|]. simpl.
    assert (forall i, (i < N)%nat ->
              slot (rotate (Z.to_nat (1 mod Z.of_nat N)) (ct_slots Dt)) i
              = slot (ct_slots D) ((i + S t) mod N)%nat) as Hrot.
    { intros i Hi. rewrite Z.mod_small by lia. change (Z.to_nat 1) with 1%nat.
      rewrite slot_rotate by lia. rewrite HlDt.
      rewrite HD by (apply Nat.mod_upper_bound; lia).
      rewrite Nat.Div0.add_mod_idemp_l. f_equal. f_equal. lia. }
    repeat split; auto.
    + rewrite length_zip_with, length_rotate. lia.
    + rewrite length_rotate. lia.
    + rewrite HzM, HzD. reflexivity.
    + intros i Hi. rewrite slot_zip_with;
        [|rewrite length_rotate; lia|ring].
      rewrite Hrot, HM by lia. simpl. ring.
Qed.

(** The first [n] slots after [cipher_dot_product], under the
    preconditions of the rotate-and-sum fold: room for the duplicate
    ([2 n <= N]) and zeros from slot [n] on. *)
Lemma cipher_dot_product_run (a b : Ciphertext) (n : nat) :
  well_formed context a -> well_formed context b ->
  ct_level a = ct_level b -> (1 <= ct_level a)%nat ->
  (2 * n <= N)%nat ->
  zero_beyond n (ct_slots a) -> zero_beyond n (ct_slots b) ->
  exists c,
    cipher_dot_product context a b (Z.of_nat n) = OK c
    /\ well_formed context c
    /\ ct_level c = (ct_level a - 1)%nat
    /\ forall j, (j < n)%nat ->
         slot (ct_slots c) j = inner_product (ct_slots a) (ct_slots b) n.
Proof.
  intros (Hla & Hsa & Hza) (Hlb & Hsb & Hzb) Hlev Hl1 H2n Hzero_a Hzero_b.
  rewrite cipher_dot_product_unfold.
  unfold multiply. rewrite bool_decide_eq_true_2 by exact Hlev. rewrite bind_OK.
  unfold relinearize. simpl. rewrite bool_decide_eq_true_2 by lia. rewrite bind_OK.
  unfold rescale_to_next. simpl.
  destruct (ct_level a) as [|l] eqn:Hlevel; [lia|]. rewrite bind_OK.
  rewrite Hsa, Hsb, rescaled_square_scale.
  set (M := {| ct_slots := zip_with Qcmult (ct_slots a) (ct_slots b);
               ct_level := l; ct_scale := base_scale; ct_size := 2 |}).
  assert (length (ct_slots M) = N) as HlM
    by (simpl; rewrite length_zip_with; lia).
  assert (forall i, slot (ct_slots M) i = (slot (ct_slots a) i * slot (ct_slots b) i)%Qc)
    as HM by (intros i; simpl; apply slot_zip_with; [lia | ring]).
  destruct n as [|n'].
  - (* no rotation, no round *)
    unfold rotate_vector. simpl.
    rewrite add_run by reflexivity. rewrite bind_OK.
    rewrite manual_rescale_base. rewrite assign_scale_base by reflexivity.
    eexists. split; [reflexivity|].
    split; [split; [exact HlM | split; reflexivity]|].
    split; [simpl; lia|]. intros j Hj. lia.
  - set (n := S n') in *.
    rewrite rotate_vector_run by (simpl; lia). rewrite bind_OK.
    rewrite add_run by reflexivity. rewrite bind_OK.
    match goal with
    | |- context [for_range _ _ _ (M, ?d)] => set (D := d)
    end.
    assert (ct_slots D = zip_with Qcplus (ct_slots M)
              (rotate (Z.to_nat (- Z.of_nat n mod Z.of_nat N)) (ct_slots M)))
      as HDslots by reflexivity.
    assert (length (ct_slots D) = N) as HlD
      by (rewrite HDslots, length_zip_with, length_rotate; lia).
    destruct (dot_loop_rounds M D HlM HlD) with (t := n') as
      (Mt & Dt & Hrun & HlMt & _ & HvM & _ & HcM & _ & HzM & _ & _ & HMt);
      [reflexivity | reflexivity | reflexivity | reflexivity | lia |].
    replace (Z.of_nat n - 1) with (Z.of_nat n') by lia.
    rewrite Hrun, bind_OK. rewrite HcM. simpl ct_scale.
    rewrite manual_rescale_base. rewrite assign_scale_base by exact HcM.
    eexists. split; [reflexivity|].
    split; [split; [exact HlMt | split; [reflexivity | exact HzM]]|].
    split; [simpl; rewrite HvM; simpl; lia|]. simpl ct_slots.
    intros j Hj. rewrite HMt by lia.
    (* the duplicate, wherever the fold reads it *)
    assert (forall x, (x < 2 * n)%nat ->
              slot (ct_slots D) x
              = if (x <? n)%nat then slot (ct_slots M) x
                else slot (ct_slots M) (x - n)%nat) as HD.
    { intros x Hx. rewrite HDslots.
      rewrite slot_zip_with; [|rewrite length_rotate; reflexivity|ring].
      rewrite slot_rotate by lia. rewrite HlM.
      replace (- Z.of_nat n) with (Z.of_nat (N - n) + (-1) * Z.of_nat N) by lia.
      rewrite Z.mod_add by lia. rewrite Z.mod_small by lia. rewrite Nat2Z.id.
      destruct (Nat.ltb_spec x n).
      - rewrite Nat.mod_small by lia.
        rewrite (HM (N - n + x)%nat), Hzero_a by lia. ring.
      - replace (N - n + x)%nat with ((x - n) + 1 * N)%nat by lia.
        rewrite Nat.Div0.mod_add, Nat.mod_small by lia.
        rewrite (HM x), Hzero_a by lia. ring. }
    set (W := fun s' : nat =>
                if (j + s' <? n)%nat then slot (ct_slots M) (j + s')%nat
                else slot (ct_slots M) (j + s' - n)%nat).
    rewrite (Qc_sum_ext _ (fun s => W (S s))).
    2:{ intros s Hs. rewrite Nat.mod_small by lia. rewrite HD by lia. reflexivity. }
    assert (slot (ct_slots M) j = W 0%nat) as ->.
    { unfold W. rewrite Nat.add_0_r. destruct (Nat.ltb_spec j n); [reflexivity|lia]. }
    rewrite Qcplus_comm. rewrite (Qc_sum_shift W n').
    change (S n') with n. unfold W. rewrite Qc_sum_window by lia.
    unfold inner_product. apply Qc_sum_ext. intros i _. apply HM.
Qed.

End DotProduct.

(** ** [Horner_sigmoid_approx] *)

Lemma horner_fold_sum (coeffs : list Qc) (k : nat) (acc x : Qc) :
  horner_fold coeffs k acc x
  = (acc * x ^ k + Qc_sum (fun i => slot coeffs i * x ^ i) k)%Qc.
Proof.
  revert acc. induction k as [|k IH]; intros acc; simpl.
  - ring.
  - rewrite IH. ring.
Qed.

Lemma horner_fold_poly_eval (coeffs : list Qc) (d : nat) (x : Qc) :
  length coeffs = S d ->
  horner_fold coeffs d (slot coeffs d) x = poly_eval coeffs x.
Proof.
  intros Hlen. rewrite horner_fold_sum. unfold poly_eval. rewrite Hlen.
  simpl. ring.
Qed.

Lemma for_range_down_cons {St : Type} (k : nat) (body : Z -> St -> result St) s :
  for_range_down (Z.of_nat (S k) - 1) 0 body s
  = (s' ← body (Z.of_nat k) s; for_range_down (Z.of_nat k - 1) 0 body s').
Proof.
  unfold for_range_down.
  replace (Z.of_nat (S k) - 1 - 0 + 1) with (Z.of_nat (S k)) by lia.
  replace (Z.of_nat k - 1 - 0 + 1) with (Z.of_nat k) by lia.
  rewrite seqZ_S, reverse_snoc, foldM_cons. reflexivity.
Qed.

Section Horner.
Variable context : SEALContext.
Local Abbreviation N := (slot_count context).
Variable coeffs : list Qc.

Lemma Horner_sigmoid_approx_unfold ctx degree scale :
  Horner_sigmoid_approx context ctx degree coeffs scale
  = (plain_coeffs ←
       for_range 0 degree (encode_body context coeffs scale)
         (replicate (Z.to_nat (degree + 1)) Plaintext0);
     top ← vec_get plain_coeffs degree;
     '(_, temp, _) ←
       for_range_down (degree - 1) 0 horner_step (ctx, encrypt top, plain_coeffs);
     OK temp).
Proof. reflexivity. Qed.

(** The first loop encodes the coefficients [0..k-1]. *)
Lemma encode_loop_run (scale : Qc) (len : nat) :
  forall k : nat, (k <= len)%nat -> (k <= length coeffs)%nat ->
    exists pcs,
      for_range 0 (Z.of_nat k - 1) (encode_body context coeffs scale)
        (replicate len Plaintext0) = OK pcs
      /\ length pcs = len
      /\ forall i, (i < k)%nat ->
           pcs !! i = Some (encode_value context (slot coeffs i) scale).
Proof.
  induction k as [|k IH]; intros Hk Hc.
  - exists (replicate len Plaintext0). rewrite for_range_empty by lia.
    split; [reflexivity|]. split; [apply length_replicate|]. intros i Hi; lia.
  - destruct IH as (pcs & Hrun & Hlen & Hin); [lia..|].
    rewrite for_range_snoc by lia.
    replace (Z.of_nat (S k) - 1 - 1) with (Z.of_nat k - 1) by lia.
    rewrite Hrun, bind_OK. unfold encode_body.
    replace (Z.of_nat (S k) - 1) with (Z.of_nat k) by lia.
    destruct (lookup_lt_is_Some_2 coeffs k) as [c Hck]; [lia|].
    rewrite (vec_get_lookup _ _ _ Hck), bind_OK.
    rewrite vec_set_insert by lia.
    eexists. split; [reflexivity|]. split; [rewrite length_insert; exact Hlen|].
    intros i Hi. destruct (decide (i = k)) as [->|Hne].
    + rewrite list_lookup_insert_eq by lia. rewrite (slot_lookup _ _ _ Hck). reflexivity.
    + rewrite list_lookup_insert_ne by lia. apply Hin. lia.
Qed.

(** One round of the second loop, at index [k]. *)
Lemma horner_step_run (k : nat) (cx temp : Ciphertext) (pcs : list Plaintext) :
  well_formed context cx -> well_formed context temp ->
  pcs !! k = Some (encode_value context (slot coeffs k) base_scale) ->
  (1 <= Nat.min (ct_level cx) (ct_level temp))%nat ->
  (Nat.min (ct_level cx) (ct_level temp) <= S (first_level context))%nat ->
  exists cx' temp' c',
    horner_step (Z.of_nat k) (cx, temp, pcs) = OK (cx', temp', <[k := c']> pcs)
    /\ well_formed context cx' /\ well_formed context temp'
    /\ ct_level cx' = Nat.min (ct_level cx) (ct_level temp)
    /\ ct_level temp' = (Nat.min (ct_level cx) (ct_level temp) - 1)%nat
    /\ ct_slots cx' = ct_slots cx
    /\ forall j, (j < N)%nat ->
         slot (ct_slots temp') j
         = (slot (ct_slots temp) j * slot (ct_slots cx) j + slot coeffs k)%Qc.
Proof.
  intros (Hlx & Hsx & Hzx) (Hlt & Hst & Hzt) Hpc Hmin Htop.
  unfold horner_step.
  (* the alignment of the two levels *)
  assert (exists cx1 temp1,
            (if bool_decide (ct_level temp < ct_level cx)%nat
             then ctx0 ← mod_switch_to cx (ct_level temp); OK (ctx0, temp)
             else if bool_decide (ct_level cx < ct_level temp)%nat
                  then temp0 ← mod_switch_to temp (ct_level cx); OK (cx, temp0)
                  else OK (cx, temp)) = OK (cx1, temp1)
            /\ ct_level cx1 = Nat.min (ct_level cx) (ct_level temp)
            /\ ct_level temp1 = Nat.min (ct_level cx) (ct_level temp)
            /\ ct_slots cx1 = ct_slots cx /\ ct_slots temp1 = ct_slots temp
            /\ ct_scale cx1 = base_scale /\ ct_scale temp1 = base_scale
            /\ ct_size cx1 = 2%nat /\ ct_size temp1 = 2%nat)
    as (cx1 & temp1 & -> & Hl1 & Hl2 & Hs1 & Hs2 & Hc1 & Hc2 & Hz1 & Hz2).
  { case_bool_decide as Hlt1; [|case_bool_decide as Hlt2].
    - unfold mod_switch_to. rewrite bool_decide_eq_true_2 by lia. rewrite bind_OK.
      eexists _, _. split; [reflexivity|]. simpl. repeat split; auto; lia.
    - unfold mod_switch_to. rewrite bool_decide_eq_true_2 by lia. rewrite bind_OK.
      eexists _, _. split; [reflexivity|]. simpl. repeat split; auto; lia.
    - exists cx, temp. repeat split; auto; lia. }
  rewrite bind_OK.
  rewrite multiply_run by congruence. rewrite bind_OK.
  rewrite relinearize_run by (proj_simpl; lia). rewrite bind_OK.
  destruct (Nat.min (ct_level cx) (ct_level temp)) as [|l] eqn:Hm; [lia|].
  rewrite (rescale_to_next_run _ l) by (proj_simpl; congruence). rewrite bind_OK.
  proj_simpl. rewrite Hc1, Hc2, rescaled_square_scale.
  rewrite (vec_get_lookup _ _ _ Hpc), bind_OK.
  rewrite mod_switch_to_plain_run by (simpl; lia). rewrite bind_OK.
  rewrite vec_set_insert by (eapply lookup_lt_Some; exact Hpc). rewrite bind_OK.
  rewrite pow2_40_base. rewrite assign_scale_base by reflexivity.
  rewrite add_plain_run by reflexivity. rewrite bind_OK.
  eexists _, _, _. split; [reflexivity|]. unfold encode_value. proj_simpl.
  split; [split; [congruence | split; assumption]|].
  split; [split; [proj_simpl;
                  rewrite !length_zip_with, length_replicate, Hs1, Hs2; lia
                 | split; reflexivity]|].
  split; [exact Hl1|]. split; [lia|]. split; [exact Hs1|].
  intros j Hj.
  rewrite slot_zip_with;
    [|rewrite length_zip_with, length_replicate, Hs1, Hs2; lia|ring].
  rewrite slot_zip_with; [|rewrite Hs1, Hs2; lia|ring].
  rewrite slot_replicate by lia. rewrite Hs1, Hs2. reflexivity.
Qed.

(** The rounds at the indices [k - 1] down to [0]. *)
Lemma horner_rounds (k : nat) : forall (cx temp : Ciphertext) (pcs : list Plaintext),
  well_formed context cx -> well_formed context temp ->
  (forall i, (i < k)%nat ->
     pcs !! i = Some (encode_value context (slot coeffs i) base_scale)) ->
  (k <= Nat.min (ct_level cx) (ct_level temp))%nat ->
  (Nat.min (ct_level cx) (ct_level temp) <= S (first_level context))%nat ->
  exists cx' temp' pcs',
    for_range_down (Z.of_nat k - 1) 0 horner_step (cx, temp, pcs)
      = OK (cx', temp', pcs')
    /\ well_formed context temp'
    /\ ct_level temp'
       = (if decide (k = 0%nat) then ct_level temp
          else Nat.min (ct_level cx) (ct_level temp) - k)%nat
    /\ forall j, (j < N)%nat ->
         slot (ct_slots temp') j
         = horner_fold coeffs k (slot (ct_slots temp) j) (slot (ct_slots cx) j).
Proof.
  induction k as [|k IH]; intros cx temp pcs Hwx Hwt Hpcs Hmin Htop.
  - exists cx, temp, pcs. unfold for_range_down. simpl.
    repeat split; auto; apply Hwt.
  - rewrite for_range_down_cons.
    destruct (horner_step_run k cx temp pcs Hwx Hwt) as
      (cx1 & temp1 & c1 & -> & Hwx1 & Hwt1 & Hl1 & Hl2 & Hs1 & Hslots);
      [apply Hpcs; lia | lia | lia |].
    rewrite bind_OK.
    destruct (IH cx1 temp1 (<[k := c1]> pcs) Hwx1 Hwt1) as
      (cx2 & temp2 & pcs2 & -> & Hwt2 & Hl & Hfold).
    + intros i Hi. rewrite list_lookup_insert_ne by lia. apply Hpcs. lia.
    + lia.
    + lia.
    + exists cx2, temp2, pcs2. split; [reflexivity|]. split; [exact Hwt2|].
      split.
      * rewrite Hl. destruct (decide (k = 0%nat)); simpl; lia.
      * intros j Hj. rewrite Hfold by lia. rewrite Hslots by lia.
        rewrite Hs1. reflexivity.
Qed.

(** [Horner_sigmoid_approx] on a well-formed input with enough levels. *)
Lemma Horner_sigmoid_approx_run (x : Ciphertext) (d : nat) :
  well_formed context x -> length coeffs = S d ->
  (d <= ct_level x)%nat -> (d <= first_level context)%nat ->
  exists r,
    Horner_sigmoid_approx context x (Z.of_nat d) coeffs base_scale = OK r
    /\ well_formed context r
    /\ ct_level r
       = (if decide (d = 0%nat) then first_level context
          else Nat.min (ct_level x) (first_level context) - d)%nat
    /\ forall j, (j < N)%nat ->
         slot (ct_slots r) j = poly_eval coeffs (slot (ct_slots x) j).
Proof.
  intros Hwx Hlen Hdx Hdt. rewrite Horner_sigmoid_approx_unfold.
  destruct (encode_loop_run base_scale (S d) (S d)) as (pcs & Hrun & Hlp & Hin);
    [lia..|].
  replace (Z.to_nat (Z.of_nat d + 1)) with (S d) by lia.
  replace (Z.of_nat (S d) - 1) with (Z.of_nat d) in Hrun by lia.
  rewrite Hrun, bind_OK.
  rewrite (vec_get_lookup _ _ _ (Hin d ltac:(lia))), bind_OK.
  destruct (horner_rounds d x (encrypt (encode_value context (slot coeffs d) base_scale)) pcs)
    as (cx' & temp' & pcs' & -> & Hwt & Hl & Hfold).
  - exact Hwx.
  - repeat split; simpl; auto. apply length_replicate.
  - intros i Hi. apply Hin. lia.
  - simpl. lia.
  - simpl. lia.
  - rewrite bind_OK. exists temp'. split; [reflexivity|]. split; [exact Hwt|].
    split; [exact Hl|].
    intros j Hj. rewrite Hfold by lia. simpl ct_slots at 1.
    rewrite slot_replicate by lia. apply horner_fold_poly_eval. exact Hlen.
Qed.

End Horner.

(** ** Results on [cipher_dot_product] and [Horner_sigmoid_approx] *)

Lemma fresh_well_formed (context : SEALContext) (values : list Qc) :
  (length values <= slot_count context)%nat ->
  well_formed context (fresh context values).
Proof.
  intros H. repeat split. simpl. rewrite length_app, length_replicate. lia.
Qed.

Lemma fresh_encode_encrypt (context : SEALContext) (values : list Qc) :
  (length values <= slot_count context)%nat ->
  (pt ← encode context values base_scale; OK (encrypt pt))
  = OK (fresh context values).
Proof.
  intros H. unfold encode. rewrite bool_decide_eq_true_2 by exact H. reflexivity.
Qed.

(** C2, amended: when there is room for the duplicate, [2 * size <= N],
    and the operands are well formed, at one level of at least 1, with
    zeros from slot [size] on, [cipher_dot_product a b size] returns a
    ciphertext whose first [size] slots each hold the inner product
    [sum_{i < size} a_i * b_i]. *)
Theorem cipher_dot_product_inner_product (context : SEALContext)
  (a b : Ciphertext) (size : nat) :
  well_formed context a -> well_formed context b ->
  ct_level a = ct_level b -> (1 <= ct_level a)%nat ->
  (2 * size <= slot_count context)%nat ->
  zero_beyond size (ct_slots a) -> zero_beyond size (ct_slots b) ->
  exists c,
    cipher_dot_product context a b (Z.of_nat size) = OK c
    /\ forall j, (j < size)%nat ->
         slot (ct_slots c) j = inner_product (ct_slots a) (ct_slots b) size.
Proof.
  intros Ha Hb Hl H1 H2 Hza Hzb.
  destruct (cipher_dot_product_run context a b size Ha Hb Hl H1 H2 Hza Hzb)
    as (c & Hc & _ & _ & Hs).
  exists c. split; [exact Hc | exact Hs].
Qed.

(** The inner product of [1, 2, 3, 0, ...] and [4, 5, 6, 0, ...] over 3
    slots: 32 in each of the first 3 slots. *)
Lemma cipher_dot_product_32 :
  exists c,
    cipher_dot_product context8 (fresh context8 (ints [1; 2; 3]))
      (fresh context8 (ints [4; 5; 6])) 3 = OK c
    /\ forall j, (j < 3)%nat -> slot (ct_slots c) j = Qc_of 32 1.
Proof.
  destruct (cipher_dot_product_inner_product context8
              (fresh context8 (ints [1; 2; 3])) (fresh context8 (ints [4; 5; 6])) 3)
    as (c & Hc & Hs).
  - apply fresh_well_formed. simpl. lia.
  - apply fresh_well_formed. simpl. lia.
  - reflexivity.
  - simpl. lia.
  - simpl. lia.
  - intros i Hi. do 8 (destruct i as [|i]; [try lia; reflexivity|]). reflexivity.
  - intros i Hi. do 8 (destruct i as [|i]; [try lia; reflexivity|]). reflexivity.
  - exists c. split; [exact Hc|]. intros j Hj. rewrite Hs by exact Hj.
    apply Qc_is_canon. reflexivity.
Defined.

(** With 4 slots there is no room for the duplicate of 3: the operands
    are zero from slot 3 on, and slot 0 of the result is 50, not 32. *)
Lemma cipher_dot_product_wraps_on_4_slots :
  zero_beyond 3 (ct_slots (fresh context4 (ints [1; 2; 3])))
  /\ zero_beyond 3 (ct_slots (fresh context4 (ints [4; 5; 6])))
  /\ exists c,
       cipher_dot_product context4 (fresh context4 (ints [1; 2; 3]))
         (fresh context4 (ints [4; 5; 6])) 3 = OK c
       /\ slot (ct_slots c) 0 = Qc_of 50 1
       /\ slot (ct_slots c) 0
          <> inner_product (ct_slots (fresh context4 (ints [1; 2; 3])))
               (ct_slots (fresh context4 (ints [4; 5; 6]))) 3.
Proof.
  split; [|split].
  - intros i Hi. do 4 (destruct i as [|i]; [try lia; reflexivity|]). reflexivity.
  - intros i Hi. do 4 (destruct i as [|i]; [try lia; reflexivity|]). reflexivity.
  - eexists. split; [vm_compute; reflexivity|]. split.
    + apply Qc_is_canon. reflexivity.
    + intros H. apply (f_equal Qcanon.this) in H. vm_compute in H. discriminate.
Qed.

(** C4: for a coefficient list [c_0..c_d] and a well-formed input [x] with
    at least [d] levels, [Horner_sigmoid_approx] returns a ciphertext that
    holds [p(x) = sum_i c_i * x^i] in every slot. *)
Theorem Horner_sigmoid_approx_poly_eval (context : SEALContext)
  (x : Ciphertext) (d : nat) (coeffs : list Qc) :
  well_formed context x -> length coeffs = S d ->
  (d <= ct_level x)%nat -> (d <= first_level context)%nat ->
  exists r,
    Horner_sigmoid_approx context x (Z.of_nat d) coeffs base_scale = OK r
    /\ forall j, (j < slot_count context)%nat ->
         slot (ct_slots r) j = poly_eval coeffs (slot (ct_slots x) j).
Proof.
  intros Hx Hlen Hdx Hdt.
  destruct (Horner_sigmoid_approx_run context coeffs x d Hx Hlen Hdx Hdt)
    as (r & Hr & _ & _ & Hs).
  exists r. split; [exact Hr | exact Hs].
Qed.

(** The degree-3 table at [x = 0.1]: every slot holds 0.61925348, within
    [10^-6] of 0.619253. *)
Lemma Horner_sigmoid_approx_at_one_tenth :
  sigmoid_coeffs = OK table3
  /\ exists r,
       Horner_sigmoid_approx context8 (fresh context8 (replicate 8 (Qc_of 1 10)))
         3 table3 base_scale = OK r
       /\ forall j, (j < 8)%nat ->
            slot (ct_slots r) j = Qc_of 61925348 100000000
            /\ (Qc_of 619253 1000000 <= slot (ct_slots r) j)%Qc
            /\ (slot (ct_slots r) j < Qc_of 619254 1000000)%Qc.
Proof.
  split; [reflexivity|].
  destruct (Horner_sigmoid_approx_poly_eval context8
              (fresh context8 (replicate 8 (Qc_of 1 10))) 3 table3)
    as (r & Hr & Hs).
  - apply fresh_well_formed. simpl. lia.
  - reflexivity.
  - simpl. lia.
  - simpl. lia.
  - exists r. split; [exact Hr|]. intros j Hj.
    assert (slot (ct_slots r) j = Qc_of 61925348 100000000) as ->.
    { rewrite (Hs j Hj).
      do 8 (destruct j as [|j]; [apply Qc_is_canon; reflexivity|]).
      simpl in Hj. lia. }
    split; [reflexivity|]. split; [discriminate | reflexivity].
Defined.

(** C5, amended: for a degree [d >= 1] the loop rescales once per index
    from [d - 1] down to [0], and the result is exactly [d] levels below
    the lower of the level of the input and the level of the fresh
    accumulator; it is [d] below the accumulator's level when the input is
    not below that level. *)
Theorem Horner_sigmoid_approx_levels (context : SEALContext)
  (x : Ciphertext) (d : nat) (coeffs : list Qc) :
  well_formed context x -> length coeffs = S d -> (1 <= d)%nat ->
  (d <= ct_level x)%nat -> (d <= first_level context)%nat ->
  exists r,
    Horner_sigmoid_approx context x (Z.of_nat d) coeffs base_scale = OK r
    /\ (ct_level r + d)%nat = Nat.min (ct_level x) (first_level context)
    /\ ((first_level context <= ct_level x)%nat ->
        (ct_level r + d)%nat = first_level context).
Proof.
  intros Hx Hlen Hd Hdx Hdt.
  destruct (Horner_sigmoid_approx_run context coeffs x d Hx Hlen Hdx Hdt)
    as (r & Hr & _ & Hl & _).
  exists r. split; [exact Hr|].
  destruct (decide (d = 0%nat)); [lia|]. split; [lia|]. intros Hge. lia.
Qed.

(** The sigmoid test of [main]: a fresh input, degree 3, three levels
    below the first one. *)
Lemma Horner_sigmoid_approx_levels_fresh :
  exists r,
    Horner_sigmoid_approx context8 (fresh context8 (replicate 8 (Qc_of 1 10)))
      3 table3 base_scale = OK r
    /\ ct_level r = 4%nat.
Proof.
  destruct (Horner_sigmoid_approx_levels context8
              (fresh context8 (replicate 8 (Qc_of 1 10))) 3 table3)
    as (r & Hr & Hmin & _).
  - apply fresh_well_formed. simpl. lia.
  - reflexivity.
  - lia.
  - simpl. lia.
  - simpl. lia.
  - exists r. split; [exact Hr|]. simpl in Hmin. lia.
Defined.

(** The training path: the input of the sigmoid is the linear transform,
    two levels below the first one, and the result is at level 2, five
    levels below the fresh accumulator at level 7, not three. *)
Lemma Horner_sigmoid_approx_training_path :
  exists lintransf_vec r,
    linear_transform context8 rows3x2 weights11 2 base_scale = OK lintransf_vec
    /\ ct_level lintransf_vec = 5%nat
    /\ Horner_sigmoid_approx context8 lintransf_vec 3 table3 base_scale = OK r
    /\ ct_level (encrypt (encode_value context8 (slot table3 3) base_scale)) = 7%nat
    /\ ct_level r = 2%nat
    /\ (ct_level r + 3)%nat
       <> ct_level (encrypt (encode_value context8 (slot table3 3) base_scale)).
Proof.
  eexists _, _. split; [vm_compute; reflexivity|].
  split; [reflexivity|]. split; [vm_compute; reflexivity|].
  split; [reflexivity|]. split; [reflexivity|]. simpl. lia.
Qed.

(** ** Levels through the backend *)

Ltac bind_inv H x Hx :=
  match type of H with
  | (?m ≫= _) = OK _ =>
      destruct m as [x|?] eqn:Hx;
      [rewrite bind_OK in H | rewrite bind_Fail in H; discriminate H]
  end.

Lemma mod_switch_to_level a l c :
  mod_switch_to a l = OK c -> ct_level c = l /\ (l <= ct_level a)%nat.
Proof.
  unfold mod_switch_to. case_bool_decide; [|discriminate].
  intros [= <-]. auto.
Qed.

Lemma multiply_level a b c :
  multiply a b = OK c -> ct_level c = ct_level a /\ ct_level a = ct_level b.
Proof.
  unfold multiply, parameter_mismatch. case_bool_decide; [|discriminate].
  intros [= <-]. auto.
Qed.

Lemma multiply_plain_level a p c :
  multiply_plain a p = OK c -> ct_level c = ct_level a /\ ct_level a = pt_level p.
Proof.
  unfold multiply_plain, parameter_mismatch. case_bool_decide; [|discriminate].
  intros [= <-]. auto.
Qed.

Lemma add_plain_level a p c :
  add_plain a p = OK c -> ct_level c = ct_level a.
Proof.
  unfold add_plain, parameter_mismatch, scale_mismatch.
  repeat (case_bool_decide; [|discriminate]). intros [= <-]. auto.
Qed.

Lemma add_level a b c : add a b = OK c -> ct_level c = ct_level a.
Proof.
  unfold add, parameter_mismatch, scale_mismatch.
  repeat (case_bool_decide; [|discriminate]). intros [= <-]. auto.
Qed.

Lemma sub_level a b c : sub a b = OK c -> ct_level c = ct_level a.
Proof.
  unfold sub, parameter_mismatch, scale_mismatch.
  repeat (case_bool_decide; [|discriminate]). intros [= <-]. auto.
Qed.

Lemma relinearize_level a c : relinearize a = OK c -> ct_level c = ct_level a.
Proof.
  unfold relinearize. case_bool_decide; [|discriminate]. intros [= <-]. auto.
Qed.

Lemma rescale_to_next_level a c :
  rescale_to_next a = OK c -> ct_level a = S (ct_level c).
Proof.
  unfold rescale_to_next. destruct (ct_level a); [discriminate|].
  intros [= <-]. auto.
Qed.

Lemma rotate_vector_level context a steps c :
  rotate_vector context a steps = OK c -> ct_level c = ct_level a.
Proof.
  unfold rotate_vector. repeat case_bool_decide; try discriminate;
    intros [= <-]; auto.
Qed.

Lemma encode_level context values scale pt :
  encode context values scale = OK pt -> pt_level pt = first_level context.
Proof.
  unfold encode. case_bool_decide; [|discriminate]. intros [= <-]. auto.
Qed.

Lemma dot_loop_level context (l : list Z) : forall mult dup mult' dup',
  foldM (dot_body context) l (mult, dup) = OK (mult', dup') ->
  ct_level mult' = ct_level mult.
Proof.
  induction l as [|i l IH]; intros mult dup mult' dup' H.
  - injection H as <- <-. reflexivity.
  - rewrite foldM_cons in H. bind_inv H st Hst. destruct st as [m1 d1].
    apply IH in H. rewrite H. unfold dot_body in Hst.
    bind_inv Hst d2 Hd2. bind_inv Hst m2 Hm2. injection Hst as <- <-.
    apply add_level in Hm2. exact Hm2.
Qed.

(** [cipher_dot_product] consumes one level. *)
Lemma cipher_dot_product_level context a b size c :
  cipher_dot_product context a b size = OK c -> ct_level a = S (ct_level c).
Proof.
  rewrite cipher_dot_product_unfold. intros H.
  bind_inv H m1 Hm1. bind_inv H m2 Hm2. bind_inv H m3 Hm3.
  bind_inv H zf Hzf. bind_inv H dup Hdup. bind_inv H st Hst.
  destruct st as [m4 d4]. injection H as <-.
  apply multiply_level in Hm1 as [Hm1 _]. apply relinearize_level in Hm2.
  apply rescale_to_next_level in Hm3. apply dot_loop_level in Hst.
  simpl. congruence.
Qed.

(** A round of the loop of [Horner_sigmoid_approx] consumes a level of
    the accumulator. *)
Lemma horner_step_level i cx temp pcs cx' temp' pcs' :
  horner_step i (cx, temp, pcs) = OK (cx', temp', pcs') ->
  (S (ct_level temp') <= ct_level temp)%nat.
Proof.
  unfold horner_step. intros H.
  bind_inv H al Hal. destruct al as [cx1 temp1].
  bind_inv H t1 Ht1. bind_inv H t2 Ht2. bind_inv H t3 Ht3.
  bind_inv H c1 Hc1. bind_inv H c2 Hc2. bind_inv H p1 Hp1.
  bind_inv H t4 Ht4. injection H as <- <- <-.
  apply multiply_level in Ht1 as [Ht1 _]. apply relinearize_level in Ht2.
  apply rescale_to_next_level in Ht3. apply add_plain_level in Ht4.
  simpl in Ht4.
  assert (ct_level temp1 <= ct_level temp)%nat as Hle.
  { revert Hal. case_bool_decide; [|case_bool_decide].
    - intros Hal. bind_inv Hal c0 Hc0. injection Hal as <- <-. lia.
    - intros Hal. bind_inv Hal c0 Hc0. injection Hal as <- <-.
      apply mod_switch_to_level in Hc0. lia.
    - intros [= <- <-]. lia. }
  lia.
Qed.

Lemma horner_rounds_level (k : nat) : forall cx temp pcs cx' temp' pcs',
  for_range_down (Z.of_nat k - 1) 0 horner_step (cx, temp, pcs)
    = OK (cx', temp', pcs') ->
  (ct_level temp' + k <= ct_level temp)%nat.
Proof.
  induction k as [|k IH]; intros cx temp pcs cx' temp' pcs' H.
  - unfold for_range_down in H. simpl in H. injection H as <- <- <-. lia.
  - rewrite for_range_down_cons in H. bind_inv H st Hst.
    destruct st as [[cx1 temp1] pcs1].
    apply horner_step_level in Hst. apply IH in H. lia.
Qed.

(** The sigmoid of the training path ends at least 3 levels below the
    first one, whatever its input. *)
Lemma Horner_table3_level context x scale r :
  Horner_sigmoid_approx context x 3 table3 scale = OK r ->
  (ct_level r + 3 <= first_level context)%nat.
Proof.
  rewrite Horner_sigmoid_approx_unfold.
  destruct (encode_loop_run context table3 scale 4 4) as (pcs & Hrun & _ & Hin);
    [simpl; lia..|].
  change (Z.of_nat 4 - 1) with 3 in Hrun. change (Z.to_nat (3 + 1)) with 4%nat.
  rewrite Hrun, bind_OK.
  rewrite (vec_get_run pcs 3 _ ltac:(lia) (Hin 3%nat ltac:(lia))), bind_OK.
  intros H. bind_inv H st Hst. destruct st as [[cx' temp'] pcs'].
  injection H as <-.
  change (3 - 1) with (Z.of_nat 3 - 1) in Hst.
  apply horner_rounds_level in Hst. simpl in Hst. lia.
Qed.

(** ** [update_weights] *)

Lemma update_weights_unfold context features features_T labels weights
  learning_rate scale :
  update_weights context features features_T labels weights learning_rate scale
  = (predictions ←
       predict_cipher_weights context features weights (vec_size features_T) scale;
     labels ← mod_switch_to labels (ct_level predictions);
     pred_labels ← sub predictions labels;
     '(_, gradient_results) ←
       for_range 0 (vec_size features_T - 1)
         (gradient_body context pred_labels (vec_size features)
            (vec_size features_T) scale)
         (features_T, replicate (Z.to_nat (vec_size features_T)) Ciphertext0);
     gradient ← add_many gradient_results;
     gradient ← relinearize gradient;
     gradient ← rescale_to_next gradient;
     let gradient :=
       assign_scale gradient (pow2 (trunc_log2 (ct_scale gradient))) in
     let N := (learning_rate / Qc_of (vec_size features) 1)%Qc in
     let N_pt := encode_int64 context (int64_of_double N) in
     N_pt ← mod_switch_to_plain N_pt (ct_level gradient);
     gradient ← multiply_plain gradient N_pt;
     new_weights ← sub gradient weights;
     OK (negate new_weights)).
Proof. reflexivity. Qed.

(** The mask of the gradient loop stays at the first level, the dot
    product it is multiplied with is below it: the first round fails. *)
Lemma gradient_body_fails context pred_labels n_obs n_w scale i st :
  (ct_level pred_labels <= first_level context)%nat ->
  forall st', gradient_body context pred_labels n_obs n_w scale i st <> OK st'.
Proof.
  intros Hle st' H. destruct st as [features_T gradient_results].
  unfold gradient_body in H.
  bind_inv H col Hcol. bind_inv H col' Hcol'. bind_inv H fT HfT.
  bind_inv H g Hg. bind_inv H mv Hmv. bind_inv H mp Hmp. bind_inv H g' Hg'.
  apply mod_switch_to_level in Hcol' as [Hcl _].
  apply cipher_dot_product_level in Hg.
  apply encode_level in Hmp.
  apply multiply_plain_level in Hg' as [_ Hgl].
  lia.
Qed.

(** C1, on the code: [update_weights] returns no weight vector, whatever
    its input; on the dataset of 4 observations of 2 features, with
    learning rate 0.1, it fails on the level mismatch of the first
    multiplication by a mask in the gradient loop, where the plaintext
    gradient-descent step gives the weights 634.48295 and 736.904406. *)
Theorem update_weights_never_returns :
  (forall context features features_T labels weights learning_rate scale,
     exists e,
       update_weights context features features_T labels weights learning_rate
         scale = Fail e)
  /\ update_weights context8 rows4x2 cols4x2 labels4 weights11 (Qc_of 1 10)
       base_scale
     = Fail (InvalidArgument "parameter mismatch")
  /\ Qcanon.this <$>
       reference_step table3
         [ints [1; 2]; ints [3; 4]; ints [5; 6]; ints [7; 8]]
         (ints [0; 1; 0; 1]) (ints [1; 1]) (Qc_of 1 10)
     = [(12689659 # 20000)%Q; (368452203 # 500000)%Q].
Proof.
  split; [|split; vm_compute; reflexivity].
  intros context features features_T labels weights learning_rate scale.
  destruct (update_weights context features features_T labels weights
              learning_rate scale) as [w|e] eqn:H; [exfalso | exists e; reflexivity].
  rewrite update_weights_unfold in H.
  bind_inv H predictions Hpred. bind_inv H labels' Hlab. bind_inv H pl Hpl.
  bind_inv H st Hst. destruct st as [fT gradient_results].
  unfold predict_cipher_weights in Hpred.
  bind_inv Hpred lin Hlin.
  change sigmoid_coeffs with (OK table3) in Hpred. rewrite bind_OK in Hpred.
  change (vec_size table3 - 1) with 3 in Hpred.
  apply Horner_table3_level in Hpred.
  apply sub_level in Hpl.
  destruct features_T as [|c0 rest].
  - (* no weight: nothing to add *)
    unfold for_range in Hst. simpl in Hst. injection Hst as <- <-.
    simpl in H. discriminate.
  - rewrite for_range_cons in Hst by (unfold vec_size; simpl; lia).
    bind_inv Hst st1 Hst1.
    eapply gradient_body_fails; [|exact Hst1]. lia.
Qed.

(** ** The linear transform of [predict_cipher_weights] *)

(** C3, on the code: with three rows and two weights, slot 2 of the
    linear transform holds 6, the last product of row 2 alone, and not the
    inner product 11 of row 2 with the weights: the dot product leaves the
    full sum in the first [num_weights] slots only. *)
Theorem linear_transform_row_beyond_weights :
  exists lintransf_vec,
    linear_transform context8 rows3x2 weights11 2 base_scale = OK lintransf_vec
    /\ slot (ct_slots lintransf_vec) 0 = Qc_of 3 1
    /\ slot (ct_slots lintransf_vec) 1 = Qc_of 7 1
    /\ slot (ct_slots lintransf_vec) 2 = Qc_of 6 1
    /\ inner_product (ct_slots (fresh context8 (ints [5; 6])))
         (ct_slots weights11) 2 = Qc_of 11 1.
Proof.
  eexists. split; [vm_compute; reflexivity|].
  repeat split; apply Qc_is_canon; reflexivity.
Qed.

(** ** [train_cipher] *)





(** ** Instances *)

Lemma get_diagonal_entries_matrix3 :
  exists d,
    get_diagonal 0 1 matrix3 = OK d
    /\ length d = 3%nat
    /\ forall i : nat, (i < 3)%nat ->
         is_Some (d !! i)
         /\ d !! i = entry matrix3 i (Z.to_nat ((Z.of_nat i + 1) mod Z.of_nat 3)).
Proof.
  apply (get_diagonal_entries 0 3 1 matrix3).
  - split; [reflexivity|]. repeat constructor.
  - unfold INT_MAX. lia.
  - lia.
Defined.

Lemma power_levels_log2_up_7 :
  exists levels,
    power_levels 7 = OK levels
    /\ vec_get levels 7 = OK 3
    /\ Z.log2_up 7 <= horner_power_level 7.
Proof.
  destruct (power_levels_log2_up 7 ltac:(lia)) as (levels & H1 & H2 & H3 & _).
  exists levels. split; [exact H1|]. split; [exact H2|]. apply H3. lia.
Defined.

Lemma split_always_found_7 :
  (forall i, 2 <= i <= 7 ->
     exists levels minlevel cand,
       (l0 ← init_levels 7; for_range 2 (i - 1) level_step l0) = OK levels
       /\ split_search levels i = OK (minlevel, cand)
       /\ 1 <= cand /\ minlevel < i)
  /\ (forall ctx powers, not_runtime (compute_all_powers ctx 7 powers)).
Proof.
  apply (split_always_found 7). lia.
Defined.

(** * More of the program *)

(** ** Loops that fill a vector *)

(** A loop that assigns [res[i] = g i] for [i] from 0 to [n - 1]. *)
Lemma for_range_fill {A : Type} (g : Z -> result A) (h : nat -> A) (n : nat)
  (init : list A) :
  length init = n ->
  (forall i, (i < n)%nat -> g (Z.of_nat i) = OK (h i)) ->
  for_range 0 (Z.of_nat n - 1) (fun i res => x ← g i; vec_set res i x) init
  = OK (h <$> seq 0 n).
Proof.
  intros Hlen Hg.
  assert (forall k, (k <= n)%nat ->
            for_range 0 (Z.of_nat k - 1) (fun i res => x ← g i; vec_set res i x) init
            = OK ((h <$> seq 0 k) ++ drop k init)) as Hk.
  { induction k as [|k IH]; intros Hle.
    - rewrite for_range_empty by lia. rewrite drop_0. reflexivity.
    - rewrite for_range_snoc by lia.
      replace (Z.of_nat (S k) - 1 - 1) with (Z.of_nat k - 1) by lia.
      rewrite IH by lia. rewrite bind_OK.
      replace (Z.of_nat (S k) - 1) with (Z.of_nat k) by lia.
      rewrite Hg by lia. rewrite bind_OK.
      rewrite vec_set_insert
        by (rewrite length_app, length_fmap, length_seq, length_drop; lia).
      f_equal. rewrite seq_S, fmap_app. simpl.
      rewrite <- (Nat.add_0_r k) at 1.
      replace k with (length (h <$> seq 0 k)) at 1
        by (rewrite length_fmap, length_seq; reflexivity).
      rewrite insert_app_r.
      destruct (drop k init) as [|y rest] eqn:Hd.
      + apply (f_equal length) in Hd. rewrite length_drop in Hd. simpl in Hd. lia.
      + simpl. rewrite <- app_assoc. simpl. f_equal. f_equal.
        replace (S k) with (k + 1)%nat by lia.
        rewrite <- drop_drop, Hd. reflexivity. }
  rewrite Hk by lia. rewrite drop_ge by lia. rewrite app_nil_r. reflexivity.
Qed.

(** ** Diagonals at every offset *)

Section MoreDiagonals.
Context {T : Type}.
Variable T0 : T.

(** [get_diagonal] for every offset from 0 up to [n] itself. *)
Lemma get_diagonal_run (n q : nat) (M : list (list T)) :
  square n M -> Z.of_nat n <= INT_MAX -> (q <= n)%nat ->
  exists d,
    get_diagonal T0 (Z.of_nat q) M = OK d
    /\ length d = n
    /\ forall i : nat, (i < n)%nat ->
         d !! i = entry M i ((i + q) mod n)%nat.
Proof.
  intros Hsq Hn Hq. pose proof Hsq as [Hlen _].
  unfold get_diagonal, vec_size. rewrite Hlen.
  rewrite (size_t_of_small (Z.of_nat q)) by lia.
  rewrite (size_t_of_small (Z.of_nat n - Z.of_nat q)) by lia.
  rewrite (int_of_small (Z.of_nat n - Z.of_nat q)) by lia.
  destruct (copy_loop_rounds
              (fun i j => (size_t_of i <? Z.of_nat n - Z.of_nat q)
                          && (size_t_of j <? Z.of_nat n))
              n M (n - q)%nat Hsq (S n) 0%nat q 0%nat (replicate n T0))
    as (d1 & Hrun1 & Hlen1 & Hin1 & Hout1).
  - lia.
  - intros t Ht. rewrite !size_t_of_small by lia.
    apply andb_true_intro. split; apply Z.ltb_lt; lia.
  - rewrite !size_t_of_small by lia.
    apply andb_false_intro1. apply Z.ltb_ge. lia.
  - lia.
  - lia.
  - rewrite length_replicate. lia.
  - change 0 with (Z.of_nat 0). rewrite Hrun1, bind_OK.
    replace (Z.of_nat n - Z.of_nat q) with (Z.of_nat (n - q)) by lia.
    destruct (copy_loop_rounds
                (fun i j => (size_t_of i <? Z.of_nat n) && (j <? Z.of_nat q))
                n M q Hsq (S n) (n - q)%nat 0%nat (n - q)%nat d1)
      as (d2 & Hrun2 & Hlen2 & Hin2 & Hout2).
    + lia.
    + intros t Ht. rewrite !size_t_of_small by lia.
      apply andb_true_intro. split; apply Z.ltb_lt; lia.
    + apply andb_false_intro2. apply Z.ltb_ge. lia.
    + lia.
    + lia.
    + rewrite Hlen1, length_replicate. lia.
    + change (0 + (n - q))%nat with (n - q)%nat.
      change (Z.of_nat 0) with 0 in *.
      rewrite Hrun2, bind_OK. exists d2.
      assert (length d2 = n) as Hl2 by (rewrite Hlen2, Hlen1; apply length_replicate).
      split; [reflexivity|]. split; [exact Hl2|].
      intros i Hi.
      destruct (decide (i < n - q)%nat) as [Hlt|Hge].
      * rewrite Hout2 by lia.
        specialize (Hin1 i Hlt). simpl in Hin1. rewrite Hin1.
        f_equal. rewrite Nat.mod_small by lia. lia.
      * specialize (Hin2 (i - (n - q))%nat ltac:(lia)).
        replace (n - q + (i - (n - q)))%nat with i in Hin2 by lia.
        rewrite Hin2. f_equal.
        replace (i + q)%nat with ((i - (n - q)) + 1 * n)%nat by lia.
        rewrite Nat.Div0.mod_add, Nat.mod_small by lia. lia.
Qed.

(** X1: the offset [n] itself is accepted and gives the main diagonal
    again, like the offset 0. *)
Theorem get_diagonal_full_offset (n : nat) (M : list (list T)) :
  square n M -> Z.of_nat n <= INT_MAX ->
  exists d,
    get_diagonal T0 (Z.of_nat n) M = OK d
    /\ get_diagonal T0 0 M = OK d
    /\ length d = n
    /\ forall i : nat, (i < n)%nat -> d !! i = entry M i i.
Proof.
  intros Hsq Hn.
  destruct (get_diagonal_run n n M Hsq Hn ltac:(lia)) as (d & Hd & Hlen & Hent).
  destruct (get_diagonal_run n 0 M Hsq Hn ltac:(lia)) as (d' & Hd' & Hlen' & Hent').
  assert (d' = d) as ->.
  { apply list_eq. intros i. destruct (decide (i < n)%nat) as [Hi|Hi].
    - rewrite Hent, Hent' by exact Hi.
      rewrite Nat.add_0_r, Nat.mod_small by lia.
      replace (i + n)%nat with (i + 1 * n)%nat by lia.
      rewrite Nat.Div0.mod_add, Nat.mod_small by lia. reflexivity.
    - rewrite !lookup_ge_None_2 by lia. reflexivity. }
  exists d. split; [exact Hd|]. split; [exact Hd'|]. split; [exact Hlen|].
  intros i Hi. rewrite Hent by exact Hi.
  replace (i + n)%nat with (i + 1 * n)%nat by lia.
  rewrite Nat.Div0.mod_add, Nat.mod_small by lia. reflexivity.
Qed.

(** X2: an [int] offset below 0 or above [n] is not refused: neither loop
    runs and the result is the vector of [n] value-initialised entries,
    whatever the matrix holds. *)
Theorem get_diagonal_outside (position : Z) (M : list (list T)) :
  Z.of_nat (length M) <= INT_MAX ->
  - INT_MAX - 1 <= position <= INT_MAX ->
  position < 0 \/ Z.of_nat (length M) < position ->
  get_diagonal T0 position M = OK (replicate (length M) T0).
Proof.
  intros Hn Hint Hout. unfold get_diagonal, vec_size. simpl copy_loop.
  assert (position < 0 -> size_t_of position = position + 18446744073709551616)
    as Hneg.
  { intros Hlt. unfold size_t_of. symmetry.
    apply (Z.mod_unique _ _ (-1)); unfold INT_MAX in *; lia. }
  assert (0 <= position -> size_t_of position = position) as Hpos.
  { intros Hle. unfold size_t_of. apply Z.mod_small. unfold INT_MAX in *. lia. }
  assert ((size_t_of 0 <? size_t_of (Z.of_nat (length M) - size_t_of position))
          && (size_t_of position <? Z.of_nat (length M)) = false) as ->.
  { apply andb_false_intro2. apply Z.ltb_ge.
    destruct (Z.lt_ge_cases position 0) as [Hlt|Hge].
    - rewrite Hneg by exact Hlt. unfold INT_MAX in *. lia.
    - rewrite Hpos by exact Hge. lia. }
  rewrite bind_OK.
  assert ((size_t_of
             (int_of (size_t_of (Z.of_nat (length M) - size_t_of position)))
           <? Z.of_nat (length M)) && (0 <? position) = false) as ->.
  { destruct Hout as [Hlt|Hbig].
    - apply andb_false_intro2. apply Z.ltb_ge. lia.
    - apply andb_false_intro1. apply Z.ltb_ge.
      rewrite Hpos by lia.
      assert (size_t_of (Z.of_nat (length M) - position)
              = Z.of_nat (length M) - position + 18446744073709551616) as ->.
      { unfold size_t_of. symmetry.
        apply (Z.mod_unique _ _ (-1)); unfold INT_MAX in *; lia. }
      assert (int_of (Z.of_nat (length M) - position + 18446744073709551616)
              = Z.of_nat (length M) - position) as ->.
      { unfold int_of.
        rewrite <- (Z.mod_unique
                      (Z.of_nat (length M) - position + 18446744073709551616
                       + 2147483648) 4294967296 4294967296
                      (Z.of_nat (length M) - position + 2147483648));
          unfold INT_MAX in *; lia. }
      assert (size_t_of (Z.of_nat (length M) - position)
              = Z.of_nat (length M) - position + 18446744073709551616) as ->.
      { unfold size_t_of. symmetry.
        apply (Z.mod_unique _ _ (-1)); unfold INT_MAX in *; lia. }
      unfold INT_MAX in *. lia. }
  reflexivity.
Qed.

(** The diagonals of a square matrix, all at once. *)
Lemma get_all_diagonals_run (n : nat) (M : list (list T)) :
  square n M -> Z.of_nat n <= INT_MAX ->
  exists D,
    get_all_diagonals T0 M = OK D
    /\ length D = n
    /\ forall p : nat, (p < n)%nat ->
         exists d, D !! p = Some d /\ length d = n
           /\ forall i : nat, (i < n)%nat -> d !! i = entry M i ((i + p) mod n)%nat.
Proof.
  intros Hsq Hn. pose proof Hsq as [Hlen _].
  unfold get_all_diagonals, vec_size. rewrite Hlen.
  set (h := fun p : nat =>
              match get_diagonal T0 (Z.of_nat p) M with
              | OK d => d
              | Fail _ => []
              end).
  rewrite (for_range_fill (fun i => get_diagonal T0 i M) h n).
  - eexists. split; [reflexivity|]. split.
    + rewrite length_fmap, length_seq. reflexivity.
    + intros p Hp. exists (h p). split.
      * rewrite list_lookup_fmap, lookup_seq_lt by lia. reflexivity.
      * unfold h.
        destruct (get_diagonal_run n p M Hsq Hn ltac:(lia)) as (d & -> & Hl & He).
        auto.
  - apply length_replicate.
  - intros p Hp. unfold h.
    destruct (get_diagonal_run n p M Hsq Hn ltac:(lia)) as (d & -> & _).
    reflexivity.
Qed.

(** X3: [get_all_diagonals] of an [n] x [n] matrix returns [n] vectors of
    length [n], and the matrix can be read back from them: the entry
    [M[i][j]] is entry [i] of the diagonal at offset [(j - i) mod n]. *)
Theorem get_all_diagonals_read_back (n : nat) (M : list (list T)) :
  square n M -> Z.of_nat n <= INT_MAX ->
  exists D,
    get_all_diagonals T0 M = OK D
    /\ square n D
    /\ forall i j : nat, (i < n)%nat -> (j < n)%nat ->
         is_Some (entry M i j)
         /\ entry D ((j + (n - i)) mod n)%nat i = entry M i j.
Proof.
  intros Hsq Hn.
  destruct (get_all_diagonals_run n M Hsq Hn) as (D & HD & Hlen & Hdiag).
  exists D. split; [exact HD|]. split.
  - split; [exact Hlen|]. rewrite Forall_forall. intros d Hd.
    apply list_elem_of_In in Hd. apply list_elem_of_lookup in Hd as [p Hp].
    destruct (Hdiag p) as (d' & Hd' & Hl & _).
    + apply lookup_lt_Some in Hp. lia.
    + congruence.
  - intros i j Hi Hj.
    destruct (entry_square n M i j Hsq Hi Hj) as (row & x & _ & _ & Hent).
    split; [rewrite Hent; eauto|].
    assert ((j + (n - i)) mod n < n)%nat as Hp by (apply Nat.mod_upper_bound; lia).
    destruct (Hdiag _ Hp) as (d & Hd & Hl & He).
    unfold entry at 1. rewrite Hd. simpl. rewrite He by exact Hi. f_equal.
    rewrite Nat.Div0.add_mod_idemp_r.
    replace (i + (j + (n - i)))%nat with (j + 1 * n)%nat by lia.
    rewrite Nat.Div0.mod_add. apply Nat.mod_small. exact Hj.
Qed.

End MoreDiagonals.

(** ** [rotate_vec] *)

Section RotateVec.
Context {T : Type}.
Variable T0 : T.

Lemma rotate_vec_run (v : list T) (r : Z) :
  0 <= r <= vec_size v -> vec_size v + r <= INT_MAX ->
  rotate_vec T0 v r = OK (rotate (Z.to_nat r) v).
Proof.
  unfold vec_size. intros Hr Hmax. unfold rotate_vec, vec_size.
  rewrite (size_t_of_small r) by lia.
  destruct (Z.ltb_spec (Z.of_nat (length v)) r) as [Hlt|_]; [lia|].
  set (n := length v).
  set (h := fun i : nat =>
              match v !! Z.to_nat ((Z.of_nat i + r) mod Z.of_nat n) with
              | Some x => x
              | None => T0
              end).
  rewrite (for_range_fill
             (fun i => vec_get v (size_t_of (i + r) mod Z.of_nat n)) h n).
  - f_equal. apply list_eq. intros i.
    destruct (decide (i < n)%nat) as [Hi|Hi].
    + rewrite list_lookup_fmap, lookup_seq_lt by lia. simpl.
      rewrite lookup_rotate_r by exact Hi. unfold rotate_nat_add, h.
      fold n. rewrite Z2Nat.id by lia.
      replace (r + Z.of_nat i) with (Z.of_nat i + r) by lia.
      destruct (lookup_lt_is_Some_2 v (Z.to_nat ((Z.of_nat i + r) mod Z.of_nat n)))
        as [x Hx].
      * pose proof (Z.mod_pos_bound (Z.of_nat i + r) (Z.of_nat n) ltac:(lia)).
        fold n. lia.
      * rewrite Hx. reflexivity.
    + rewrite !lookup_ge_None_2; [reflexivity| |].
      * rewrite length_rotate. fold n. lia.
      * rewrite length_fmap, length_seq. lia.
  - apply length_replicate.
  - intros i Hi. unfold h.
    rewrite size_t_of_small by (fold n in Hmax; lia).
    pose proof (Z.mod_pos_bound (Z.of_nat i + r) (Z.of_nat n) ltac:(lia)) as Hb.
    destruct (lookup_lt_is_Some_2 v (Z.to_nat ((Z.of_nat i + r) mod Z.of_nat n)))
      as [x Hx]; [fold n; lia|].
    rewrite Hx. apply vec_get_run; [lia | exact Hx].
Qed.

(** X4: for [0 <= r <= n] ([n] the length, [n + r] within [int])
    [rotate_vec] returns a vector of the same length whose entry [i] is
    entry [(i + r) mod n] of the input, a rotation to the left by [r]. *)
Theorem rotate_vec_entries (v : list T) (r : nat) :
  (r <= length v)%nat -> vec_size v + Z.of_nat r <= INT_MAX ->
  exists w,
    rotate_vec T0 v (Z.of_nat r) = OK w
    /\ length w = length v
    /\ forall i : nat, (i < length v)%nat ->
         w !! i = v !! ((i + r) mod length v)%nat.
Proof.
  intros Hr Hmax. eexists. split.
  - apply rotate_vec_run; unfold vec_size in *; lia.
  - split; [apply length_rotate|]. intros i Hi.
    rewrite lookup_rotate_r by exact Hi. f_equal.
    unfold rotate_nat_add. rewrite Nat2Z.id.
    rewrite <- Nat2Z.inj_add, <- Nat2Z.inj_mod, Nat2Z.id. f_equal. lia.
Qed.

(** X5: a count above the length makes [rotate_vec] exit, and so does
    every negative count: compared with [input_vec.size()] it converts to
    a [size_t] above any length. *)
Theorem rotate_vec_exits (v : list T) (r : Z) :
  vec_size v <= INT_MAX -> - INT_MAX - 1 <= r <= INT_MAX ->
  r < 0 \/ vec_size v < r ->
  rotate_vec T0 v r = Fail ProcessExit.
Proof.
  unfold vec_size. intros Hn Hint Hout. unfold rotate_vec, vec_size.
  assert (Z.of_nat (length v) < size_t_of r) as Hlt.
  { destruct Hout as [Hneg|Hbig].
    - assert (size_t_of r = r + 18446744073709551616) as ->.
      { unfold size_t_of. symmetry.
        apply (Z.mod_unique _ _ (-1)); unfold INT_MAX in *; lia. }
      unfold INT_MAX in *. lia.
    - rewrite size_t_of_small by lia. exact Hbig. }
  apply Z.ltb_lt in Hlt. rewrite Hlt. reflexivity.
Qed.

(** X6: rotating by [r] and then by [n - r] gives the input back. *)
Theorem rotate_vec_round_trip (v : list T) (r : Z) :
  0 <= r <= vec_size v -> 2 * vec_size v <= INT_MAX ->
  (w ← rotate_vec T0 v r; rotate_vec T0 w (vec_size v - r)) = OK v.
Proof.
  unfold vec_size. intros Hr Hmax.
  rewrite rotate_vec_run by (unfold vec_size; lia).
  rewrite bind_OK.
  rewrite rotate_vec_run by (unfold vec_size; rewrite length_rotate; lia).
  f_equal. apply list_eq. intros i.
  destruct (decide (i < length v)%nat) as [Hi|Hi].
  - rewrite lookup_rotate_r by (rewrite length_rotate; exact Hi).
    rewrite length_rotate.
    rewrite lookup_rotate_r by (apply rotate_nat_add_lt; lia).
    f_equal. unfold rotate_nat_add.
    rewrite (Z2Nat.id r), (Z2Nat.id (Z.of_nat (length v) - r)) by lia.
    rewrite Z2Nat.id by (apply Z.mod_pos_bound; lia).
    rewrite Z.add_mod_idemp_r by lia.
    replace (r + (Z.of_nat (length v) - r + Z.of_nat i))
      with (Z.of_nat i + 1 * Z.of_nat (length v)) by lia.
    rewrite Z.mod_add by lia. rewrite Z.mod_small by lia. lia.
  - rewrite !lookup_ge_None_2; [reflexivity|lia|].
    rewrite !length_rotate. lia.
Qed.

End RotateVec.

(** ** [transpose_matrix] *)

(** A counting loop with an invariant. *)
Lemma for_range_inv {St : Type} (P : nat -> St -> Prop) (n : nat)
  (body : Z -> St -> result St) (s : St) :
  P 0%nat s ->
  (forall i t, (i < n)%nat -> P i t ->
     exists t', body (Z.of_nat i) t = OK t' /\ P (S i) t') ->
  exists t, for_range 0 (Z.of_nat n - 1) body s = OK t /\ P n t.
Proof.
  intros H0 Hstep.
  assert (forall k, (k <= n)%nat ->
            exists t, for_range 0 (Z.of_nat k - 1) body s = OK t /\ P k t) as Hk.
  { induction k as [|k IH]; intros Hle.
    - exists s. split; [apply for_range_empty; lia | exact H0].
    - destruct (IH ltac:(lia)) as (t & Ht & HP).
      destruct (Hstep k t ltac:(lia) HP) as (t' & Ht' & HP').
      exists t'. split; [|exact HP'].
      rewrite for_range_snoc by lia.
      replace (Z.of_nat (S k) - 1 - 1) with (Z.of_nat k - 1) by lia.
      rewrite Ht, bind_OK.
      replace (Z.of_nat (S k) - 1) with (Z.of_nat k) by lia. exact Ht'. }
  apply Hk. lia.
Qed.

Lemma entry_rect {T : Type} (r c : nat) (U : list (list T)) (i j : nat) :
  rect r c U -> (i < r)%nat -> (j < c)%nat ->
  exists row x, U !! i = Some row /\ row !! j = Some x /\ entry U i j = Some x.
Proof.
  intros [Hlen Hrows] Hi Hj.
  destruct (lookup_lt_is_Some_2 U i) as [row Hrow]; [lia|].
  assert (length row = c) as Hr.
  { rewrite Forall_forall in Hrows. apply Hrows.
    apply list_elem_of_In. eapply list_elem_of_lookup_2. exact Hrow. }
  destruct (lookup_lt_is_Some_2 row j) as [x Hx]; [lia|].
  exists row, x. split; [exact Hrow|]. split; [exact Hx|].
  unfold entry. rewrite Hrow. simpl. exact Hx.
Qed.

Section Transpose.
Context {T : Type}.
Variable T0 : T.

Lemma transpose_body_run (r c : nat) (M : list (list T)) (i j : nat)
  (t : list (list T)) :
  rect r c M -> (i < r)%nat -> (j < c)%nat ->
  transposed_upto r c M i j t ->
  exists t', transpose_body M (Z.of_nat i) (Z.of_nat j) t = OK t'
             /\ transposed_upto r c M i (S j) t'.
Proof.
  intros Hrect Hi Hj [Hlen Hinv].
  destruct (entry_rect r c M i j Hrect Hi Hj) as (row & x & Hrow & Hx & Hent).
  destruct (Hinv j Hj) as (trow & Htrow & Hl & Hold).
  unfold transpose_body.
  rewrite (vec_get_lookup _ _ _ Hrow), bind_OK.
  rewrite (vec_get_lookup _ _ _ Hx), bind_OK.
  rewrite (vec_get_lookup _ _ _ Htrow), bind_OK.
  rewrite vec_set_insert by lia. rewrite bind_OK.
  rewrite vec_set_insert by lia.
  eexists. split; [reflexivity|]. split.
  - rewrite length_insert. exact Hlen.
  - intros j' Hj'. destruct (decide (j' = j)) as [->|Hne].
    + exists (<[i := x]> trow). split.
      * apply list_lookup_insert_eq. lia.
      * split; [rewrite length_insert; exact Hl|].
        intros i' Hi' Hc. destruct (decide (i' = i)) as [->|Hni].
        -- rewrite list_lookup_insert_eq by lia. symmetry. exact Hent.
        -- rewrite list_lookup_insert_ne by congruence. apply Hold; lia.
    + destruct (Hinv j' Hj') as (trow' & Ht' & Hl' & Hold').
      exists trow'. split.
      * rewrite list_lookup_insert_ne by congruence. exact Ht'.
      * split; [exact Hl'|]. intros i' Hi' Hc. apply Hold'; lia.
Qed.

Lemma transpose_matrix_run (r c : nat) (M : list (list T)) :
  rect r c M -> (0 < r)%nat ->
  Z.of_nat r <= INT_MAX -> Z.of_nat c <= INT_MAX ->
  exists t, transpose_matrix T0 M = OK t
            /\ rect c r t
            /\ forall i j, (i < r)%nat -> (j < c)%nat -> entry t j i = entry M i j.
Proof.
  intros Hrect Hr Hrmax Hcmax. pose proof Hrect as [Hlen Hrows].
  destruct (lookup_lt_is_Some_2 M 0%nat) as [first Hfirst]; [lia|].
  assert (length first = c) as Hfc.
  { rewrite Forall_forall in Hrows. apply Hrows.
    apply list_elem_of_In. eapply list_elem_of_lookup_2. exact Hfirst. }
  unfold transpose_matrix, vec_size.
  rewrite (vec_get_run M 0 first ltac:(lia) Hfirst), bind_OK.
  rewrite Hlen, Hfc, !int_of_small by lia.
  unfold vec_make.
  destruct (Z.ltb_spec (Z.of_nat r) 0) as [?|_]; [lia|]. rewrite bind_OK.
  destruct (Z.ltb_spec (Z.of_nat c) 0) as [?|_]; [lia|]. rewrite bind_OK.
  rewrite !Nat2Z.id.
  destruct (for_range_inv (fun i => transposed_upto r c M i 0) r
              (fun i transposed =>
                 for_range 0 (Z.of_nat c - 1) (transpose_body M i) transposed)
              (replicate c (replicate r T0)))
    as (t & Ht & [Htl Hinv]).
  - split; [apply length_replicate|]. intros j' Hj'.
    exists (replicate r T0). split; [apply lookup_replicate_2; lia|].
    split; [apply length_replicate|]. intros i' _ Hc. lia.
  - intros i t Hi Hinv.
    destruct (for_range_inv (fun j => transposed_upto r c M i j) c
                (transpose_body M (Z.of_nat i)) t Hinv)
      as (t' & Ht' & [Htl' Hinv']).
    + intros j t1 Hj H1. apply (transpose_body_run r c); assumption.
    + exists t'. split; [exact Ht'|]. split; [exact Htl'|].
      intros j' Hj'. destruct (Hinv' j' Hj') as (trow & Htrow & Hl & Hold).
      exists trow. split; [exact Htrow|]. split; [exact Hl|].
      intros i' Hi' Hc. apply Hold; lia.
  - exists t. split; [exact Ht|]. split.
    + split; [exact Htl|]. rewrite Forall_forall. intros trow Hin.
      apply list_elem_of_In in Hin. apply list_elem_of_lookup in Hin as [j Hj].
      destruct (Hinv j) as (trow' & Ht' & Hl & _).
      * apply lookup_lt_Some in Hj. lia.
      * congruence.
    + intros i j Hi Hj. destruct (Hinv j Hj) as (trow & Htrow & Hl & Hold).
      unfold entry at 1. rewrite Htrow. simpl. apply Hold; lia.
Qed.

(** Two matrices of one shape with the same entries are equal. *)
Lemma rect_ext (r c : nat) (A B : list (list T)) :
  rect r c A -> rect r c B ->
  (forall i j, (i < r)%nat -> (j < c)%nat -> entry A i j = entry B i j) ->
  A = B.
Proof.
  intros HA HB Hent. apply list_eq. intros i.
  destruct (decide (i < r)%nat) as [Hi|Hi].
  - destruct HA as [HAl HAr], HB as [HBl HBr].
    destruct (lookup_lt_is_Some_2 A i) as [a Ha]; [lia|].
    destruct (lookup_lt_is_Some_2 B i) as [b Hb]; [lia|].
    rewrite Ha, Hb. f_equal.
    assert (length a = c) as Hla.
    { rewrite Forall_forall in HAr. apply HAr.
      apply list_elem_of_In. eapply list_elem_of_lookup_2. exact Ha. }
    assert (length b = c) as Hlb.
    { rewrite Forall_forall in HBr. apply HBr.
      apply list_elem_of_In. eapply list_elem_of_lookup_2. exact Hb. }
    apply list_eq. intros j. destruct (decide (j < c)%nat) as [Hj|Hj].
    + specialize (Hent i j Hi Hj). unfold entry in Hent.
      rewrite Ha, Hb in Hent. exact Hent.
    + rewrite !lookup_ge_None_2 by lia. reflexivity.
  - destruct HA as [HAl _], HB as [HBl _].
    rewrite !lookup_ge_None_2 by lia. reflexivity.
Qed.

(** X7: for a matrix of [r >= 1] rows and [c] columns [transpose_matrix]
    returns a matrix of [c] rows and [r] columns whose entry [(j, i)] is
    the entry [(i, j)] of the input. *)
Theorem transpose_matrix_entries (r c : nat) (M : list (list T)) :
  rect r c M -> (0 < r)%nat ->
  Z.of_nat r <= INT_MAX -> Z.of_nat c <= INT_MAX ->
  exists t, transpose_matrix T0 M = OK t
            /\ rect c r t
            /\ forall i j, (i < r)%nat -> (j < c)%nat ->
                 is_Some (entry M i j) /\ entry t j i = entry M i j.
Proof.
  intros Hrect Hr Hrmax Hcmax.
  destruct (transpose_matrix_run r c M Hrect Hr Hrmax Hcmax) as (t & Ht & Hs & He).
  exists t. split; [exact Ht|]. split; [exact Hs|].
  intros i j Hi Hj. split; [|apply He; assumption].
  destruct (entry_rect r c M i j Hrect Hi Hj) as (row & x & _ & _ & Hent).
  rewrite Hent. eauto.
Qed.

(** X8: transposing twice gives the matrix back, when it has at least one
    row and one column. *)
Theorem transpose_matrix_involutive (r c : nat) (M : list (list T)) :
  rect r c M -> (0 < r)%nat -> (0 < c)%nat ->
  Z.of_nat r <= INT_MAX -> Z.of_nat c <= INT_MAX ->
  (t ← transpose_matrix T0 M; transpose_matrix T0 t) = OK M.
Proof.
  intros Hrect Hr Hc Hrmax Hcmax.
  destruct (transpose_matrix_run r c M Hrect Hr Hrmax Hcmax) as (t & Ht & Hs & He).
  destruct (transpose_matrix_run c r t Hs Hc Hcmax Hrmax) as (u & Hu & Hsu & Heu).
  rewrite Ht, bind_OK, Hu. f_equal.
  apply (rect_ext r c); [exact Hsu | exact Hrect |].
  intros i j Hi Hj. rewrite Heu by assumption. apply He; assumption.
Qed.

(** X9: on a matrix whose rows are empty the transposed matrix has no row,
    and transposing that again reads [input_matrix[0]] of an empty vector. *)
Theorem transpose_matrix_empty_rows (r : nat) :
  (0 < r)%nat -> Z.of_nat r <= INT_MAX ->
  transpose_matrix T0 (replicate r []) = OK []
  /\ transpose_matrix T0 [] = Fail OutOfRange.
Proof.
  intros Hr Hmax. split; [|reflexivity].
  destruct (transpose_matrix_run r 0 (replicate r []))
    as (t & Ht & [Hl _] & _); try lia.
  - split; [apply length_replicate|]. apply Forall_replicate. reflexivity.
  - rewrite Ht. f_equal. destruct t; [reflexivity | discriminate].
Qed.

End Transpose.

(** ** Levels on the training path *)

(** A round of the loop of [Horner_sigmoid_approx] leaves the accumulator
    below both of its operands. *)
Lemma horner_step_levels i cx temp pcs cx' temp' pcs' :
  horner_step i (cx, temp, pcs) = OK (cx', temp', pcs') ->
  (S (ct_level temp') <= ct_level temp)%nat
  /\ (S (ct_level temp') <= ct_level cx)%nat
  /\ (S (ct_level temp') <= ct_level cx')%nat.
Proof.
  unfold horner_step. intros H.
  bind_inv H al Hal. destruct al as [cx1 temp1].
  bind_inv H t1 Ht1. bind_inv H t2 Ht2. bind_inv H t3 Ht3.
  bind_inv H c1 Hc1. bind_inv H c2 Hc2. bind_inv H p1 Hp1.
  bind_inv H t4 Ht4. injection H as <- <- <-.
  apply multiply_level in Ht1 as [Ht1 Heq]. apply relinearize_level in Ht2.
  apply rescale_to_next_level in Ht3. apply add_plain_level in Ht4.
  simpl in Ht4.
  assert ((ct_level temp1 <= ct_level temp)%nat
          /\ (ct_level cx1 <= ct_level cx)%nat) as [Hle Hle'].
  { revert Hal. case_bool_decide; [|case_bool_decide].
    - intros Hal. bind_inv Hal c0 Hc0. injection Hal as <- <-.
      apply mod_switch_to_level in Hc0. lia.
    - intros Hal. bind_inv Hal c0 Hc0. injection Hal as <- <-.
      apply mod_switch_to_level in Hc0. lia.
    - intros [= <- <-]. lia. }
  lia.
Qed.

Lemma horner_rounds_levels (k : nat) : forall cx temp pcs cx' temp' pcs',
  for_range_down (Z.of_nat k - 1) 0 horner_step (cx, temp, pcs)
    = OK (cx', temp', pcs') ->
  (1 <= k)%nat ->
  (ct_level temp' + k <= ct_level temp)%nat
  /\ (ct_level temp' + k <= ct_level cx)%nat.
Proof.
  induction k as [|k IH]; intros cx temp pcs cx' temp' pcs' H Hk; [lia|].
  rewrite for_range_down_cons in H. bind_inv H st Hst.
  destruct st as [[cx1 temp1] pcs1].
  apply horner_step_levels in Hst as (H1 & H2 & H3).
  destruct k as [|k].
  - unfold for_range_down in H. simpl in H. injection H as <- <- <-. lia.
  - apply IH in H; lia.
Qed.

(** X10: a polynomial of degree [d >= 1] cannot be evaluated on an input
    with fewer than [d] levels left, nor in a context with fewer than [d]
    levels below the first one: [Horner_sigmoid_approx] then fails in the
    backend. *)
Theorem Horner_sigmoid_approx_needs_levels (context : SEALContext)
  (x : Ciphertext) (d : nat) (coeffs : list Qc) (scale : Qc) :
  (1 <= d)%nat -> length coeffs = S d ->
  (ct_level x < d)%nat \/ (first_level context < d)%nat ->
  exists e,
    Horner_sigmoid_approx context x (Z.of_nat d) coeffs scale = Fail e.
Proof.
  intros Hd Hlen Hlow.
  destruct (Horner_sigmoid_approx context x (Z.of_nat d) coeffs scale)
    as [r|e] eqn:H; [exfalso | exists e; reflexivity].
  rewrite Horner_sigmoid_approx_unfold in H.
  destruct (encode_loop_run context coeffs scale (S d) (S d))
    as (pcs & Hrun & _ & Hin); [lia..|].
  replace (Z.of_nat (S d) - 1) with (Z.of_nat d) in Hrun by lia.
  replace (Z.to_nat (Z.of_nat d + 1)) with (S d) in H by lia.
  rewrite Hrun, bind_OK in H.
  rewrite (vec_get_lookup pcs d _ (Hin d ltac:(lia))), bind_OK in H.
  bind_inv H st Hst. destruct st as [[cx' temp'] pcs']. injection H as <-.
  apply horner_rounds_levels in Hst; [|exact Hd].
  cbn [encrypt encode_value ct_level pt_level] in Hst. lia.
Qed.

(** X11: [cipher_dot_product] returns only on two operands of one common
    level that is not the last one, and its result is exactly one level
    below them, whatever [size] is. *)
Theorem cipher_dot_product_levels (context : SEALContext) (a b c : Ciphertext)
  (size : Z) :
  cipher_dot_product context a b size = OK c ->
  ct_level a = ct_level b /\ ct_level a = S (ct_level c).
Proof.
  intros H. split; [|eapply cipher_dot_product_level; exact H].
  rewrite cipher_dot_product_unfold in H.
  bind_inv H m1 Hm1. apply multiply_level in Hm1 as [_ Heq]. exact Heq.
Qed.

(** ** [train_cipher] *)

(** [update_weights] fails, whatever it is given. *)
Lemma update_weights_fails context features features_T labels weights
  learning_rate scale :
  exists e,
    update_weights context features features_T labels weights learning_rate
      scale = Fail e.
Proof.
  destruct (update_weights context features features_T labels weights
              learning_rate scale) as [w|e] eqn:H; [exfalso | exists e; reflexivity].
  rewrite update_weights_unfold in H.
  bind_inv H predictions Hpred. bind_inv H labels' Hlab. bind_inv H pl Hpl.
  bind_inv H st Hst. destruct st as [fT gradient_results].
  unfold predict_cipher_weights in Hpred.
  bind_inv Hpred lin Hlin.
  change sigmoid_coeffs with (OK table3) in Hpred. rewrite bind_OK in Hpred.
  change (vec_size table3 - 1) with 3 in Hpred.
  apply Horner_table3_level in Hpred.
  apply sub_level in Hpl.
  destruct features_T as [|c0 rest].
  - unfold for_range in Hst. simpl in Hst. injection Hst as <- <-.
    simpl in H. discriminate.
  - rewrite for_range_cons in Hst by (unfold vec_size; simpl; lia).
    bind_inv Hst st1 Hst1.
    eapply gradient_body_fails; [|exact Hst1]. lia.
Qed.

(** X12: [train_cipher] returns exactly when it is asked for no round
    ([iters <= 0]), and then it returns the weights it was given; with
    [iters >= 1] the first round already fails. *)
Theorem train_cipher_rounds (context : SEALContext)
  (features features_T : list Ciphertext) (labels weights : Ciphertext)
  (learning_rate : Qc) (iters : Z) (scale : Qc) :
  (iters <= 0
   /\ train_cipher context features features_T labels weights learning_rate
        iters scale = OK weights)
  \/ (1 <= iters
      /\ exists e,
           train_cipher context features features_T labels weights
             learning_rate iters scale = Fail e).
Proof.
  destruct (Z.le_gt_cases iters 0) as [Hle|Hgt].
  - left. split; [exact Hle|]. unfold train_cipher, train_rounds.
    rewrite for_range_empty by lia. rewrite bind_OK. reflexivity.
  - right. split; [lia|]. unfold train_cipher, train_rounds.
    rewrite for_range_cons by lia.
    destruct (update_weights_fails context features features_T labels weights
                learning_rate scale) as [e He].
    exists e.
    assert (train_round context learning_rate scale
              {| ts_features := features; ts_features_T := features_T;
                 ts_labels := labels; ts_new_weights := weights |} = Fail e) as ->.
    { unfold train_round. cbn [ts_features ts_features_T ts_labels ts_new_weights].
      rewrite He. apply bind_Fail. }
    rewrite !bind_Fail. reflexivity.
Qed.

(** ** Sums of ciphertexts *)

Lemma add_fold_run (N l : nat) (s : Qc) (z : nat) :
  forall (rest : list Ciphertext) (acc : Ciphertext),
    uniform N l s z acc -> Forall (uniform N l s z) rest ->
    exists c,
      foldM (fun x destination => add destination x) rest acc = OK c
      /\ uniform N l s z c
      /\ forall j, slot (ct_slots c) j
                   = (slot (ct_slots acc) j
                      + Qc_sum (fun k => slot_of rest k j) (length rest))%Qc.
Proof.
  induction rest as [|x rest IH]; intros acc Hacc Hrest.
  - exists acc. split; [reflexivity|]. split; [exact Hacc|].
    intros j. simpl. ring.
  - pose proof (Forall_inv Hrest) as Hx. apply Forall_inv_tail in Hrest.
    destruct Hacc as (Ha1 & Ha2 & Ha3 & Ha4), Hx as (Hx1 & Hx2 & Hx3 & Hx4).
    rewrite foldM_cons, add_run by congruence. rewrite bind_OK.
    destruct (IH {| ct_slots := zip_with Qcplus (ct_slots acc) (ct_slots x);
                    ct_level := ct_level acc; ct_scale := ct_scale acc;
                    ct_size := Nat.max (ct_size acc) (ct_size x) |})
      as (c & Hc & Hu & Hs).
    + repeat split; proj_simpl; try assumption.
      * rewrite length_zip_with. lia.
      * lia.
    + exact Hrest.
    + exists c. split; [exact Hc|]. split; [exact Hu|].
      intros j. rewrite Hs. proj_simpl.
      rewrite slot_zip_with by (congruence || ring).
      set (f := fun k => slot_of (x :: rest) k j).
      change (length (x :: rest)) with (S (length rest)).
      rewrite <- (Qc_sum_shift f (length rest)). unfold f, slot_of. simpl. ring.
Qed.

(** [add_many] on operands of one shape: the slot-wise sum. *)
Lemma add_many_run (N l : nat) (s : Qc) (z : nat) (cs : list Ciphertext) :
  (0 < length cs)%nat -> Forall (uniform N l s z) cs ->
  exists c,
    add_many cs = OK c
    /\ uniform N l s z c
    /\ forall j, slot (ct_slots c) j
                 = Qc_sum (fun k => slot_of cs k j) (length cs).
Proof.
  intros Hne Hall. destruct cs as [|c0 rest]; [simpl in Hne; lia|].
  pose proof (Forall_inv Hall) as H0. pose proof (Forall_inv_tail Hall) as Hrest.
  destruct (add_fold_run N l s z rest c0 H0 Hrest) as (c & Hc & Hu & Hs).
  exists c. split; [exact Hc|]. split; [exact Hu|].
  intros j. rewrite Hs.
  set (f := fun k => slot_of (c0 :: rest) k j).
  change (length (c0 :: rest)) with (S (length rest)).
  rewrite <- (Qc_sum_shift f (length rest)). unfold f, slot_of. simpl. ring.
Qed.

(** A sum with one non-zero term. *)
Lemma Qc_sum_single (f : nat -> Qc) (j n : nat) :
  Qc_sum (fun k => if decide (k = j) then f k else 0%Qc) n
  = if decide (j < n)%nat then f j else 0%Qc.
Proof.
  induction n as [|n IH]; simpl.
  - destruct (decide (j < 0)%nat); [lia | reflexivity].
  - rewrite IH.
    destruct (decide (n = j)) as [->|Hne].
    + destruct (decide (j < j)%nat); [lia|].
      destruct (decide (j < S j)%nat); [ring | lia].
    + destruct (decide (j < n)%nat); destruct (decide (j < S n)%nat);
        try lia; ring.
Qed.

(** The slots of an encoded unit mask. *)
Lemma mask_slot (r N i j : nat) :
  (i < r)%nat ->
  slot (<[i := 1%Qc]> (replicate r 0%Qc) ++ replicate (N - r) 0%Qc) j
  = if decide (j = i) then 1%Qc else 0%Qc.
Proof.
  intros Hi. unfold slot.
  destruct (decide (j < r)%nat) as [Hj|Hj].
  - rewrite lookup_app_l by (rewrite length_insert, length_replicate; lia).
    destruct (decide (j = i)) as [->|Hne].
    + rewrite list_lookup_insert_eq by (rewrite length_replicate; lia). reflexivity.
    + rewrite list_lookup_insert_ne by congruence.
      rewrite lookup_replicate_2 by lia. reflexivity.
  - destruct (decide (j = i)) as [->|_]; [lia|].
    rewrite lookup_app_r by (rewrite length_insert, length_replicate; lia).
    rewrite length_insert, length_replicate.
    destruct (replicate (N - r) 0%Qc !! (j - r)%nat) as [y|] eqn:Hy; [|reflexivity].
    apply lookup_replicate in Hy as [-> _]. reflexivity.
Qed.

(** ** [predict_cipher_weights] on no more rows than weights *)

Section Predict.
Variable context : SEALContext.
Local Abbreviation N := (slot_count context).
Local Abbreviation L := (first_level context).

(** The linear transformation over [r <= n] rows: a well-formed result two
    levels below the first, slot [i] the inner product of row [i] with the
    weights. *)
Lemma linear_transform_run (rows : list Ciphertext) (w : Ciphertext) (n : nat) :
  (0 < length rows <= n)%nat -> (2 * n <= N)%nat -> (2 <= L)%nat ->
  Forall (operand context n) rows -> operand context n w ->
  exists c,
    linear_transform context rows w (Z.of_nat n) base_scale = OK c
    /\ well_formed context c
    /\ ct_level c = (L - 2)%nat
    /\ forall i row, rows !! i = Some row ->
         slot (ct_slots c) i = inner_product (ct_slots row) (ct_slots w) n.
Proof.
  intros Hr HN HL Hrows (Hw & Hwl & Hwz).
  set (r := length rows).
  set (ip := fun i => inner_product (ct_slots (default Ciphertext0 (rows !! i)))
                        (ct_slots w) n).
  set (good := fun (i : nat) (R : Ciphertext) =>
                 uniform N (L - 1) (base_scale * base_scale)%Qc 2 R
                 /\ forall j, (j < N)%nat ->
                      slot (ct_slots R) j = if decide (j = i) then ip i else 0%Qc).
  unfold linear_transform, vec_size. fold r. rewrite Nat2Z.id.
  match goal with
  | |- context [for_range 0 _ ?body ?init] =>
      destruct (for_range_inv
                  (fun i results =>
                     length results = r
                     /\ forall k, (k < i)%nat ->
                          exists R, results !! k = Some R /\ good k R)
                  r body init) as (results & Hres & Hlen & Hgood)
  end.
  - split; [apply length_replicate|]. intros k Hk. lia.
  - intros i t Hi [Htl Ht].
    destruct (lookup_lt_is_Some_2 rows i) as [row Hrow]; [fold r; lia|].
    assert (operand context n row) as (Hrw & Hrl & Hrz).
    { rewrite Forall_forall in Hrows. apply Hrows.
      apply list_elem_of_In. eapply list_elem_of_lookup_2. exact Hrow. }
    rewrite (vec_get_lookup _ _ _ Hrow), bind_OK.
    destruct (cipher_dot_product_run context row w n Hrw Hw
                ltac:(congruence) ltac:(lia) HN Hrz Hwz)
      as (c & Hc & (Hc1 & Hc2 & Hc3) & Hcl & Hcs).
    rewrite Hc, bind_OK.
    rewrite vec_set_insert by (rewrite length_replicate; lia). rewrite bind_OK.
    unfold encode. rewrite length_insert, length_replicate.
    rewrite bool_decide_eq_true_2 by lia. rewrite bind_OK.
    unfold mod_switch_to_next_plain. proj_simpl.
    destruct L as [|L'] eqn:HLe; [lia|]. rewrite bind_OK.
    rewrite multiply_plain_run by (proj_simpl; lia). rewrite bind_OK.
    rewrite vec_set_insert by lia.
    eexists. split; [reflexivity|]. split; [rewrite length_insert; exact Htl|].
    intros k Hk. destruct (decide (k = i)) as [->|Hne].
    + eexists. split; [apply list_lookup_insert_eq; lia|].
      split.
      * repeat split; proj_simpl.
        -- rewrite length_zip_with, length_app, length_insert, !length_replicate. lia.
        -- lia.
        -- rewrite Hc2. reflexivity.
        -- exact Hc3.
      * intros j Hj. proj_simpl.
        rewrite slot_zip_with.
        -- rewrite mask_slot by lia. destruct (decide (j = i)) as [->|_]; [|ring].
           rewrite Hcs by lia. unfold ip. rewrite Hrow. simpl. ring.
        -- rewrite length_app, length_insert, !length_replicate. lia.
        -- ring.
    + rewrite list_lookup_insert_ne by congruence. apply Ht. lia.
  - rewrite Hres, bind_OK.
    destruct (add_many_run N (L - 1) (base_scale * base_scale)%Qc 2 results)
      as (c & Hc & (Hc1 & Hc2 & Hc3 & Hc4) & Hcs).
    + lia.
    + rewrite Forall_forall. intros R HR.
      apply list_elem_of_In in HR. apply list_elem_of_lookup in HR as [k Hk].
      destruct (Hgood k) as (R' & HR' & Hg & _).
      * apply lookup_lt_Some in Hk. lia.
      * congruence.
    + rewrite Hc, bind_OK.
      rewrite relinearize_run by lia. rewrite bind_OK.
      rewrite (rescale_to_next_run _ (L - 2)) by (proj_simpl; lia).
      rewrite bind_OK. proj_simpl.
      rewrite Hc3, rescaled_square_scale, manual_rescale_base.
      rewrite assign_scale_base by reflexivity. proj_simpl.
      eexists. split; [reflexivity|].
      split; [repeat split; proj_simpl; auto|].
      split; [reflexivity|].
      intros i row Hrow. proj_simpl. rewrite Hcs, Hlen.
      assert (i < r)%nat as Hi by (apply lookup_lt_Some in Hrow; exact Hrow).
      rewrite (Qc_sum_ext _ (fun k => if decide (k = i) then ip k else 0%Qc)).
      * rewrite Qc_sum_single. destruct (decide (i < r)%nat); [|lia].
        unfold ip. rewrite Hrow. reflexivity.
      * intros k Hk. destruct (Hgood k Hk) as (R & HR & _ & Hs).
        unfold slot_of. rewrite HR. simpl. rewrite Hs by lia.
        destruct (decide (i = k)) as [e|e], (decide (k = i)) as [e'|e'];
          congruence || reflexivity.
Qed.

(** X13: on [r >= 1] rows and [n >= r] weights, all fresh at the first
    level [L >= 5] with nothing beyond their first [n] slots and
    [2 n <= N], [predict_cipher_weights] returns a ciphertext five levels
    down whose slot [i] is the degree-3 sigmoid polynomial of the inner
    product of row [i] with the weights, for every row [i]. *)
Theorem predict_cipher_weights_rows (rows : list Ciphertext) (w : Ciphertext)
  (n : nat) :
  (0 < length rows <= n)%nat -> (2 * n <= N)%nat -> (5 <= L)%nat ->
  Forall (operand context n) rows -> operand context n w ->
  exists p,
    predict_cipher_weights context rows w (Z.of_nat n) base_scale = OK p
    /\ ct_level p = (L - 5)%nat
    /\ forall i row, rows !! i = Some row ->
         slot (ct_slots p) i
         = poly_eval table3 (inner_product (ct_slots row) (ct_slots w) n).
Proof.
  intros Hr HN HL Hrows Hw.
  destruct (linear_transform_run rows w n Hr HN ltac:(lia) Hrows Hw)
    as (c & Hc & Hcw & Hcl & Hcs).
  unfold predict_cipher_weights. rewrite Hc, bind_OK.
  change sigmoid_coeffs with (OK table3). rewrite bind_OK.
  change (vec_size table3 - 1) with (Z.of_nat 3).
  destruct (Horner_sigmoid_approx_run context table3 c 3 Hcw eq_refl
              ltac:(lia) ltac:(lia)) as (p & Hp & _ & Hpl & Hps).
  exists p. split; [exact Hp|]. split.
  - rewrite Hpl. destruct (decide (3 = 0)%nat); lia.
  - intros i row Hrow. rewrite Hps.
    + rewrite (Hcs i row Hrow). reflexivity.
    + apply lookup_lt_Some in Hrow. lia.
Qed.


End Predict.

(** ** [Tree_sigmoid_approx] *)

Section Tree.
Variable context : SEALContext.
Local Abbreviation N := (slot_count context).
Variable ctx : Ciphertext.
Hypothesis ctx_well_formed : well_formed context ctx.

(** All the powers that [compute_all_powers] leaves. *)
Lemma compute_all_powers_all (d : Z) (powers : list Ciphertext) :
  1 <= d -> Z.log2_up d <= Z.of_nat (ct_level ctx) ->
  exists ps ls,
    compute_all_powers ctx d powers = OK (ps, ls)
    /\ powers_ok context ctx d ps.
Proof.
  intros Hd Hdepth. unfold compute_all_powers.
  rewrite vec_set_run by (rewrite length_vec_resize; lia). rewrite bind_OK.
  destruct (init_levels_run d Hd) as (l0 & Hinit & Hlen0 & Hok0).
  rewrite Hinit, bind_OK.
  destruct (compute_all_powers_prefix context ctx d
              (<[Z.to_nat 1 := ctx]> (vec_resize Ciphertext0 powers (d + 1))) l0
              Hd Hinit) with (t := Z.to_nat d)
    as (ps & ls & Hrun & Hlp & Hll & Hok & Hpow).
  - rewrite length_insert. apply length_vec_resize.
  - intros k Hk1 Hk. assert (k = 1%nat) as -> by lia. exists ctx. split.
    + apply list_lookup_insert_eq. rewrite length_vec_resize. lia.
    + split; [exact ctx_well_formed|].
      split; [change (Z.log2_up (Z.of_nat 1)) with 0; lia|].
      intros j Hj. simpl. ring.
  - lia.
  - rewrite Z2Nat.id by lia. exact Hdepth.
  - rewrite Z2Nat.id in * by lia.
    exists ps, ls. split; [exact Hrun | exact Hpow].
Qed.

Variable coeffs : list Qc.

(** The first loop, on coefficients that are not zero. *)
Lemma tree_encode_loop_run (scale : Qc) (len : nat) :
  (forall i x, coeffs !! i = Some x -> x <> 0%Qc) ->
  forall k : nat, (k <= len)%nat -> (k <= length coeffs)%nat ->
    exists pcs,
      for_range 0 (Z.of_nat k - 1) (tree_encode_body context coeffs scale)
        (replicate len Plaintext0) = OK pcs
      /\ length pcs = len
      /\ forall i, (i < k)%nat ->
           pcs !! i = Some (encode_value context (slot coeffs i) scale).
Proof.
  intros Hnz.
  induction k as [|k IH]; intros Hk Hc.
  - exists (replicate len Plaintext0). split; [apply for_range_empty; lia|].
    split; [apply length_replicate|]. intros i Hi. lia.
  - destruct (IH ltac:(lia) ltac:(lia)) as (pcs & Hrun & Hlen & Hin).
    destruct (lookup_lt_is_Some_2 coeffs k) as [x Hx]; [lia|].
    exists (<[k := encode_value context x scale]> pcs).
    split; [|split].
    + rewrite for_range_snoc by lia.
      replace (Z.of_nat (S k) - 1 - 1) with (Z.of_nat k - 1) by lia.
      rewrite Hrun, bind_OK.
      replace (Z.of_nat (S k) - 1) with (Z.of_nat k) by lia.
      unfold tree_encode_body.
      rewrite (vec_get_lookup _ _ _ Hx), bind_OK.
      rewrite bool_decide_eq_false_2 by (eapply Hnz; exact Hx).
      apply vec_set_insert. lia.
    + rewrite length_insert. exact Hlen.
    + intros i Hi. destruct (decide (i = k)) as [->|Hne].
      * rewrite list_lookup_insert_eq by lia.
        rewrite (slot_lookup _ _ _ Hx). reflexivity.
      * rewrite list_lookup_insert_ne by congruence. apply Hin. lia.
Qed.

(** One round of the summation loop. *)
Lemma tree_sum_body_run (powers : list Ciphertext) (i : nat) (p enc : Ciphertext)
  (pcs : list Plaintext) :
  powers !! i = Some p -> power_ok context ctx i p ->
  pcs !! i = Some (encode_value context (slot coeffs i) base_scale) ->
  well_formed context enc ->
  (ct_level p <= first_level context)%nat ->
  (1 <= ct_level p <= S (ct_level enc))%nat ->
  exists enc' pcs',
    tree_sum_body powers (Z.of_nat i) (enc, pcs) = OK (enc', pcs')
    /\ well_formed context enc'
    /\ ct_level enc' = (ct_level p - 1)%nat
    /\ length pcs' = length pcs
    /\ (forall k, k <> i -> pcs' !! k = pcs !! k)
    /\ forall j, (j < N)%nat ->
         slot (ct_slots enc') j
         = (slot (ct_slots enc) j + slot coeffs i * slot (ct_slots ctx) j ^ i)%Qc.
Proof.
  intros Hp ((Hp1 & Hp2 & Hp3) & Hpl & Hps) Hc (He1 & He2 & He3) Hfl Hlv.
  unfold tree_sum_body, encode_value in *.
  rewrite (vec_get_lookup _ _ _ Hp), bind_OK.
  rewrite (vec_get_lookup _ _ _ Hc), bind_OK.
  rewrite mod_switch_to_plain_run by exact Hfl. rewrite bind_OK.
  rewrite vec_set_insert by (apply lookup_lt_Some in Hc; exact Hc).
  rewrite bind_OK.
  rewrite multiply_plain_run by reflexivity. rewrite bind_OK.
  rewrite (rescale_to_next_run _ (ct_level p - 1)) by (proj_simpl; lia).
  rewrite bind_OK. proj_simpl.
  rewrite mod_switch_to_run by lia. rewrite bind_OK. proj_simpl.
  rewrite He2, manual_rescale_base.
  rewrite assign_scale_base by reflexivity. proj_simpl.
  rewrite manual_rescale_base.
  rewrite assign_scale_base
    by (proj_simpl; rewrite Hp2; apply rescaled_square_scale).
  proj_simpl.
  rewrite add_run by reflexivity. rewrite bind_OK. proj_simpl.
  eexists _, _. split; [reflexivity|].
  split.
  { repeat split; proj_simpl; auto.
    - rewrite length_zip_with, length_zip_with, length_replicate. lia.
    - lia. }
  split; [reflexivity|].
  split; [apply length_insert|].
  split; [intros k Hk; apply list_lookup_insert_ne; congruence|].
  intros j Hj. proj_simpl.
  rewrite slot_zip_with.
  - rewrite slot_zip_with by (rewrite ?length_replicate; congruence || ring).
    rewrite slot_replicate by exact Hj. rewrite Hps by exact Hj. ring.
  - rewrite length_zip_with, length_replicate. lia.
  - ring.
Qed.

Lemma log2_up_mono_nat (a b : nat) :
  (a <= b)%nat -> Z.log2_up (Z.of_nat a) <= Z.log2_up (Z.of_nat b).
Proof. intros H. apply Z.log2_up_le_mono. lia. Qed.

(** The summation loop up to the index [t]. *)
Lemma tree_sum_loop_run (d : nat) (powers : list Ciphertext)
  (enc0 : Ciphertext) (pcs0 : list Plaintext) :
  powers_ok context ctx (Z.of_nat d) powers ->
  (forall i, (i <= d)%nat ->
     pcs0 !! i = Some (encode_value context (slot coeffs i) base_scale)) ->
  well_formed context enc0 -> ct_level enc0 = first_level context ->
  (forall j, (j < N)%nat -> slot (ct_slots enc0) j = slot coeffs 0) ->
  (ct_level ctx <= first_level context)%nat ->
  Z.log2_up (Z.of_nat d) + 1 <= Z.of_nat (ct_level ctx) ->
  forall t : nat, (t <= d)%nat ->
    exists enc pcs,
      for_range 1 (Z.of_nat t) (tree_sum_body powers) (enc0, pcs0) = OK (enc, pcs)
      /\ well_formed context enc
      /\ Z.of_nat (ct_level enc)
         = (if decide (t = 0%nat) then Z.of_nat (first_level context)
            else Z.of_nat (ct_level ctx) - Z.log2_up (Z.of_nat t) - 1)
      /\ (forall i, (t < i <= d)%nat ->
            pcs !! i = Some (encode_value context (slot coeffs i) base_scale))
      /\ forall j, (j < N)%nat ->
           slot (ct_slots enc) j
           = Qc_sum (fun i => slot coeffs i * slot (ct_slots ctx) j ^ i)%Qc (S t).
Proof.
  intros Hpow Hpcs Hwf Hl0 Hs0 Hfl Hdepth.
  induction t as [|t IH]; intros Ht.
  - exists enc0, pcs0. split; [apply for_range_empty; lia|].
    split; [exact Hwf|]. split; [simpl; lia|].
    split; [intros i Hi; apply Hpcs; lia|].
    intros j Hj. rewrite Hs0 by exact Hj. simpl. ring.
  - destruct (IH ltac:(lia)) as (enc & pcs & Hrun & Hew & Hel & Hrest & Hes).
    destruct (Hpow (S t) ltac:(lia) ltac:(lia)) as (p & Hp & Hpok).
    pose proof Hpok as (_ & Hplev & _).
    pose proof (log2_up_mono_nat (S t) d ltac:(lia)) as Hm1.
    pose proof (log2_up_mono_nat t (S t) ltac:(lia)) as Hm2.
    pose proof (Z.log2_up_nonneg (Z.of_nat (S t))) as Hnn.
    destruct (tree_sum_body_run powers (S t) p enc pcs Hp Hpok
                (Hrest (S t) ltac:(lia)) Hew)
      as (enc' & pcs' & Hstep & Hew' & Hel' & Hlen' & Hkeep & Hes').
    + lia.
    + destruct (decide (t = 0%nat)); lia.
    + exists enc', pcs'. split.
      * rewrite for_range_snoc by lia.
        replace (Z.of_nat (S t) - 1) with (Z.of_nat t) by lia.
        rewrite Hrun, bind_OK. exact Hstep.
      * split; [exact Hew'|]. split.
        -- destruct (decide (S t = 0%nat)); lia.
        -- split.
           ++ intros i Hi. rewrite Hkeep by lia. apply Hrest. lia.
           ++ intros j Hj. rewrite Hes' by exact Hj.
              rewrite Hes by exact Hj. reflexivity.
Qed.

End Tree.

(** X15: for a degree [d >= 1], coefficients that are all non-zero and a
    well-formed input with at least [ceil(log2 d) + 1] levels left,
    [Tree_sigmoid_approx] returns a well-formed ciphertext that holds
    [p(x_j)] in every slot [j], exactly [ceil(log2 d) + 1] levels below
    the input. *)
Theorem Tree_sigmoid_approx_poly_eval (context : SEALContext) (ctx : Ciphertext)
  (coeffs : list Qc) (d : nat) :
  well_formed context ctx ->
  (1 <= d)%nat -> length coeffs = S d ->
  (forall i x, coeffs !! i = Some x -> x <> 0%Qc) ->
  (ct_level ctx <= first_level context)%nat ->
  Z.log2_up (Z.of_nat d) + 1 <= Z.of_nat (ct_level ctx) ->
  exists r,
    Tree_sigmoid_approx context ctx (Z.of_nat d) base_scale coeffs = OK r
    /\ well_formed context r
    /\ Z.of_nat (ct_level r)
       = Z.of_nat (ct_level ctx) - (Z.log2_up (Z.of_nat d) + 1)
    /\ forall j, (j < slot_count context)%nat ->
         slot (ct_slots r) j = poly_eval coeffs (slot (ct_slots ctx) j).
Proof.
  intros Hwf Hd Hlen Hnz Hfl Hdepth. unfold Tree_sigmoid_approx, vec_make.
  destruct (Z.ltb_spec (Z.of_nat d + 1) 0) as [?|_]; [lia|].
  rewrite !bind_OK.
  replace (Z.to_nat (Z.of_nat d + 1)) with (S d) by lia.
  destruct (tree_encode_loop_run context coeffs base_scale (S d) Hnz (S d))
    as (pcs & Hrun & Hpl & Hin); [lia..|].
  replace (Z.of_nat (S d) - 1) with (Z.of_nat d) in Hrun by lia.
  rewrite Hrun, bind_OK.
  destruct (lookup_lt_is_Some_2 coeffs d) as [cd Hcd]; [lia|].
  rewrite (vec_get_lookup _ _ _ Hcd), !bind_OK.
  destruct (compute_all_powers_all context ctx Hwf (Z.of_nat d)
              (replicate (S d) Ciphertext0))
    as (ps & ls & Hps & Hpow); [lia..|].
  rewrite Hps, bind_OK.
  rewrite (vec_get_run pcs 0 _ ltac:(lia) (Hin 0%nat ltac:(lia))), bind_OK.
  destruct (tree_sum_loop_run context ctx coeffs d ps
              (encrypt (encode_value context (slot coeffs 0) base_scale)) pcs Hpow)
    with (t := d) as (enc & pcs' & Hloop & Hew & Hel & _ & Hes).
  - intros i Hi. apply Hin. lia.
  - repeat split; simpl. apply length_replicate.
  - reflexivity.
  - intros j Hj. simpl. apply slot_replicate. exact Hj.
  - exact Hfl.
  - exact Hdepth.
  - lia.
  - rewrite Hloop, bind_OK. exists enc. split; [reflexivity|].
    split; [exact Hew|]. split.
    + rewrite Hel. destruct (decide (d = 0%nat)); lia.
    + intros j Hj. rewrite Hes by exact Hj. unfold poly_eval.
      rewrite Hlen. reflexivity.
Qed.

(** ** Matrix by vector through the diagonals *)

(** A counting loop from [lo] with an invariant. *)
Lemma for_range_inv_from {St : Type} (lo : Z) (P : nat -> St -> Prop) (n : nat)
  (body : Z -> St -> result St) (s : St) :
  P 0%nat s ->
  (forall i t, (i < n)%nat -> P i t ->
     exists t', body (lo + Z.of_nat i) t = OK t' /\ P (S i) t') ->
  exists t, for_range lo (lo + Z.of_nat n - 1) body s = OK t /\ P n t.
Proof.
  intros H0 Hstep.
  assert (forall k, (k <= n)%nat ->
            exists t, for_range lo (lo + Z.of_nat k - 1) body s = OK t /\ P k t)
    as Hk.
  { induction k as [|k IH]; intros Hle.
    - exists s. split; [apply for_range_empty; lia | exact H0].
    - destruct (IH ltac:(lia)) as (t & Ht & HP).
      destruct (Hstep k t ltac:(lia) HP) as (t' & Ht' & HP').
      exists t'. split; [|exact HP'].
      rewrite for_range_snoc by lia.
      replace (lo + Z.of_nat (S k) - 1 - 1) with (lo + Z.of_nat k - 1) by lia.
      rewrite Ht, bind_OK.
      replace (lo + Z.of_nat (S k) - 1) with (lo + Z.of_nat k) by lia. exact Ht'. }
  apply Hk. lia.
Qed.

(** A sum over the [n] indices [(i + l) mod n] is the sum over all. *)
Lemma Qc_sum_mod (m : nat -> Qc) (n i : nat) :
  (i < n)%nat ->
  Qc_sum (fun l => m ((i + l) mod n)%nat) n = Qc_sum m n.
Proof.
  intros Hi. rewrite <- (Qc_sum_window m n i) by lia.
  apply Qc_sum_ext. intros l Hl.
  destruct (Nat.ltb_spec (i + l) n) as [Hlt|Hge].
  - rewrite Nat.mod_small by lia. reflexivity.
  - replace (i + l)%nat with ((i + l - n) + 1 * n)%nat at 1 by lia.
    rewrite Nat.Div0.mod_add, Nat.mod_small by lia. reflexivity.
Qed.

Lemma Forall_lookup_uniform {A : Type} (P : A -> Prop) (l : list A) (i : nat) (x : A) :
  Forall P l -> l !! i = Some x -> P x.
Proof.
  intros H Hx. rewrite Forall_forall in H. apply H.
  apply list_elem_of_In. eapply list_elem_of_lookup_2. exact Hx.
Qed.

Section LinearTransformPlain.
Variables (N lv : nat) (s s' : Qc).

(** [Linear_Transform_CipherMatrix_PlainVector] slot by slot. *)
Lemma Linear_Transform_CipherMatrix_PlainVector_run
  (P : list Plaintext) (D : list Ciphertext) :
  (0 < length P <= length D)%nat ->
  Forall (uniform N lv s 2) D -> Forall (uniform_plain N lv s') P ->
  exists c,
    Linear_Transform_CipherMatrix_PlainVector P D = OK c
    /\ uniform N lv (s * s')%Qc 2 c
    /\ forall j, slot (ct_slots c) j
                 = Qc_sum (fun l => slot_of D l j * plain_slot_of P l j)%Qc
                     (length P).
Proof.
  intros Hlen HD HP. unfold Linear_Transform_CipherMatrix_PlainVector, vec_size.
  destruct (for_range_inv
              (fun i res =>
                 length res = length P
                 /\ forall k, (k < i)%nat ->
                      exists R, res !! k = Some R
                        /\ uniform N lv (s * s')%Qc 2 R
                        /\ forall j, slot (ct_slots R) j
                                     = (slot_of D k j * plain_slot_of P k j)%Qc)
              (length P) (lt_plain_body P D) (replicate (length P) Ciphertext0))
    as (res & Hres & Hrl & Hgood).
  - split; [apply length_replicate|]. intros k Hk. lia.
  - intros i t Hi [Htl Ht].
    destruct (lookup_lt_is_Some_2 D i) as [d Hd]; [lia|].
    destruct (lookup_lt_is_Some_2 P i) as [p Hp]; [lia|].
    destruct (Forall_lookup_uniform _ _ _ _ HD Hd) as (Hd1 & Hd2 & Hd3 & Hd4).
    destruct (Forall_lookup_uniform _ _ _ _ HP Hp) as (Hp1 & Hp2 & Hp3).
    unfold lt_plain_body.
    rewrite (vec_get_lookup _ _ _ Hd), bind_OK.
    rewrite (vec_get_lookup _ _ _ Hp), bind_OK.
    rewrite multiply_plain_run by congruence. rewrite bind_OK.
    rewrite vec_set_insert by lia.
    eexists. split; [reflexivity|]. split; [rewrite length_insert; exact Htl|].
    intros k Hk. destruct (decide (k = i)) as [->|Hne].
    + eexists. split; [apply list_lookup_insert_eq; lia|]. split.
      * repeat split; proj_simpl; try congruence.
        rewrite length_zip_with. lia.
      * intros j. proj_simpl. rewrite slot_zip_with by (congruence || ring).
        unfold slot_of, plain_slot_of. rewrite Hd, Hp. reflexivity.
    + rewrite list_lookup_insert_ne by congruence. apply Ht. lia.
  - rewrite Hres, bind_OK.
    destruct (add_many_run N lv (s * s')%Qc 2 res) as (c & Hc & Hu & Hcs).
    + lia.
    + rewrite Forall_forall. intros R HR.
      apply list_elem_of_In in HR. apply list_elem_of_lookup in HR as [k Hk].
      destruct (Hgood k) as (R' & HR' & Hg & _).
      * apply lookup_lt_Some in Hk. lia.
      * congruence.
    + exists c. split; [exact Hc|]. split; [exact Hu|].
      intros j. rewrite Hcs, Hrl. apply Qc_sum_ext. intros k Hk.
      destruct (Hgood k Hk) as (R & HR & _ & Hs).
      unfold slot_of at 1. rewrite HR. simpl. apply Hs.
Qed.

(** X16: when [U_diagonals[l]] holds the diagonal of an [n] x [n] matrix
    [M] at offset [l] in its first [n] slots and [pt_rotations[l]] holds
    the vector [v] rotated to the left by [l], all of one level,
    [Linear_Transform_CipherMatrix_PlainVector] returns a ciphertext
    whose slot [i] is entry [i] of the product [M v], at the product of
    the two scales and with no level consumed. *)
Theorem Linear_Transform_CipherMatrix_PlainVector_mat_vec
  (M : list (list Qc)) (v : list Qc) (n : nat)
  (P : list Plaintext) (D : list Ciphertext) :
  (0 < n)%nat -> length P = n -> length D = n ->
  Forall (uniform N lv s 2) D -> Forall (uniform_plain N lv s') P ->
  (forall l i, (l < n)%nat -> (i < n)%nat ->
     slot_of D l i = mat M i ((i + l) mod n)%nat) ->
  (forall l i, (l < n)%nat -> (i < n)%nat ->
     plain_slot_of P l i = slot v ((i + l) mod n)%nat) ->
  exists c,
    Linear_Transform_CipherMatrix_PlainVector P D = OK c
    /\ ct_level c = lv /\ ct_scale c = (s * s')%Qc
    /\ forall i, (i < n)%nat -> slot (ct_slots c) i = mat_vec M v n i.
Proof.
  intros Hn HPl HDl HD HP Hdiag Hrot.
  destruct (Linear_Transform_CipherMatrix_PlainVector_run P D ltac:(lia) HD HP)
    as (c & Hc & (_ & Hl & Hs & _) & Hcs).
  exists c. split; [exact Hc|]. split; [exact Hl|]. split; [exact Hs|].
  intros i Hi. rewrite Hcs, HPl. unfold mat_vec.
  rewrite <- (Qc_sum_mod (fun j => mat M i j * slot v j)%Qc n i Hi).
  apply Qc_sum_ext. intros l Hl'. rewrite Hdiag, Hrot by assumption. reflexivity.
Qed.

End LinearTransformPlain.

Lemma int_of_neg_size (n : Z) :
  1 <= n <= INT_MAX -> int_of (size_t_of (- n)) = - n.
Proof.
  intros H. unfold INT_MAX in H.
  assert (size_t_of (- n) = 18446744073709551616 - n) as ->.
  { unfold size_t_of. symmetry. apply (Z.mod_unique _ _ (-1)); lia. }
  unfold int_of.
  rewrite <- (Z.mod_unique (18446744073709551616 - n + 2147483648) 4294967296
                4294967296 (2147483648 - n)); lia.
Qed.

Section LinearTransformCipher.
Variable context : SEALContext.
Local Abbreviation N := (slot_count context).
Variables (lv : nat) (s s' : Qc).

(** The input with its duplicate: the first [2 n] slots of [ct_new]. *)
Lemma duplicate_slots (v : list Qc) (n t : nat) :
  length v = N -> zero_beyond n v -> (0 < n)%nat -> (2 * n <= N)%nat ->
  (t < 2 * n)%nat ->
  slot (zip_with Qcplus v (rotate (Z.to_nat (- Z.of_nat n mod Z.of_nat N)) v)) t
  = slot v (t mod n)%nat.
Proof.
  intros Hlen Hz Hn HN Ht.
  rewrite slot_zip_with by (rewrite ?length_rotate; reflexivity || ring).
  rewrite slot_rotate by lia. rewrite Hlen.
  assert (- Z.of_nat n mod Z.of_nat N = Z.of_nat (N - n)) as ->.
  { symmetry. apply (Z.mod_unique _ _ (-1)); lia. }
  rewrite Nat2Z.id.
  destruct (decide (t < n)%nat) as [Hlt|Hge].
  - rewrite (Nat.mod_small (N - n + t)) by lia.
    rewrite (Hz (N - n + t)%nat) by lia.
    rewrite (Nat.mod_small t) by lia. ring.
  - rewrite (Hz t) by lia.
    replace (N - n + t)%nat with ((t - n) + 1 * N)%nat by lia.
    rewrite Nat.Div0.mod_add, Nat.mod_small by lia.
    replace t with ((t - n) + 1 * n)%nat at 2 by lia.
    rewrite Nat.Div0.mod_add, Nat.mod_small by lia. ring.
Qed.

(** X17: for a ciphertext [ct] that holds a vector [v] in its first [n]
    slots and zeros beyond, with [2 n <= N], and [n] ciphertexts of which
    the one at index [l] holds the diagonal of [M] at offset [l],
    [Linear_Transform_Cipher] returns a ciphertext whose slot [i] is entry
    [i] of [M v]; it is not relinearized nor rescaled (three polynomials,
    the product of the scales, the level of the operands). *)
Theorem Linear_Transform_Cipher_mat_vec (M : list (list Qc)) (n : nat)
  (ct : Ciphertext) (D : list Ciphertext) :
  (0 < n)%nat -> (2 * n <= N)%nat -> Z.of_nat n <= INT_MAX ->
  length D = n ->
  uniform N lv s 2 ct -> zero_beyond n (ct_slots ct) ->
  Forall (uniform N lv s' 2) D ->
  (forall l i, (l < n)%nat -> (i < n)%nat ->
     slot_of D l i = mat M i ((i + l) mod n)%nat) ->
  exists c,
    Linear_Transform_Cipher context ct D = OK c
    /\ ct_level c = lv /\ ct_scale c = (s * s')%Qc /\ ct_size c = 3%nat
    /\ forall i, (i < n)%nat ->
         slot (ct_slots c) i = mat_vec M (ct_slots ct) n i.
Proof.
  intros Hn HN Hmax HDl (Hc1 & Hc2 & Hc3 & Hc4) Hz HD Hdiag.
  unfold Linear_Transform_Cipher, vec_size. rewrite HDl.
  rewrite int_of_neg_size by lia.
  rewrite rotate_vector_run by lia. rewrite bind_OK.
  rewrite add_run by reflexivity. rewrite bind_OK. proj_simpl.
  set (cn := {| ct_slots :=
                  zip_with Qcplus (ct_slots ct)
                    (rotate (Z.to_nat (- Z.of_nat n mod Z.of_nat N)) (ct_slots ct));
                ct_level := ct_level ct; ct_scale := ct_scale ct;
                ct_size := Nat.max (ct_size ct) (ct_size ct) |}).
  assert (uniform N lv s 2 cn) as (Hn1 & Hn2 & Hn3 & Hn4).
  { repeat split; unfold cn; proj_simpl; try assumption.
    - rewrite length_zip_with, length_rotate. lia.
    - lia. }
  assert (forall t, (t < 2 * n)%nat ->
            slot (ct_slots cn) t = slot (ct_slots ct) (t mod n)%nat) as Hdup.
  { intros t Ht. unfold cn. proj_simpl. apply duplicate_slots; assumption. }
  set (good := fun (k : nat) (R : Ciphertext) =>
                 uniform N lv (s * s')%Qc 3 R
                 /\ forall j, (j < n)%nat ->
                      slot (ct_slots R) j
                      = (slot (ct_slots ct) ((j + k) mod n)%nat * slot_of D k j)%Qc).
  destruct (lookup_lt_is_Some_2 D 0%nat) as [d0 Hd0]; [lia|].
  destruct (Forall_lookup_uniform _ _ _ _ HD Hd0) as (Hd1 & Hd2 & Hd3 & Hd4).
  rewrite (vec_get_run D 0 d0 ltac:(lia) Hd0), bind_OK.
  rewrite multiply_run by congruence. rewrite bind_OK.
  rewrite vec_set_run by (rewrite length_replicate; lia). rewrite bind_OK.
  change (Z.to_nat 0) with 0%nat.
  match goal with
  | |- context [for_range 1 _ ?body ?init] =>
      destruct (for_range_inv_from 1
                  (fun i res =>
                     length res = n
                     /\ forall k, (k < S i)%nat ->
                          exists R, res !! k = Some R /\ good k R)
                  (n - 1) body init) as (res & Hres & Hrl & Hgood)
  end.
  - split; [rewrite length_insert; apply length_replicate|].
    intros k Hk. assert (k = 0%nat) as -> by lia.
    eexists. split; [apply list_lookup_insert_eq; rewrite length_replicate; lia|].
    split.
    + repeat split; proj_simpl; try congruence.
      * rewrite length_zip_with. lia.
      * rewrite Hn4, Hd4. reflexivity.
    + intros j Hj. proj_simpl. rewrite slot_zip_with by (congruence || ring).
      rewrite Hdup by lia. rewrite Nat.add_0_r.
      unfold slot_of. rewrite Hd0. reflexivity.
  - intros i t Hi [Htl Ht].
    destruct (lookup_lt_is_Some_2 D (S i)) as [d Hd]; [lia|].
    destruct (Forall_lookup_uniform _ _ _ _ HD Hd) as (He1 & He2 & He3 & He4).
    replace (1 + Z.of_nat i) with (Z.of_nat (S i)) by lia.
    unfold lt_body.
    rewrite rotate_vector_run by lia. rewrite bind_OK.
    rewrite (vec_get_lookup _ _ _ Hd), bind_OK.
    rewrite multiply_run by (proj_simpl; congruence). rewrite bind_OK.
    rewrite vec_set_insert by lia.
    eexists. split; [reflexivity|]. split; [rewrite length_insert; exact Htl|].
    intros k Hk. destruct (decide (k = S i)) as [->|Hne].
    + eexists. split; [apply list_lookup_insert_eq; lia|]. split.
      * repeat split; proj_simpl; try congruence.
        -- rewrite length_zip_with, length_rotate. lia.
        -- rewrite Hn4, He4. reflexivity.
      * intros j Hj. proj_simpl.
        rewrite slot_zip_with by (rewrite ?length_rotate; congruence || ring).
        rewrite slot_rotate by lia.
        rewrite Z.mod_small by lia. rewrite Nat2Z.id, Hn1.
        rewrite (Nat.mod_small (S i + j)) by lia.
        rewrite Hdup by lia.
        replace (S i + j)%nat with (j + S i)%nat by lia.
        unfold slot_of. rewrite Hd. reflexivity.
    + rewrite list_lookup_insert_ne by congruence. apply Ht. lia.
  - replace (1 + Z.of_nat (n - 1) - 1) with (Z.of_nat n - 1) in Hres by lia.
    rewrite Hres, bind_OK.
    destruct (add_many_run N lv (s * s')%Qc 3 res) as (c & Hc & Hu & Hcs).
    + lia.
    + rewrite Forall_forall. intros R HR.
      apply list_elem_of_In in HR. apply list_elem_of_lookup in HR as [k Hk].
      destruct (Hgood k) as (R' & HR' & Hg & _).
      * apply lookup_lt_Some in Hk. lia.
      * congruence.
    + destruct Hu as (_ & Hu2 & Hu3 & Hu4).
      exists c. split; [exact Hc|]. split; [exact Hu2|].
      split; [exact Hu3|]. split; [exact Hu4|].
      intros i Hi. rewrite Hcs, Hrl. unfold mat_vec.
      rewrite <- (Qc_sum_mod (fun j => mat M i j * slot (ct_slots ct) j)%Qc n i Hi).
      apply Qc_sum_ext. intros l Hl.
      destruct (Hgood l ltac:(lia)) as (R & HR & _ & Hs).
      unfold slot_of at 1. rewrite HR. simpl. rewrite Hs by exact Hi.
      rewrite Hdiag by assumption. ring.
Qed.

End LinearTransformCipher.

(** ** Packing a matrix of ciphertexts *)

Section MatrixPacking.
Variable context : SEALContext.
Local Abbreviation N := (slot_count context).

(** Row [i] moved to the right by [i * dim] slots. *)
Lemma shifted_row_slot (row : list Qc) (dim i j : nat) :
  length row = N -> zero_beyond dim row ->
  (1 <= i)%nat -> (i * dim + dim <= N)%nat -> (0 < dim)%nat -> (j < N)%nat ->
  slot (rotate (Z.to_nat ((Z.of_nat i * - Z.of_nat dim) mod Z.of_nat N)) row) j
  = if decide (i * dim <= j < i * dim + dim)%nat
    then slot row (j - i * dim) else 0%Qc.
Proof.
  intros Hlen Hz Hi HN Hdim Hj.
  assert (0 < i * dim)%nat as Hpos by nia.
  assert ((Z.of_nat i * - Z.of_nat dim) mod Z.of_nat N = Z.of_nat (N - i * dim)) as ->.
  { symmetry. apply (Z.mod_unique _ _ (-1)); nia. }
  rewrite Nat2Z.id. rewrite slot_rotate by lia. rewrite Hlen.
  destruct (decide (i * dim <= j < i * dim + dim)%nat) as [Hin|Hout].
  - replace (N - i * dim + j)%nat with ((j - i * dim) + 1 * N)%nat by lia.
    rewrite Nat.Div0.mod_add, Nat.mod_small by lia. reflexivity.
  - destruct (decide (j < i * dim)%nat) as [Hlt|Hge].
    + rewrite Nat.mod_small by lia. apply Hz. lia.
    + replace (N - i * dim + j)%nat with ((j - i * dim) + 1 * N)%nat by lia.
      rewrite Nat.Div0.mod_add, Nat.mod_small by lia. apply Hz. lia.
Qed.

(** [C_Matrix_Encode] slot by slot. *)
Lemma C_Matrix_Encode_run (lv : nat) (s : Qc) (rows : list Ciphertext) (dim : nat) :
  length rows = dim -> (0 < dim)%nat -> (dim * dim <= N)%nat ->
  Z.of_nat dim <= INT_MAX ->
  Forall (fun row => uniform N lv s 2 row /\ zero_beyond dim (ct_slots row)) rows ->
  exists c,
    C_Matrix_Encode context rows = OK c
    /\ uniform N lv s 2 c
    /\ (forall a b, (a < dim)%nat -> (b < dim)%nat ->
          slot (ct_slots c) (a * dim + b) = slot_of rows a b)
    /\ zero_beyond (dim * dim) (ct_slots c).
Proof.
  intros Hlen Hdim HN Hmax Hrows.
  set (good := fun (i : nat) (R : Ciphertext) =>
                 uniform N lv s 2 R
                 /\ forall j, (j < N)%nat ->
                      slot (ct_slots R) j
                      = if decide (i * dim <= j < i * dim + dim)%nat
                        then slot_of rows i (j - i * dim) else 0%Qc).
  unfold C_Matrix_Encode, vec_size. rewrite Hlen, int_of_small by lia.
  unfold vec_make. destruct (Z.ltb_spec (Z.of_nat dim) 0) as [?|_]; [lia|].
  rewrite bind_OK, Nat2Z.id.
  destruct (lookup_lt_is_Some_2 rows 0%nat) as [m0 Hm0]; [lia|].
  destruct (Forall_lookup_uniform _ _ _ _ Hrows Hm0) as [(Hu1 & Hu2 & Hu3 & Hu4) Hz0].
  rewrite (vec_get_run rows 0 m0 ltac:(lia) Hm0), bind_OK.
  rewrite vec_set_run by (rewrite length_replicate; lia). rewrite bind_OK.
  change (Z.to_nat 0) with 0%nat.
  destruct (for_range_inv_from 1
              (fun i res =>
                 length res = dim
                 /\ forall k, (k < S i)%nat ->
                      exists R, res !! k = Some R /\ good k R)
              (dim - 1) (encode_rot_body context rows (Z.of_nat dim))
              (<[0%nat := m0]> (replicate dim Ciphertext0)))
    as (res & Hres & Hrl & Hgood).
  - split; [rewrite length_insert; apply length_replicate|].
    intros k Hk. assert (k = 0%nat) as -> by lia.
    exists m0. split; [apply list_lookup_insert_eq; rewrite length_replicate; lia|].
    split; [repeat split; assumption|].
    intros j Hj. unfold slot_of. rewrite Hm0. simpl.
    destruct (decide (0 <= j < dim)%nat) as [Hin|Hout].
    + rewrite Nat.sub_0_r. reflexivity.
    + apply Hz0. lia.
  - intros i t Hi [Htl Ht].
    destruct (lookup_lt_is_Some_2 rows (S i)) as [m Hm]; [lia|].
    destruct (Forall_lookup_uniform _ _ _ _ Hrows Hm) as [(Hm1 & Hm2 & Hm3 & Hm4) Hz].
    replace (1 + Z.of_nat i) with (Z.of_nat (S i)) by lia.
    unfold encode_rot_body.
    rewrite (vec_get_lookup _ _ _ Hm), bind_OK.
    assert (S i * dim + dim <= N)%nat as Hfit by nia.
    rewrite rotate_vector_run by nia. rewrite bind_OK.
    rewrite vec_set_insert by lia.
    eexists. split; [reflexivity|]. split; [rewrite length_insert; exact Htl|].
    intros k Hk. destruct (decide (k = S i)) as [->|Hne].
    + eexists. split; [apply list_lookup_insert_eq; lia|]. split.
      * repeat split; proj_simpl; try assumption.
        rewrite length_rotate. exact Hm1.
      * intros j Hj. proj_simpl.
        rewrite shifted_row_slot by (assumption || lia).
        unfold slot_of. rewrite Hm. reflexivity.
    + rewrite list_lookup_insert_ne by congruence. apply Ht. lia.
  - replace (1 + Z.of_nat (dim - 1) - 1) with (Z.of_nat dim - 1) in Hres by lia.
    rewrite Hres, bind_OK.
    destruct (add_many_run N lv s 2 res) as (c & Hc & Hu & Hcs).
    + lia.
    + rewrite Forall_forall. intros R HR.
      apply list_elem_of_In in HR. apply list_elem_of_lookup in HR as [k Hk].
      destruct (Hgood k) as (R' & HR' & Hg & _).
      * apply lookup_lt_Some in Hk. lia.
      * congruence.
    + exists c. split; [exact Hc|]. split; [exact Hu|]. split.
      * intros a b Ha Hb. rewrite Hcs, Hrl.
        rewrite (Qc_sum_ext _ (fun k => if decide (k = a)
                                         then slot_of rows k b else 0%Qc)).
        -- rewrite Qc_sum_single. destruct (decide (a < dim)%nat); [reflexivity|lia].
        -- intros k Hk. destruct (Hgood k ltac:(lia)) as (R & HR & _ & Hs).
           unfold slot_of at 1. rewrite HR. simpl.
           rewrite Hs by nia.
           destruct (decide (k = a)) as [->|Hne].
           ++ destruct (decide (a * dim <= a * dim + b < a * dim + dim)%nat);
                [|lia].
              f_equal. lia.
           ++ destruct (decide (k * dim <= a * dim + b < k * dim + dim)%nat)
                as [Hin|_]; [|reflexivity].
              exfalso. apply Hne. nia.
      * intros j Hj.
        destruct (decide (j < N)%nat) as [HjN|HjN].
        -- rewrite Hcs, Hrl.
           rewrite (Qc_sum_ext _ (fun _ => 0%Qc)).
           ++ clear. induction dim as [|d IH]; simpl; [reflexivity|].
              rewrite IH. ring.
           ++ intros k Hk. destruct (Hgood k ltac:(lia)) as (R & HR & _ & Hs).
              unfold slot_of at 1. rewrite HR. simpl. rewrite Hs by exact HjN.
              destruct (decide (k * dim <= j < k * dim + dim)%nat)
                as [Hin|_]; [|reflexivity].
              exfalso. nia.
        -- apply slot_ge. destruct Hu as (Hu & _). lia.
Qed.

(** The mask of row [i]. *)
Lemma decode_mask_run (dim i : nat) :
  (i < dim)%nat ->
  exists mask,
    decode_mask (Z.of_nat dim) (Z.of_nat i) = OK mask
    /\ length mask = (dim * dim)%nat
    /\ forall k, slot mask k
                 = if decide (i * dim <= k < i * dim + dim)%nat
                   then 1%Qc else 0%Qc.
Proof.
  intros Hi. unfold decode_mask.
  replace (Z.to_nat (Z.of_nat dim * Z.of_nat dim)) with (dim * dim)%nat by lia.
  destruct (for_range_inv
              (fun j mask =>
                 length mask = (dim * dim)%nat
                 /\ forall k, slot mask k
                              = if decide (i * dim <= k < i * dim + j)%nat
                                then 1%Qc else 0%Qc)
              dim
              (fun j mask_vec =>
                 vec_set mask_vec (j + Z.of_nat i * Z.of_nat dim) 1%Qc)
              (replicate (dim * dim) 0%Qc))
    as (mask & Hrun & Hlen & Hs).
  - split; [apply length_replicate|]. intros k.
    destruct (decide (i * dim <= k < i * dim + 0)%nat); [lia|].
    unfold slot. destruct (replicate (dim * dim) 0%Qc !! k) as [y|] eqn:Hy;
      [|reflexivity].
    apply lookup_replicate in Hy as [-> _]. reflexivity.
  - intros j t Hj [Htl Ht].
    replace (Z.of_nat j + Z.of_nat i * Z.of_nat dim)
      with (Z.of_nat (i * dim + j)) by lia.
    rewrite vec_set_insert by nia.
    eexists. split; [reflexivity|]. split; [rewrite length_insert; exact Htl|].
    intros k. unfold slot.
    destruct (decide (k = i * dim + j)%nat) as [->|Hne].
    + rewrite list_lookup_insert_eq by nia.
      destruct (decide (i * dim <= i * dim + j < i * dim + S j)%nat);
        [reflexivity | lia].
    + rewrite list_lookup_insert_ne by congruence.
      fold (slot t k). rewrite Ht.
      destruct (decide (i * dim <= k < i * dim + j)%nat);
        destruct (decide (i * dim <= k < i * dim + S j)%nat);
        try lia; reflexivity.
  - exists mask. split; [exact Hrun|]. split; [exact Hlen | exact Hs].
Qed.

(** [C_Matrix_Decode] slot by slot, on a packed matrix at the first level. *)
Lemma C_Matrix_Decode_run (s scale : Qc) (matrix : Ciphertext) (dim : nat) :
  (0 < dim)%nat -> (dim * dim <= N)%nat ->
  uniform N (first_level context) s 2 matrix ->
  exists rows,
    C_Matrix_Decode context matrix (Z.of_nat dim) scale = OK rows
    /\ length rows = dim
    /\ forall i, (i < dim)%nat ->
         exists c, rows !! i = Some c
           /\ uniform N (first_level context) (s * scale)%Qc 2 c
           /\ forall j, (j < N)%nat ->
                slot (ct_slots c) j
                = if decide (j < dim)%nat
                  then slot (ct_slots matrix) (i * dim + j) else 0%Qc.
Proof.
  intros Hdim HN (Hm1 & Hm2 & Hm3 & Hm4).
  unfold C_Matrix_Decode, vec_make.
  destruct (Z.ltb_spec (Z.of_nat dim) 0) as [?|_]; [lia|].
  rewrite bind_OK, Nat2Z.id.
  set (good := fun (i : nat) (c : Ciphertext) =>
                 uniform N (first_level context) (s * scale)%Qc 2 c
                 /\ forall j, (j < N)%nat ->
                      slot (ct_slots c) j
                      = if decide (j < dim)%nat
                        then slot (ct_slots matrix) (i * dim + j) else 0%Qc).
  destruct (for_range_inv
              (fun i res =>
                 length res = dim
                 /\ forall k, (k < i)%nat ->
                      exists c, res !! k = Some c /\ good k c)
              dim (decode_body context matrix (Z.of_nat dim) scale)
              (replicate dim Ciphertext0))
    as (res & Hres & Hrl & Hgood).
  - split; [apply length_replicate|]. intros k Hk. lia.
  - intros i t Hi [Htl Ht].
    destruct (decode_mask_run dim i Hi) as (mask & Hmask & Hml & Hms).
    unfold decode_body. rewrite Hmask, bind_OK.
    unfold encode.
    rewrite (bool_decide_eq_true_2 (length mask <= N)%nat) by lia.
    rewrite bind_OK.
    rewrite multiply_plain_run by (proj_simpl; exact Hm2).
    rewrite bind_OK. proj_simpl.
    set (X := zip_with Qcmult (ct_slots matrix)
                (mask ++ replicate (N - length mask) 0%Qc)).
    assert (length X = N) as HXl.
    { unfold X. rewrite length_zip_with, length_app, length_replicate. lia. }
    assert (forall k, slot X k
                      = if decide (i * dim <= k < i * dim + dim)%nat
                        then slot (ct_slots matrix) k else 0%Qc) as HX.
    { intros k. unfold X.
      rewrite slot_zip_with
        by (rewrite ?length_app, ?length_replicate; lia || ring).
      assert (slot (mask ++ replicate (N - length mask) 0%Qc) k = slot mask k) as ->.
      { unfold slot. destruct (decide (k < length mask)%nat) as [Hk|Hk].
        - rewrite lookup_app_l by exact Hk. reflexivity.
        - rewrite lookup_app_r by lia.
          rewrite (lookup_ge_None_2 mask) by lia.
          destruct (replicate (N - length mask) 0%Qc !! (k - length mask)%nat)
            as [y|] eqn:Hy; [|reflexivity].
          apply lookup_replicate in Hy as [-> _]. reflexivity. }
      rewrite Hms.
      destruct (decide (i * dim <= k < i * dim + dim)%nat); ring. }
    assert (i * dim + dim <= N)%nat as Hfit by nia.
    destruct (decide (i = 0%nat)) as [->|Hnz].
    + rewrite bool_decide_eq_false_2 by lia. rewrite bind_OK.
      rewrite vec_set_insert by lia.
      eexists. split; [reflexivity|]. split; [rewrite length_insert; exact Htl|].
      intros k Hk. assert (k = 0%nat) as -> by lia.
      eexists. split; [apply list_lookup_insert_eq; lia|]. split.
      * repeat split; proj_simpl; assumption || congruence.
      * intros j Hj. proj_simpl. rewrite HX. simpl.
        destruct (decide (0 <= j < dim)%nat); destruct (decide (j < dim)%nat);
          try lia; reflexivity.
    + rewrite bool_decide_eq_true_2 by lia.
      rewrite rotate_vector_run by (proj_simpl; nia). rewrite bind_OK.
      rewrite vec_set_insert by lia. proj_simpl.
      eexists. split; [reflexivity|]. split; [rewrite length_insert; exact Htl|].
      intros k Hk. destruct (decide (k = i)) as [->|Hne].
      * eexists. split; [apply list_lookup_insert_eq; lia|]. split.
        -- repeat split; proj_simpl; try (assumption || congruence).
           rewrite length_rotate. exact HXl.
        -- intros j Hj. proj_simpl.
           assert ((Z.of_nat i * Z.of_nat dim) mod Z.of_nat N
                   = Z.of_nat (i * dim)) as ->
             by (rewrite Z.mod_small by nia; lia).
           rewrite Nat2Z.id. rewrite slot_rotate by lia. rewrite HXl, HX.
           destruct (decide (j < dim)%nat) as [Hlt|Hge].
           ++ rewrite Nat.mod_small by lia.
              destruct (decide (i * dim <= i * dim + j < i * dim + dim)%nat);
                [reflexivity | lia].
           ++ destruct (decide (i * dim + j < N)%nat) as [Hs|Hs].
              ** rewrite Nat.mod_small by lia.
                 destruct (decide (i * dim <= i * dim + j < i * dim + dim)%nat);
                   [lia | reflexivity].
              ** assert ((i * dim + j) mod N = i * dim + j - N)%nat as ->.
                 { replace (i * dim + j)%nat
                     with ((i * dim + j - N) + 1 * N)%nat at 1 by lia.
                   rewrite Nat.Div0.mod_add, Nat.mod_small by lia. reflexivity. }
                 destruct (decide (i * dim <= i * dim + j - N
                                   < i * dim + dim)%nat);
                   [lia | reflexivity].
      * rewrite list_lookup_insert_ne by congruence. apply Ht. lia.
  - exists res. split; [exact Hres|]. split; [exact Hrl|]. exact Hgood.
Qed.

(** X18: [C_Matrix_Encode] packs [dim] rows, each with [dim] entries in
    its first slots and zeros beyond, in row-major order: slot
    [a * dim + b] of the result is entry [b] of row [a], and the slots from
    [dim^2] on are zero ([dim^2 <= N]); no level is consumed. *)
Theorem C_Matrix_Encode_row_major (lv : nat) (s : Qc) (rows : list Ciphertext)
  (dim : nat) :
  length rows = dim -> (0 < dim)%nat -> (dim * dim <= N)%nat ->
  Z.of_nat dim <= INT_MAX ->
  Forall (fun row => uniform N lv s 2 row /\ zero_beyond dim (ct_slots row)) rows ->
  exists c,
    C_Matrix_Encode context rows = OK c
    /\ ct_level c = lv /\ ct_scale c = s
    /\ (forall a b row, (b < dim)%nat -> rows !! a = Some row ->
          slot (ct_slots c) (a * dim + b) = slot (ct_slots row) b)
    /\ zero_beyond (dim * dim) (ct_slots c).
Proof.
  intros Hlen Hdim HN Hmax Hrows.
  destruct (C_Matrix_Encode_run lv s rows dim Hlen Hdim HN Hmax Hrows)
    as (c & Hc & (_ & Hl & Hs & _) & Hslots & Hz).
  exists c. split; [exact Hc|]. split; [exact Hl|]. split; [exact Hs|].
  split; [|exact Hz].
  intros a b row Hb Hrow. rewrite Hslots.
  - unfold slot_of. rewrite Hrow. reflexivity.
  - apply lookup_lt_Some in Hrow. lia.
  - exact Hb.
Qed.

(** X19: packing [dim] rows at the first level with [C_Matrix_Encode]
    and unpacking the result with [C_Matrix_Decode] gives [dim]
    ciphertexts with the slots of the rows, at the first level still and
    at the product of the rows' scale with the scale of the masks. *)
Theorem C_Matrix_Decode_Encode (s scale : Qc) (rows : list Ciphertext)
  (dim : nat) :
  length rows = dim -> (0 < dim)%nat -> (dim * dim <= N)%nat ->
  Z.of_nat dim <= INT_MAX ->
  Forall (fun row => uniform N (first_level context) s 2 row
                     /\ zero_beyond dim (ct_slots row)) rows ->
  exists packed unpacked,
    C_Matrix_Encode context rows = OK packed
    /\ C_Matrix_Decode context packed (Z.of_nat dim) scale = OK unpacked
    /\ length unpacked = dim
    /\ forall i row, rows !! i = Some row ->
         exists c, unpacked !! i = Some c
           /\ ct_level c = first_level context
           /\ ct_scale c = (s * scale)%Qc
           /\ forall j, (j < N)%nat -> slot (ct_slots c) j = slot (ct_slots row) j.
Proof.
  intros Hlen Hdim HN Hmax Hrows.
  destruct (C_Matrix_Encode_run _ s rows dim Hlen Hdim HN Hmax Hrows)
    as (packed & Hp & Hpu & Hslots & Hz).
  destruct (C_Matrix_Decode_run s scale packed dim Hdim HN Hpu)
    as (unpacked & Hd & Hdl & Hrowsd).
  exists packed, unpacked. split; [exact Hp|]. split; [exact Hd|].
  split; [exact Hdl|].
  intros i row Hrow.
  assert (i < dim)%nat as Hi by (apply lookup_lt_Some in Hrow; lia).
  destruct (Hrowsd i Hi) as (c & Hc & (_ & Hcl & Hcs & _) & Hcslots).
  exists c. split; [exact Hc|]. split; [exact Hcl|]. split; [exact Hcs|].
  intros j Hj. rewrite Hcslots by exact Hj.
  destruct (Forall_lookup_uniform _ _ _ _ Hrows Hrow) as [_ Hrz].
  destruct (decide (j < dim)%nat) as [Hlt|Hge].
  - rewrite Hslots by assumption. unfold slot_of. rewrite Hrow. reflexivity.
  - symmetry. apply Hrz. lia.
Qed.

End MatrixPacking.

(** ** [sigmoid_approx_three] *)

(** X20: the expected value [sigmoid_approx_three x] that [main] prints
    is not the value at [x / 8] of the polynomial of the coefficient table
    that is evaluated under encryption: its linear coefficient is 1.20096
    where the table has 1.20069, and it has no quadratic term where the
    table has 0.00001; the two differ by
    [0.00027 (x/8) - 0.00001 (x/8)^2]. *)
Theorem sigmoid_approx_three_table (x : Qc) :
  sigmoid_approx_three x
  = OK (poly_eval table3 (x / Qc_of 8 1)
        + Qc_of 27 100000 * (x / Qc_of 8 1)
        - Qc_of 1 100000 * (x / Qc_of 8 1) ^ 2)%Qc.
Proof.
  unfold sigmoid_approx_three.
  rewrite bool_decide_eq_true_2 by reflexivity. f_equal.
  unfold poly_eval, table3, slot. simpl.
  assert (Qc_of 120096 100000 = Qc_of 120069 100000 + Qc_of 27 100000)%Qc as ->
    by (apply Qc_is_canon; reflexivity).
  assert (Qc_of (-81562) 100000 = - Qc_of 81562 100000)%Qc as ->
    by (apply Qc_is_canon; reflexivity).
  ring.
Qed.

(** ** [pad_zero] *)

Lemma for_range_split {St : Type} (lo mid hi : Z) (body : Z -> St -> result St)
  (s : St) :
  lo <= mid <= hi + 1 ->
  for_range lo hi body s
  = (s' ← for_range lo (mid - 1) body s; for_range mid hi body s').
Proof.
  intros H. unfold for_range.
  replace (hi - lo + 1) with ((mid - 1 - lo + 1) + (hi - mid + 1)) by lia.
  rewrite seqZ_app by lia. rewrite foldM_app.
  replace (lo + (mid - 1 - lo + 1)) with mid by lia. reflexivity.
Qed.

Lemma vec_set_fail {A : Type} (v : list A) (i : Z) (x : A) :
  i < 0 \/ Z.of_nat (length v) <= i -> vec_set v i x = Fail OutOfRange.
Proof. intros H. unfold vec_set. rewrite bool_decide_eq_false_2 by lia. reflexivity. Qed.

(** Writing zeros over zeros. *)
Lemma zero_fill_run (lo : Z) (k : nat) (v : list Qc) :
  0 <= lo -> lo + Z.of_nat k <= Z.of_nat (length v) ->
  (forall i, (Z.to_nat lo <= i)%nat -> (i < length v)%nat -> v !! i = Some 0%Qc) ->
  for_range lo (lo + Z.of_nat k - 1) (fun i r => vec_set r i 0%Qc) v = OK v.
Proof.
  intros Hlo Hhi Hz.
  destruct (for_range_inv_from lo (fun _ r => r = v) k
              (fun i r => vec_set r i 0%Qc) v eq_refl) as (r & Hr & ->).
  - intros i t Hi ->. exists v. split; [|reflexivity].
    rewrite vec_set_run by lia. f_equal. apply list_insert_id. apply Hz; lia.
  - exact Hr.
Qed.

(** The second loop of [pad_zero] up to its round [k]. *)
Lemma pad_copy_run (U : list Qc) (offset total : nat) (k : nat) :
  (k <= length U)%nat -> (offset + k <= total)%nat ->
  for_range 0 (Z.of_nat k - 1)
    (fun i r => x ← vec_get U i; vec_set r (i + Z.of_nat offset) x)
    (replicate total 0%Qc)
  = OK (replicate offset 0%Qc ++ take k U
        ++ replicate (total - offset - k) 0%Qc).
Proof.
  intros Hk Hfit.
  destruct (for_range_inv
              (fun i r => r = replicate offset 0%Qc ++ take i U
                              ++ replicate (total - offset - i) 0%Qc)
              k (fun i r => x ← vec_get U i; vec_set r (i + Z.of_nat offset) x)
              (replicate total 0%Qc)) as (r & Hr & ->).
  - rewrite take_0. simpl. rewrite <- replicate_add. f_equal. lia.
  - intros i t Hi ->.
    destruct (lookup_lt_is_Some_2 U i) as [x Hx]; [lia|].
    rewrite (vec_get_lookup _ _ _ Hx), bind_OK.
    replace (Z.of_nat i + Z.of_nat offset) with (Z.of_nat (offset + i)) by lia.
    rewrite vec_set_insert
      by (rewrite !length_app, !length_replicate, length_take; lia).
    eexists. split; [reflexivity|].
    replace (offset + i)%nat with (length (replicate offset 0%Qc) + i)%nat
      by (rewrite length_replicate; reflexivity).
    rewrite insert_app_r.
    f_equal.
    replace i with (length (take i U) + 0)%nat at 1
      by (rewrite length_take; lia).
    rewrite insert_app_r.
    rewrite (take_S_r U i x Hx). rewrite <- app_assoc. f_equal.
    replace (total - offset - i)%nat with (S (total - offset - S i)) by lia.
    reflexivity.
  - exact Hr.
Qed.

(** [pad_zero] within its range. *)
Lemma pad_zero_run (offset : nat) (U : list Qc) :
  (offset + length U <= length U * length U)%nat ->
  Z.of_nat (length U * length U) <= INT_MAX ->
  pad_zero (Z.of_nat offset) U
  = OK (replicate offset 0%Qc ++ U
        ++ replicate (length U * length U - offset - length U) 0%Qc).
Proof.
  intros Hfit Hmax. unfold pad_zero, vec_size.
  set (n := length U) in *.
  set (total := (n * n)%nat) in *.
  replace (Z.to_nat (Z.of_nat n * Z.of_nat n)) with total by (unfold total; lia).
  assert (for_range 0 (Z.of_nat offset - 1) (fun i r => vec_set r i 0%Qc)
            (replicate total 0%Qc) = OK (replicate total 0%Qc)) as ->.
  { change (Z.of_nat offset - 1) with (0 + Z.of_nat offset - 1).
    apply zero_fill_run.
    - lia.
    - rewrite length_replicate. lia.
    - intros i _ Hi. rewrite length_replicate in Hi.
      apply lookup_replicate_2. exact Hi. }
  rewrite bind_OK.
  rewrite (pad_copy_run U offset total n) by (unfold n; lia).
  rewrite bind_OK. rewrite (take_ge U n) by (unfold n; lia).
  rewrite size_t_of_small by lia. rewrite int_of_small by lia.
  destruct (Z.ltb_spec (Z.of_nat offset + Z.of_nat n) 0) as [?|_]; [lia|].
  set (r := replicate offset 0%Qc ++ U ++ replicate (total - offset - n) 0%Qc).
  assert (length r = total) as Hrl.
  { unfold r. rewrite !length_app, !length_replicate. fold n. lia. }
  rewrite Hrl.
  replace (Z.of_nat total - 1)
    with ((Z.of_nat offset + Z.of_nat n)
          + Z.of_nat (total - offset - n) - 1) by lia.
  apply zero_fill_run.
  - lia.
  - rewrite Hrl. lia.
  - intros i Hlo Hi. unfold r.
    rewrite lookup_app_r by (rewrite length_replicate; lia).
    rewrite lookup_app_r by (rewrite length_replicate; fold n; lia).
    apply lookup_replicate_2. rewrite length_replicate. fold n. lia.
Qed.

(** X21: for an offset with [0 <= offset <= n^2 - n], [n] the length of
    [U_vec], [pad_zero] returns [n^2] entries: [U_vec] can be read back
    from the positions [offset .. offset + n - 1], and every other entry
    is zero. *)
Theorem pad_zero_layout (offset : nat) (U : list Qc) :
  (offset + length U <= length U * length U)%nat ->
  Z.of_nat (length U * length U) <= INT_MAX ->
  exists r,
    pad_zero (Z.of_nat offset) U = OK r
    /\ length r = (length U * length U)%nat
    /\ take (length U) (drop offset r) = U
    /\ forall c, (c < offset)%nat \/ (offset + length U <= c)%nat ->
         slot r c = 0%Qc.
Proof.
  intros Hfit Hmax. eexists. split; [apply pad_zero_run; assumption|].
  split; [|split].
  - rewrite !length_app, !length_replicate. lia.
  - rewrite drop_app_length' by (rewrite length_replicate; reflexivity).
    rewrite take_app_length. reflexivity.
  - intros c Hc. unfold slot.
    destruct (decide (c < offset)%nat) as [H1|H1].
    + rewrite lookup_app_l by (rewrite length_replicate; lia).
      rewrite lookup_replicate_2 by lia. reflexivity.
    + rewrite lookup_app_r by (rewrite length_replicate; lia).
      rewrite lookup_app_r by (rewrite length_replicate; lia).
      destruct (replicate (length U * length U - offset - length U) 0%Qc
                  !! (c - length (replicate offset 0%Qc) - length U)%nat)
        as [y|] eqn:Hy; [|reflexivity].
      apply lookup_replicate in Hy as [-> _]. reflexivity.
Qed.

(** X22: an offset that leaves no room for [U_vec], or a negative one,
    makes [pad_zero] write outside [result_vec]. *)
Theorem pad_zero_out_of_range (offset : Z) (U : list Qc) :
  (0 < length U)%nat -> Z.of_nat (length U * length U) <= INT_MAX ->
  offset < 0 \/ Z.of_nat (length U * length U) < offset + Z.of_nat (length U) ->
  pad_zero offset U = Fail OutOfRange.
Proof.
  intros Hn Hmax Hout. unfold pad_zero, vec_size.
  set (n := length U) in *.
  set (total := (n * n)%nat) in *.
  replace (Z.to_nat (Z.of_nat n * Z.of_nat n)) with total by (unfold total; lia).
  destruct (lookup_lt_is_Some_2 U 0%nat) as [x0 Hx0]; [fold n; lia|].
  destruct (Z.lt_ge_cases offset 0) as [Hneg|Hpos].
  - (* the first write of the second loop *)
    rewrite for_range_empty by lia. rewrite bind_OK.
    rewrite for_range_cons by lia.
    rewrite (vec_get_run U 0 x0 ltac:(lia) Hx0), bind_OK.
    rewrite vec_set_fail by lia.
    rewrite !bind_Fail. reflexivity.
  - destruct Hout as [?|Hbig]; [lia|].
    assert (exists o : nat, offset = Z.of_nat o) as [o ->]
      by (exists (Z.to_nat offset); lia).
    destruct (Nat.le_gt_cases o total) as [Hle|Hgt].
    + (* the second loop runs out of [result_vec] *)
      assert (for_range 0 (Z.of_nat o - 1) (fun i r => vec_set r i 0%Qc)
                (replicate total 0%Qc) = OK (replicate total 0%Qc)) as ->.
      { change (Z.of_nat o - 1) with (0 + Z.of_nat o - 1).
        apply zero_fill_run.
        - lia.
        - rewrite length_replicate. lia.
        - intros i _ Hi. rewrite length_replicate in Hi.
          apply lookup_replicate_2. exact Hi. }
      rewrite bind_OK.
      set (k := (total - o)%nat).
      rewrite (for_range_split 0 (Z.of_nat k) (Z.of_nat n - 1)) by lia.
      rewrite (pad_copy_run U o total k) by lia.
      rewrite bind_OK. rewrite for_range_cons by lia.
      destruct (lookup_lt_is_Some_2 U k) as [x Hx]; [fold n; lia|].
      rewrite (vec_get_lookup _ _ _ Hx), bind_OK.
      rewrite vec_set_fail
        by (rewrite !length_app, !length_replicate, length_take; lia).
      rewrite !bind_Fail. reflexivity.
    + (* the first loop runs out of [result_vec] *)
      rewrite (for_range_split 0 (Z.of_nat total) (Z.of_nat o - 1)) by lia.
      assert (for_range 0 (Z.of_nat total - 1) (fun i r => vec_set r i 0%Qc)
                (replicate total 0%Qc) = OK (replicate total 0%Qc)) as ->.
      { change (Z.of_nat total - 1) with (0 + Z.of_nat total - 1).
        apply zero_fill_run.
        - lia.
        - rewrite length_replicate. lia.
        - intros i _ Hi. rewrite length_replicate in Hi.
          apply lookup_replicate_2. exact Hi. }
      rewrite bind_OK. rewrite for_range_cons by lia.
      rewrite vec_set_fail by (rewrite length_replicate; lia).
      rewrite !bind_Fail. reflexivity.
Qed.

(** ** [get_matrix_of_ones] *)

Section MatrixOfOnes.
Context {T : Type} `{EqDecision T}.
Variable T0 : T.

Lemma ones_body_run (n : nat) (M : list (list T)) (diag : list T)
  (ind : nat -> nat -> Qc) (i j : nat) (t : list (list Qc)) :
  square n M -> length diag = n -> (i < n)%nat -> (j < n)%nat ->
  (forall x d, entry M i j = Some x -> diag !! i = Some d ->
     ind i j = if decide (x = d) then 1%Qc else 0%Qc) ->
  ones_upto n ind i j t ->
  exists t', ones_body M diag (Z.of_nat i) (Z.of_nat i) (Z.of_nat j) t = OK t'
             /\ ones_upto n ind i (S j) t'.
Proof.
  intros Hsq Hdl Hi Hj Hind [Hlen Hinv].
  destruct (entry_square n M i j Hsq Hi Hj) as (row & x & Hrow & Hx & Hent).
  destruct (lookup_lt_is_Some_2 diag i) as [d Hd]; [lia|].
  destruct (Hinv i Hi) as (orow & Horow & Hl & Hold).
  unfold ones_body.
  rewrite (vec_get_lookup _ _ _ Hrow), bind_OK.
  rewrite (vec_get_lookup _ _ _ Hx), bind_OK.
  rewrite (vec_get_lookup _ _ _ Hd), bind_OK.
  rewrite (vec_get_lookup _ _ _ Horow), bind_OK.
  rewrite vec_set_insert by lia. rewrite bind_OK.
  rewrite vec_set_insert by lia.
  eexists. split; [reflexivity|]. split.
  - rewrite length_insert. exact Hlen.
  - intros i' Hi'. destruct (decide (i' = i)) as [->|Hne].
    + eexists. split; [apply list_lookup_insert_eq; lia|].
      split; [rewrite length_insert; exact Hl|].
      intros j' Hj' Hc. destruct (decide (j' = j)) as [->|Hnj].
      * rewrite list_lookup_insert_eq by lia. f_equal. symmetry.
        apply Hind; assumption.
      * rewrite list_lookup_insert_ne by congruence. apply Hold; lia.
    + destruct (Hinv i' Hi') as (orow' & Ho' & Hl' & Hold').
      exists orow'. split.
      * rewrite list_lookup_insert_ne by congruence. exact Ho'.
      * split; [exact Hl'|]. intros j' Hj' Hc. apply Hold'; lia.
Qed.

(** [get_matrix_of_ones] entry by entry, against any diagonal the first
    step returns. *)
Lemma get_matrix_of_ones_run (n p : nat) (M : list (list T)) :
  square n M -> Z.of_nat n <= INT_MAX -> (p < n)%nat ->
  exists R,
    get_matrix_of_ones T0 (Z.of_nat p) M = OK R
    /\ rect n n R
    /\ forall i j, (i < n)%nat -> (j < n)%nat ->
         entry R i j
         = Some (if decide (entry M i j = entry M i ((i + p) mod n)%nat)
                 then 1%Qc else 0%Qc).
Proof.
  intros Hsq Hmax Hp. pose proof Hsq as [Hlen _].
  destruct (get_diagonal_run T0 n p M Hsq Hmax ltac:(lia)) as (diag & Hdiag & Hdl & Hde).
  unfold get_matrix_of_ones, vec_size. rewrite Hdiag, bind_OK, Hlen.
  set (ind := fun i j : nat =>
                if decide (entry M i j = entry M i ((i + p) mod n)%nat)
                then 1%Qc else 0%Qc).
  destruct (for_range_inv
              (fun i (st : list (list Qc) * Z) =>
                 snd st = Z.of_nat i /\ ones_upto n ind i 0 (fst st))
              n (ones_row M diag)
              (replicate n (replicate n 0%Qc), 0))
    as ([R k] & HR & _ & [HRl Hinv]).
  - split; [reflexivity|]. split; [apply length_replicate|].
    intros i' Hi'. exists (replicate n 0%Qc).
    split; [apply lookup_replicate_2; lia|].
    split; [apply length_replicate|]. intros j' _ Hc. lia.
  - intros i [t k] Hi [Hk Hup]. simpl in Hk, Hup. subst k.
    unfold ones_row, vec_size. rewrite Hlen.
    destruct (for_range_inv (fun j => ones_upto n ind i j) n
                (ones_body M diag (Z.of_nat i) (Z.of_nat i)) t Hup)
      as (t' & Ht' & [Htl' Hinv']).
    + intros j t1 Hj H1. apply (ones_body_run n); try assumption.
      intros x d Hx Hd. unfold ind. rewrite Hx.
      rewrite <- (Hde i Hi), Hd.
      destruct (decide (Some x = Some d)) as [He|He];
        destruct (decide (x = d)) as [Hxd|Hxd];
        reflexivity || congruence.
    + rewrite Ht', bind_OK. eexists. split; [reflexivity|].
      split; [simpl; lia|]. split; [exact Htl'|].
      intros i' Hi'. destruct (Hinv' i' Hi') as (orow & Ho & Hl & Hold).
      exists orow. split; [exact Ho|]. split; [exact Hl|].
      intros j' Hj' Hc. apply Hold; lia.
  - simpl in HRl, Hinv. rewrite HR, bind_OK.
    exists R. split; [reflexivity|]. split.
    + split; [exact HRl|]. rewrite Forall_forall. intros orow Hin.
      apply list_elem_of_In in Hin. apply list_elem_of_lookup in Hin as [i Hi].
      destruct (Hinv i) as (orow' & Ho' & Hl & _).
      * apply lookup_lt_Some in Hi. lia.
      * congruence.
    + intros i j Hi Hj. destruct (Hinv i Hi) as (orow & Ho & Hl & Hold).
      unfold entry at 1. rewrite Ho. simpl. apply Hold; lia.
Qed.

(** X23: for an [n] x [n] matrix and an offset [0 <= p < n],
    [get_matrix_of_ones] returns the [n] x [n] matrix that has a 1 at
    [(i, j)] exactly when the entry [M[i][j]] equals the entry
    [M[i][(i + p) mod n]] of the diagonal in its row: the 1 of the
    diagonal itself, and one more for every other entry of the row with
    the same value. *)
Theorem get_matrix_of_ones_entries (n p : nat) (M : list (list T)) :
  square n M -> Z.of_nat n <= INT_MAX -> (p < n)%nat ->
  exists R,
    get_matrix_of_ones T0 (Z.of_nat p) M = OK R
    /\ rect n n R
    /\ (forall i j, (i < n)%nat -> (j < n)%nat ->
          entry R i j
          = Some (if decide (entry M i j = entry M i ((i + p) mod n)%nat)
                  then 1%Qc else 0%Qc))
    /\ forall i, (i < n)%nat -> entry R i ((i + p) mod n)%nat = Some 1%Qc.
Proof.
  intros Hsq Hmax Hp.
  destruct (get_matrix_of_ones_run n p M Hsq Hmax Hp) as (R & HR & Hrect & Hent).
  exists R. split; [exact HR|]. split; [exact Hrect|]. split; [exact Hent|].
  intros i Hi. rewrite Hent.
  - destruct (decide (entry M i ((i + p) mod n)%nat
                      = entry M i ((i + p) mod n)%nat)); [reflexivity|congruence].
  - exact Hi.
  - apply Nat.mod_upper_bound. lia.
Qed.

End MatrixOfOnes.

(** ** [get_U_transpose] *)

Section UTranspose.
Context {T : Type} `{EqDecision T}.
Variable T0 : T.

(** Row 0 of the matrix of ones at offset [i], when row 0 of the matrix
    has no value twice: the unit vector [i]. *)
Lemma one_matrix_first_row (n i : nat) (M : list (list T)) (m0 : list T) :
  square n M -> Z.of_nat n <= INT_MAX -> (i < n)%nat ->
  M !! 0%nat = Some m0 -> NoDup m0 ->
  exists R r0,
    get_matrix_of_ones T0 (Z.of_nat i) M = OK R
    /\ R !! 0%nat = Some r0 /\ length r0 = n
    /\ forall j, (j < n)%nat ->
         r0 !! j = Some (if decide (j = i) then 1%Qc else 0%Qc).
Proof.
  intros Hsq Hmax Hi Hm0 Hnd.
  destruct (get_matrix_of_ones_run T0 n i M Hsq Hmax Hi) as (R & HR & [HRl HRr] & Hent).
  destruct (lookup_lt_is_Some_2 R 0%nat) as [r0 Hr0]; [lia|].
  exists R, r0. split; [exact HR|]. split; [exact Hr0|].
  split; [apply (Forall_lookup_uniform _ _ _ _ HRr Hr0)|].
  intros j Hj. specialize (Hent 0%nat j ltac:(lia) Hj).
  unfold entry in Hent. rewrite Hr0, Hm0 in Hent. simpl in Hent.
  rewrite Hent. f_equal. rewrite Nat.mod_small by lia.
  assert (length m0 = n) as Hl0.
  { destruct Hsq as [_ Hrows]. apply (Forall_lookup_uniform _ _ _ _ Hrows Hm0). }
  destruct (lookup_lt_is_Some_2 m0 j) as [x Hx]; [lia|].
  destruct (lookup_lt_is_Some_2 m0 i) as [y Hy]; [lia|].
  rewrite Hx, Hy.
  destruct (decide (Some x = Some y)) as [He|He];
    destruct (decide (j = i)) as [Hji|Hji]; try reflexivity.
  - exfalso. apply Hji. injection He as ->.
    apply (NoDup_lookup m0 j i y Hnd Hx Hy).
  - exfalso. apply He. subst j. congruence.
Qed.

(** A padded unit vector is a row of the permutation matrix. *)
Lemma padded_unit_row (n i k c : nat) (r0 : list Qc) :
  length r0 = n -> (i < n)%nat -> (k < n)%nat -> (c < n * n)%nat ->
  (forall j, (j < n)%nat ->
     r0 !! j = Some (if decide (j = i) then 1%Qc else 0%Qc)) ->
  (replicate (k * n) 0%Qc ++ r0 ++ replicate (n * n - k * n - n) 0%Qc) !! c
  = Some (if decide (c = k * n + i)%nat then 1%Qc else 0%Qc).
Proof.
  intros Hl Hi Hk Hc Hr0.
  assert (k * n + n <= n * n)%nat as Hfit by nia.
  destruct (decide (c < k * n)%nat) as [H1|H1].
  - rewrite lookup_app_l by (rewrite length_replicate; lia).
    rewrite lookup_replicate_2 by lia.
    destruct (decide (c = k * n + i)%nat); [lia | reflexivity].
  - rewrite lookup_app_r by (rewrite length_replicate; lia).
    rewrite length_replicate.
    destruct (decide (c - k * n < n)%nat) as [H2|H2].
    + rewrite lookup_app_l by lia. rewrite Hr0 by lia.
      destruct (decide (c - k * n = i)%nat); destruct (decide (c = k * n + i)%nat);
        try lia; reflexivity.
    + rewrite lookup_app_r by lia. rewrite lookup_replicate_2 by lia.
      destruct (decide (c = k * n + i)%nat); [lia | reflexivity].
Qed.

Lemma transpose_fill_run (n i k : nat) (R : list (list Qc)) (r0 : list Qc)
  (st : list (list Qc) * Z) :
  (i < n)%nat -> (k < n)%nat -> Z.of_nat (n * n) <= INT_MAX ->
  R !! 0%nat = Some r0 -> length r0 = n ->
  (forall j, (j < n)%nat ->
     r0 !! j = Some (if decide (j = i) then 1%Qc else 0%Qc)) ->
  transpose_upto n i k st ->
  exists st', transpose_fill R (Z.of_nat n) (Z.of_nat k) st = OK st'
              /\ transpose_upto n i (S k) st'.
Proof.
  intros Hi Hk Hmax HR Hl Hr0. destruct st as [Ut tr].
  intros (Htr & Hlen & Hinv). simpl in Htr, Hlen, Hinv. subst tr.
  assert (k * n + n <= n * n)%nat as Hfit by nia.
  assert (i * n + k < n * n)%nat as Hrow by nia.
  unfold transpose_fill.
  rewrite (vec_get_run R 0 r0 ltac:(lia) HR), bind_OK.
  replace (Z.of_nat k * Z.of_nat n) with (Z.of_nat (k * n)) by lia.
  rewrite pad_zero_run by (rewrite Hl; lia). rewrite bind_OK, Hl.
  rewrite vec_set_insert by lia. rewrite bind_OK.
  eexists. split; [reflexivity|]. split; [simpl; lia|].
  split; [simpl; rewrite length_insert; exact Hlen|].
  intros a b Hb Hc. simpl.
  destruct (decide (a = i /\ b = k)) as [[-> ->]|Hne].
  - eexists. split; [apply list_lookup_insert_eq; lia|]. split.
    + rewrite !length_app, !length_replicate, Hl. lia.
    + intros c Hcc. apply padded_unit_row; assumption.
  - rewrite list_lookup_insert_ne by nia. apply Hinv; [exact Hb | lia].
Qed.

(** X24: for an [n] x [n] matrix whose first row has no value twice,
    [get_U_transpose] returns the [n^2] x [n^2] permutation matrix of the
    transposition of a matrix stored row by row: row [a n + b] has its
    only 1 in column [b n + a].  The matrix is read for the values of its
    first row only. *)
Theorem get_U_transpose_permutation (n : nat) (M : list (list T)) (m0 : list T) :
  square n M -> (0 < n)%nat -> Z.of_nat (n * n) <= INT_MAX ->
  M !! 0%nat = Some m0 -> NoDup m0 ->
  exists P,
    get_U_transpose T0 M = OK P
    /\ length P = (n * n)%nat
    /\ forall a b, (a < n)%nat -> (b < n)%nat ->
         exists row, P !! (a * n + b)%nat = Some row
           /\ length row = (n * n)%nat
           /\ forall c, (c < n * n)%nat ->
                row !! c = Some (if decide (c = b * n + a)%nat then 1%Qc else 0%Qc).
Proof.
  intros Hsq Hn Hmax Hm0 Hnd. pose proof Hsq as [Hlen _].
  assert (Z.of_nat n <= INT_MAX) as Hnmax by nia.
  unfold get_U_transpose, vec_size. rewrite Hlen, int_of_small by lia.
  unfold vec_make.
  destruct (Z.ltb_spec (Z.of_nat n * Z.of_nat n) 0) as [?|_]; [nia|].
  rewrite !bind_OK.
  replace (Z.to_nat (Z.of_nat n * Z.of_nat n)) with (n * n)%nat by lia.
  destruct (for_range_inv (fun i => transpose_upto n i 0) n
              (transpose_block T0 M (Z.of_nat n))
              (replicate (n * n) (replicate (n * n) 0%Qc), 0))
    as ([P tr] & HP & _ & HPl & Hinv).
  - split; [simpl; lia|]. split; [simpl; apply length_replicate|].
    intros a b Hb Hc. lia.
  - intros i st Hi Hup.
    destruct (one_matrix_first_row n i M m0 Hsq Hnmax Hi Hm0 Hnd)
      as (R & r0 & HR & Hr0 & Hl & Hunit).
    unfold transpose_block. rewrite HR, bind_OK.
    destruct (for_range_inv (fun k => transpose_upto n i k) n
                (transpose_fill R (Z.of_nat n)) st Hup)
      as (st' & Hst' & Htr' & Hl' & Hinv').
    + intros k t Hk Ht. apply (transpose_fill_run n i k R r0); assumption.
    + exists st'. split; [exact Hst'|].
      split; [rewrite Htr'; lia|]. split; [exact Hl'|].
      intros a b Hb Hc. apply Hinv'; [exact Hb | lia].
  - simpl in HPl, Hinv. rewrite HP, bind_OK.
    exists P. split; [reflexivity|]. split; [exact HPl|].
    intros a b Ha Hb. apply Hinv; [exact Hb | lia].
Qed.

End UTranspose.

(** ** More instances *)

Ltac small_index i := do 9 (try destruct i as [|i]); try lia; try reflexivity.

Lemma get_diagonal_full_offset_matrix3 :
  exists d,
    get_diagonal 0 (Z.of_nat 3) matrix3 = OK d
    /\ get_diagonal 0 0 matrix3 = OK d
    /\ length d = 3%nat
    /\ forall i : nat, (i < 3)%nat -> d !! i = entry matrix3 i i.
Proof.
  apply (get_diagonal_full_offset 0 3 matrix3).
  - split; [reflexivity|]. repeat constructor.
  - unfold INT_MAX. lia.
Defined.

Lemma get_diagonal_outside_matrix3 :
  get_diagonal 0 (-1) matrix3 = OK (replicate (length matrix3) 0).
Proof.
  apply (get_diagonal_outside 0 (-1) matrix3).
  - unfold INT_MAX. simpl. lia.
  - unfold INT_MAX. lia.
  - left. lia.
Defined.

Lemma get_all_diagonals_read_back_matrix3 :
  exists D,
    get_all_diagonals 0 matrix3 = OK D
    /\ square 3 D
    /\ forall i j : nat, (i < 3)%nat -> (j < 3)%nat ->
         is_Some (entry matrix3 i j)
         /\ entry D ((j + (3 - i)) mod 3)%nat i = entry matrix3 i j.
Proof.
  apply (get_all_diagonals_read_back 0 3 matrix3).
  - split; [reflexivity|]. repeat constructor.
  - unfold INT_MAX. lia.
Defined.

Lemma rotate_vec_entries_123 :
  exists w,
    rotate_vec 0 [1; 2; 3] (Z.of_nat 1) = OK w
    /\ length w = length [1; 2; 3]
    /\ forall i : nat, (i < length [1; 2; 3])%nat ->
         w !! i = [1; 2; 3] !! ((i + 1) mod length [1; 2; 3])%nat.
Proof.
  apply (rotate_vec_entries 0 [1; 2; 3] 1).
  - simpl. lia.
  - unfold INT_MAX, vec_size. simpl. lia.
Defined.

Lemma rotate_vec_exits_negative :
  rotate_vec 0 [1; 2; 3] (-1) = Fail ProcessExit.
Proof.
  apply (rotate_vec_exits 0 [1; 2; 3] (-1)).
  - unfold INT_MAX, vec_size. simpl. lia.
  - unfold INT_MAX. lia.
  - left. lia.
Defined.

Lemma rotate_vec_round_trip_123 :
  (w ← rotate_vec 0 [1; 2; 3] 1; rotate_vec 0 w (vec_size [1; 2; 3] - 1))
  = OK [1; 2; 3].
Proof.
  apply (rotate_vec_round_trip 0 [1; 2; 3] 1).
  - unfold vec_size. simpl. lia.
  - unfold INT_MAX, vec_size. simpl. lia.
Defined.

Lemma transpose_matrix_entries_2x3 :
  exists t, transpose_matrix 0 matrix2x3 = OK t
            /\ rect 3 2 t
            /\ forall i j, (i < 2)%nat -> (j < 3)%nat ->
                 is_Some (entry matrix2x3 i j)
                 /\ entry t j i = entry matrix2x3 i j.
Proof.
  apply (transpose_matrix_entries 0 2 3 matrix2x3).
  - split; [reflexivity|]. repeat constructor.
  - lia.
  - unfold INT_MAX. lia.
  - unfold INT_MAX. lia.
Defined.

Lemma transpose_matrix_involutive_2x3 :
  (t ← transpose_matrix 0 matrix2x3; transpose_matrix 0 t) = OK matrix2x3.
Proof.
  apply (transpose_matrix_involutive 0 2 3 matrix2x3).
  - split; [reflexivity|]. repeat constructor.
  - lia.
  - lia.
  - unfold INT_MAX. lia.
  - unfold INT_MAX. lia.
Defined.

Lemma transpose_matrix_empty_rows_2 :
  transpose_matrix 0 (replicate 2 []) = OK []
  /\ transpose_matrix 0 [] = Fail OutOfRange.
Proof.
  apply (transpose_matrix_empty_rows 0 2).
  - lia.
  - unfold INT_MAX. lia.
Defined.

Lemma Horner_sigmoid_approx_needs_levels_low :
  exists e,
    Horner_sigmoid_approx context8 low_input (Z.of_nat 3) table3 base_scale
    = Fail e.
Proof.
  apply (Horner_sigmoid_approx_needs_levels context8 low_input 3 table3 base_scale).
  - lia.
  - reflexivity.
  - left. simpl. lia.
Defined.

Lemma cipher_dot_product_levels_fresh :
  exists c,
    cipher_dot_product context8 (fresh context8 (ints [1; 2; 3]))
      (fresh context8 (ints [4; 5; 6])) 3 = OK c
    /\ ct_level (fresh context8 (ints [1; 2; 3]))
       = ct_level (fresh context8 (ints [4; 5; 6]))
    /\ ct_level (fresh context8 (ints [1; 2; 3])) = S (ct_level c).
Proof.
  destruct (cipher_dot_product_run context8
              (fresh context8 (ints [1; 2; 3])) (fresh context8 (ints [4; 5; 6])) 3)
    as (c & Hc & _).
  - apply fresh_well_formed. simpl. lia.
  - apply fresh_well_formed. simpl. lia.
  - reflexivity.
  - simpl. lia.
  - simpl. lia.
  - intros i Hi. small_index i.
  - intros i Hi. small_index i.
  - exists c. split; [exact Hc|].
    apply (cipher_dot_product_levels context8 _ _ c 3 Hc).
Defined.

Lemma operand_fresh2 (values : list Z) :
  length values = 2%nat -> operand context8 2 (fresh context8 (ints values)).
Proof.
  intros Hl. destruct values as [|a [|b [|c rest]]]; try discriminate.
  split; [apply fresh_well_formed; simpl; lia|]. split; [reflexivity|].
  intros i Hi. small_index i.
Qed.

Lemma predict_cipher_weights_rows_2x2 :
  exists p,
    predict_cipher_weights context8 rows2x2 weights11 (Z.of_nat 2) base_scale
    = OK p
    /\ ct_level p = (first_level context8 - 5)%nat
    /\ forall i row, rows2x2 !! i = Some row ->
         slot (ct_slots p) i
         = poly_eval table3
             (inner_product (ct_slots row) (ct_slots weights11) 2).
Proof.
  apply (predict_cipher_weights_rows context8 rows2x2 weights11 2).
  - simpl. lia.
  - simpl. lia.
  - simpl. lia.
  - repeat (apply Forall_cons_2; [apply operand_fresh2; reflexivity|]).
    apply Forall_nil_2.
  - apply operand_fresh2. reflexivity.
Defined.


Lemma table3_nonzero i x : table3 !! i = Some x -> x <> 0%Qc.
Proof.
  intros H E. subst x.
  do 4 (destruct i as [|i];
        [apply (f_equal (fun o => Qcanon.this <$> o)) in H;
         vm_compute in H; discriminate|]).
  discriminate.
Qed.

Lemma Tree_sigmoid_approx_poly_eval_table3 :
  exists r,
    Tree_sigmoid_approx context8 (fresh context8 (replicate 8 (Qc_of 1 10)))
      (Z.of_nat 3) base_scale table3 = OK r
    /\ well_formed context8 r
    /\ Z.of_nat (ct_level r)
       = Z.of_nat (ct_level (fresh context8 (replicate 8 (Qc_of 1 10))))
         - (Z.log2_up (Z.of_nat 3) + 1)
    /\ forall j, (j < slot_count context8)%nat ->
         slot (ct_slots r) j
         = poly_eval table3
             (slot (ct_slots (fresh context8 (replicate 8 (Qc_of 1 10)))) j).
Proof.
  apply (Tree_sigmoid_approx_poly_eval context8
           (fresh context8 (replicate 8 (Qc_of 1 10))) table3 3).
  - apply fresh_well_formed. simpl. lia.
  - lia.
  - reflexivity.
  - apply table3_nonzero.
  - simpl. lia.
  - change (Z.log2_up (Z.of_nat 3)) with 2. simpl. lia.
Defined.

Lemma uniform_diagonals2 : Forall (uniform 8 7 base_scale 2) diagonals2.
Proof.
  repeat (apply Forall_cons_2; [repeat split; reflexivity|]). apply Forall_nil_2.
Qed.

Lemma diagonals2_hold l i :
  (l < 2)%nat -> (i < 2)%nat ->
  slot_of diagonals2 l i = mat matrix2q i ((i + l) mod 2)%nat.
Proof.
  intros Hl Hi.
  destruct l as [|[|l]]; [| |lia]; (destruct i as [|[|i]]; [| |lia]);
    reflexivity.
Qed.

Lemma Linear_Transform_CipherMatrix_PlainVector_2x2 :
  exists c,
    Linear_Transform_CipherMatrix_PlainVector rotations2 diagonals2 = OK c
    /\ ct_level c = 7%nat /\ ct_scale c = (base_scale * base_scale)%Qc
    /\ forall i, (i < 2)%nat ->
         slot (ct_slots c) i = mat_vec matrix2q (ints [5; 6]) 2 i.
Proof.
  apply (Linear_Transform_CipherMatrix_PlainVector_mat_vec 8 7 base_scale
           base_scale matrix2q (ints [5; 6]) 2 rotations2 diagonals2).
  - lia.
  - reflexivity.
  - reflexivity.
  - exact uniform_diagonals2.
  - repeat (apply Forall_cons_2; [repeat split; reflexivity|]). apply Forall_nil_2.
  - exact diagonals2_hold.
  - intros l i Hl Hi.
    destruct l as [|[|l]]; [| |lia]; (destruct i as [|[|i]]; [| |lia]);
      reflexivity.
Defined.

Lemma Linear_Transform_Cipher_2x2 :
  exists c,
    Linear_Transform_Cipher context8 vector56 diagonals2 = OK c
    /\ ct_level c = 7%nat /\ ct_scale c = (base_scale * base_scale)%Qc
    /\ ct_size c = 3%nat
    /\ forall i, (i < 2)%nat ->
         slot (ct_slots c) i = mat_vec matrix2q (ct_slots vector56) 2 i.
Proof.
  apply (Linear_Transform_Cipher_mat_vec context8 7 base_scale base_scale
           matrix2q 2 vector56 diagonals2).
  - lia.
  - simpl. lia.
  - unfold INT_MAX. lia.
  - reflexivity.
  - repeat split; reflexivity.
  - intros i Hi. small_index i.
  - exact uniform_diagonals2.
  - exact diagonals2_hold.
Defined.

Lemma packable_rows2x2 :
  Forall (fun row => uniform 8 7 base_scale 2 row
                     /\ zero_beyond 2 (ct_slots row)) rows2x2.
Proof.
  repeat (apply Forall_cons_2;
          [split; [repeat split; reflexivity | intros i Hi; small_index i]|]).
  apply Forall_nil_2.
Qed.

Lemma C_Matrix_Encode_row_major_2x2 :
  exists c,
    C_Matrix_Encode context8 rows2x2 = OK c
    /\ ct_level c = 7%nat /\ ct_scale c = base_scale
    /\ (forall a b row, (b < 2)%nat -> rows2x2 !! a = Some row ->
          slot (ct_slots c) (a * 2 + b) = slot (ct_slots row) b)
    /\ zero_beyond (2 * 2) (ct_slots c).
Proof.
  apply (C_Matrix_Encode_row_major context8 7 base_scale rows2x2 2).
  - reflexivity.
  - lia.
  - simpl. lia.
  - unfold INT_MAX. lia.
  - exact packable_rows2x2.
Defined.

Lemma C_Matrix_Decode_Encode_2x2 :
  exists packed unpacked,
    C_Matrix_Encode context8 rows2x2 = OK packed
    /\ C_Matrix_Decode context8 packed (Z.of_nat 2) base_scale = OK unpacked
    /\ length unpacked = 2%nat
    /\ forall i row, rows2x2 !! i = Some row ->
         exists c, unpacked !! i = Some c
           /\ ct_level c = first_level context8
           /\ ct_scale c = (base_scale * base_scale)%Qc
           /\ forall j, (j < slot_count context8)%nat ->
                slot (ct_slots c) j = slot (ct_slots row) j.
Proof.
  apply (C_Matrix_Decode_Encode context8 base_scale base_scale rows2x2 2).
  - reflexivity.
  - lia.
  - simpl. lia.
  - unfold INT_MAX. lia.
  - exact packable_rows2x2.
Defined.

Lemma pad_zero_layout_12 :
  exists r,
    pad_zero (Z.of_nat 2) vector12 = OK r
    /\ length r = (length vector12 * length vector12)%nat
    /\ take (length vector12) (drop 2 r) = vector12
    /\ forall c, (c < 2)%nat \/ (2 + length vector12 <= c)%nat ->
         slot r c = 0%Qc.
Proof.
  apply (pad_zero_layout 2 vector12).
  - simpl. lia.
  - unfold INT_MAX. simpl. lia.
Defined.

Lemma pad_zero_out_of_range_12 :
  pad_zero 3 vector12 = Fail OutOfRange.
Proof.
  apply (pad_zero_out_of_range 3 vector12).
  - simpl. lia.
  - unfold INT_MAX. simpl. lia.
  - right. simpl. lia.
Defined.

Lemma get_matrix_of_ones_entries_matrix3 :
  exists R,
    get_matrix_of_ones 0 (Z.of_nat 1) matrix3 = OK R
    /\ rect 3 3 R
    /\ (forall i j, (i < 3)%nat -> (j < 3)%nat ->
          entry R i j
          = Some (if decide (entry matrix3 i j = entry matrix3 i ((i + 1) mod 3)%nat)
                  then 1%Qc else 0%Qc))
    /\ forall i, (i < 3)%nat -> entry R i ((i + 1) mod 3)%nat = Some 1%Qc.
Proof.
  apply (get_matrix_of_ones_entries 0 3 1 matrix3).
  - split; [reflexivity|]. repeat constructor.
  - unfold INT_MAX. lia.
  - lia.
Defined.

Lemma get_U_transpose_permutation_matrix2 :
  exists P,
    get_U_transpose 0 matrix2 = OK P
    /\ length P = (2 * 2)%nat
    /\ forall a b, (a < 2)%nat -> (b < 2)%nat ->
         exists row, P !! (a * 2 + b)%nat = Some row
           /\ length row = (2 * 2)%nat
           /\ forall c, (c < 2 * 2)%nat ->
                row !! c = Some (if decide (c = b * 2 + a)%nat then 1%Qc else 0%Qc).
Proof.
  apply (get_U_transpose_permutation 0 2 matrix2 [1; 2]).
  - split; [reflexivity|]. repeat constructor.
  - lia.
  - unfold INT_MAX. lia.
  - reflexivity.
  - apply NoDup_cons_2; [|apply NoDup_singleton].
    intros Hin. apply list_elem_of_singleton in Hin. discriminate.
Defined.
